(** * The TOPODATA download / unzip workers and the tile selection

    A shallow embedding of [unzip_worker.py], [download_raster_worker.py]
    and of [analyze_polygon_against_grid] from [spatial_analysis.py],
    with the properties their description states about them.

    Python objects become records, [self.x = e] becomes a record update,
    a [pyqtSignal] emission appends to a log of signals, the file system
    is a finite set of existing paths, and what the outside world decides
    (what an archive contains, how a transfer ends, when the user cancels)
    is an explicit argument. *)

From stdpp Require Import gmap strings pretty sorting list.
From Stdlib Require Import Ascii.

Local Open Scope Z_scope.

(** ** Python strings and [posixpath] *)

Module Py.

Fixpoint str_drop (n : nat) (s : string) : string :=
  match n, s with
  | O, _ => s
  | S n', String _ s' => str_drop n' s'
  | S _, EmptyString => EmptyString
  end.

Fixpoint str_take (n : nat) (s : string) : string :=
  match n, s with
  | O, _ => EmptyString
  | S n', String c s' => String c (str_take n' s')
  | S _, EmptyString => EmptyString
  end.

(** [s[i:]] and [s[:i]] for [i >= 0], the only indices the functions
    below pass. *)
Definition slice_from (i : Z) (s : string) : string := str_drop (Z.to_nat i) s.
Definition slice_to (i : Z) (s : string) : string := str_take (Z.to_nat i) s.

(** [s.rfind(c)]: the highest index of [c] in [s], or [-1]. *)
Fixpoint rfind (c : ascii) (s : string) : Z :=
  match s with
  | EmptyString => -1
  | String d s' =>
      let r := rfind c s' in
      if Z.leb 0 r then r + 1
      else if bool_decide (d = c) then 0 else -1
  end.

(** [s[i:i+1]] as an optional character. *)
Fixpoint char_at (i : nat) (s : string) : option ascii :=
  match i, s with
  | _, EmptyString => None
  | O, String c _ => Some c
  | S i', String _ s' => char_at i' s'
  end.

Definition startswith (p s : string) : bool := String.prefix p s.

Definition endswith (suf s : string) : bool :=
  bool_decide (str_drop (String.length s - String.length suf) s = suf).

(** [str.lower] on the ASCII letters; the other bytes of the UTF-8 text
    stay. The worker only asks whether the lowered name ends in [".tif"],
    and no other character lowers to [t], [i] or [f] alone. *)
Definition lower_char (c : ascii) : ascii :=
  let n := nat_of_ascii c in
  if (Nat.leb 65 n && Nat.leb n 90)%bool then ascii_of_nat (n + 32) else c.

Fixpoint lower (s : string) : string :=
  match s with
  | EmptyString => EmptyString
  | String c s' => String (lower_char c) (lower s')
  end.

Definition sep : ascii := "/"%char.
Definition extsep : ascii := "."%char.

(** [posixpath.join(a, b)] *)
Definition join (a b : string) : string :=
  if startswith "/" b then b
  else if bool_decide (a = "") || endswith "/" a then a +:+ b
  else a +:+ "/" +:+ b.

(** [posixpath.basename(p)] *)
Definition basename (p : string) : string :=
  let i := rfind sep p + 1 in
  slice_from i p.

(** The [while filenameIndex < dotIndex] loop of [genericpath._splitext],
    run for the [n] indices from [i]: is there a character other than
    the dot before the last dot? *)
Fixpoint has_non_dot (n : nat) (i : nat) (p : string) : bool :=
  match n with
  | O => false
  | S n' =>
      if bool_decide (char_at i p ≠ Some extsep) then true
      else has_non_dot n' (S i) p
  end.

(** [posixpath.splitext(p)] *)
Definition splitext (p : string) : string * string :=
  let sepIndex := rfind sep p in
  let dotIndex := rfind extsep p in
  if Z.ltb sepIndex dotIndex then
    let filenameIndex := sepIndex + 1 in
    if has_non_dot (Z.to_nat (dotIndex - filenameIndex)) (Z.to_nat filenameIndex) p
    then (slice_to dotIndex p, slice_from dotIndex p)
    else (p, "")
  else (p, "").

End Py.

(** ** The unzip worker ([unzip_worker.py]) *)

Module Unzip.

(** The exceptions the worker tells apart: [zipfile.BadZipFile], any other
    [Exception] (with its [str(e)]), and the [IndexError] of a list access
    outside the [try]. *)
Inductive PyExc :=
| BadZipFile
| OtherException (msg : string)
| IndexError.

(** The four [pyqtSignal]s of [UnzipWorker]. *)
Inductive Signal :=
| started (msg : string)
| progress (index total : nat)
| finished (paths : list string)
| error (msg : string).

Record UnzipWorker := mkUnzipWorker {
  zip_dir_path : string;
  unzip_dir_path : string;
  zip_files : list string;
  total_files : nat;
  current_index : nat;
  unzip_files : list string
}.

(** What the outside world decides about one archive: the name
    [tempfile.mkdtemp] picks (or the error it raises), the regular files
    [extractall] leaves in the temporary directory, as paths relative to
    it and in the order [os.walk] lists them, the exception that ended the
    extraction if one did, and whether [shutil.rmtree] manages to remove
    the directory. *)
Record Archive := mkArchive {
  mkdtemp : string + string;
  members : list string;
  failure : option PyExc;
  rmtree_works : bool
}.

(** The state a run acts on: the worker object, the set of existing paths,
    the signals emitted so far (oldest first), the [shutil.move] calls
    performed so far as (source, destination), and the number of calls
    queued on the Qt event loop for a later turn. *)
Record World := mkWorld {
  self : UnzipWorker;
  fs : gset string;
  signals : list Signal;
  moves : list (string * string);
  deferred : nat
}.

Definition set_self (f : UnzipWorker → UnzipWorker) (w : World) : World :=
  mkWorld (f (self w)) (fs w) (signals w) (moves w) (deferred w).

Definition set_fs (f : gset string → gset string) (w : World) : World :=
  mkWorld (self w) (f (fs w)) (signals w) (moves w) (deferred w).

Definition emit (s : Signal) (w : World) : World :=
  mkWorld (self w) (fs w) (signals w ++ [s]) (moves w) (deferred w).

Definition log_move (src dst : string) (w : World) : World :=
  mkWorld (self w) (fs w) (signals w) (moves w ++ [(src, dst)]) (deferred w).

(** A method either returns, raises, or does not come back. *)
Inductive Outcome (A : Type) :=
| Returns (a : A) (w : World)
| Raises (e : PyExc) (w : World)
| Diverges.
Arguments Returns {A} a w.
Arguments Raises {A} e w.
Arguments Diverges {A}.

Definition M (A : Type) : Type := World → Outcome A.

Definition ret {A} (a : A) : M A := λ w, Returns a w.
Definition raise {A} (e : PyExc) : M A := λ w, Raises e w.
Definition bind {A B} (m : M A) (k : A → M B) : M B := λ w,
  match m w with
  | Returns a w' => k a w'
  | Raises e w' => Raises e w'
  | Diverges => Diverges
  end.
Definition act (f : World → World) : M unit := λ w, Returns tt (f w).

Global Instance M_ret : MRet M := @ret.
Global Instance M_bind : MBind M := λ A B k m, bind m k.

(** [try: body except BadZipFile: h1 except Exception as e: h2] *)
Definition try_except (body : M unit) (on_bad_zip : M unit)
    (on_exception : string → M unit) : M unit := λ w,
  match body w with
  | Returns a w' => Returns a w'
  | Raises BadZipFile w' => on_bad_zip w'
  | Raises (OtherException msg) w' => on_exception msg w'
  | Raises IndexError w' => on_exception "list index out of range" w'
  | Diverges => Diverges
  end.

(** [try: body finally: final] *)
Definition try_finally (body : M unit) (final : M unit) : M unit := λ w,
  match body w with
  | Returns _ w' => final w'
  | Raises e w' =>
      match final w' with
      | Returns _ w'' => Raises e w''
      | other => other
      end
  | Diverges => Diverges
  end.

(** [__init__] *)
Definition init (zip_dir_path : string) (zip_files : list string) : UnzipWorker :=
  mkUnzipWorker zip_dir_path zip_dir_path zip_files (length zip_files) 0 [].

Definition create_temp_dir (a : Archive) : M string := λ w,
  match mkdtemp a with
  | inl name =>
      let temp_dir := Py.join (unzip_dir_path (self w)) name in
      Returns temp_dir (set_fs (λ s, {[temp_dir]} ∪ s) w)
  | inr msg => Raises (OtherException msg) w
  end.

Definition extract_zip (a : Archive) (zip_path extract_dir : string) : M unit := λ w,
  let w' := set_fs (λ s, list_to_set (Py.join extract_dir <$> members a) ∪ s) w in
  match failure a with
  | None => Returns tt w'
  | Some e => Raises e w'
  end.

Definition is_tif (file : string) : bool := Py.endswith ".tif" (Py.lower file).

Definition find_tif_files (a : Archive) (path : string) : M (list string) := λ w,
  let tif_files :=
    if bool_decide (path ∈ fs w) then
      List.filter (λ p, bool_decide (p ∈ fs w))
        (Py.join path <$> List.filter (λ m, is_tif (Py.basename m)) (members a))
    else [] in
  Returns tif_files w.

(** The name the loop of [move_tif_files] tries at [counter]. *)
Definition candidate (dir filename : string) (counter : nat) : string :=
  let '(name, ext) := Py.splitext filename in
  Py.join dir (name +:+ "_" +:+ pretty counter +:+ ext).

(** The [while os.path.exists(dest_path)] loop of [move_tif_files]; every
    round uses one unit of [fuel]. *)
Fixpoint rename_loop (fuel : nat) (exists_ : gset string) (dir filename : string)
    (dest_path : string) (counter : nat) : option string :=
  match fuel with
  | O => None
  | S fuel' =>
      if bool_decide (dest_path ∈ exists_) then
        let '(name, ext) := Py.splitext filename in
        let dest_path := Py.join dir (name +:+ "_" +:+ pretty counter +:+ ext) in
        rename_loop fuel' exists_ dir filename dest_path (S counter)
      else Some dest_path
  end.

(** [shutil.move(src, dst)] for a destination that does not exist: a
    rename, or [FileNotFoundError] when the source is not there. *)
Definition shutil_move (src dst : string) : M unit := λ w,
  if bool_decide (src ∈ fs w) then
    Returns tt (log_move src dst (set_fs (λ s, {[dst]} ∪ (s ∖ {[src]})) w))
  else Raises (OtherException ("[Errno 2] No such file or directory: '" +:+ src +:+ "'")) w.

Definition append_unzip_file (p : string) (u : UnzipWorker) : UnzipWorker :=
  mkUnzipWorker (zip_dir_path u) (unzip_dir_path u) (zip_files u) (total_files u)
    (current_index u) (unzip_files u ++ [p]).

(** The body of the [for] loop of [move_tif_files]. Two rounds more than
    there are paths are enough for the inner loop ([rename_loop_total]). *)
Definition move_tif_file (tif_file : string) : M unit := λ w,
  let filename := Py.basename tif_file in
  let dest_path := Py.join (unzip_dir_path (self w)) filename in
  let w := set_self (append_unzip_file dest_path) w in
  match rename_loop (2 + size (fs w)) (fs w) (unzip_dir_path (self w)) filename dest_path 1 with
  | None => Diverges
  | Some dest_path => shutil_move tif_file dest_path w
  end.

Fixpoint move_tif_files (tif_files : list string) : M unit :=
  match tif_files with
  | [] => ret tt
  | tif_file :: rest => move_tif_file tif_file ;; move_tif_files rest
  end.

Definition under (dir p : string) : bool :=
  bool_decide (p = dir) || Py.startswith (dir +:+ "/") p.

Definition cleanup_temp_dir (a : Archive) (temp_dir : string) : M unit :=
  act (λ w, if rmtree_works a
            then set_fs (filter (λ p, ¬ Is_true (under temp_dir p))) w
            else w).

Definition emit_tif_warning (zip_path : string) : M unit :=
  act (emit (error ("Aviso: Nenhum arquivo TIF encontrado em '" +:+ Py.basename zip_path +:+ "'"))).

Definition emit_corrupted_error (zip_path : string) : M unit :=
  act (emit (error ("Erro: O arquivo '" +:+ Py.basename zip_path +:+ "' está corrompido."))).

Definition emit_generic_error (zip_path : string) (exception : string) : M unit :=
  act (emit (error ("Erro inesperado ao descompactar '" +:+ Py.basename zip_path +:+ "': " +:+ exception))).

Definition incr_current_index (u : UnzipWorker) : UnzipWorker :=
  mkUnzipWorker (zip_dir_path u) (unzip_dir_path u) (zip_files u) (total_files u)
    (S (current_index u)) (unzip_files u).

(** [update_progress] ends with the call [self.unzip_next()]; the method
    it calls is the argument [unzip_next]. *)
Definition update_progress (unzip_next : M unit) : M unit := λ w,
  let w := set_self incr_current_index w in
  let w := emit (progress (current_index (self w)) (total_files (self w))) w in
  unzip_next w.

(** The [try] block of [unzip_next]. *)
Definition extract_one (a : Archive) (zip_file_path : string) : M unit :=
  temp_dir ← create_temp_dir a;
  extract_zip a zip_file_path temp_dir;;
  tif_files ← find_tif_files a temp_dir;
  match tif_files with
  | [] => emit_tif_warning zip_file_path
  | _ => move_tif_files tif_files
  end;;
  cleanup_temp_dir a temp_dir.

(** The interpreter bounds the depth of the call stack
    ([sys.getrecursionlimit()], 1000 unless it is changed): a call that
    would go beyond it raises [RecursionError], an [Exception] whose text
    is this one. *)
Definition RecursionError : PyExc := OtherException "maximum recursion depth exceeded".

(** The nested calls of [unzip_next] a stack with [frames] free frames has
    room for, when [start] is called. [start] is the first frame, the
    [k]-th call of [unzip_next] the frame [2k] and the [update_progress] it
    calls the frame [2k+1]: with [2d+1] frames [d] calls of [unzip_next]
    nest, each with its [update_progress], and the call after them raises.
    (With [2d+2] frames that call is still made, but no method it calls
    is: for more than [d] archives it leaves the worker as it found it and
    the run goes as with room [d].) *)
Definition nesting_room (frames : nat) : nat := (frames - 1) / 2.

(** [unzip_next]. [env i] is what the world decides about the archive at
    index [i]. [unzip_next] and [update_progress] call each other and
    neither returns before the other: the calls nest, one level for every
    archive. [depth] is the number of nested calls of [unzip_next] the
    recursion limit still leaves room for; with none left the call raises
    [RecursionError], from inside the [update_progress] of the archive
    before, whose [finally] clause it leaves. Only the frames of this
    recursion are counted: the calls made inside the [try] statement are
    taken to find the room they need, and an exception one of them raises,
    a [RecursionError] too, is one of the exceptions of [Archive]. *)
Fixpoint unzip_next (env : nat → Archive) (depth : nat) : M unit :=
  match depth with
  | O => raise RecursionError
  | S depth' => λ w,
      if (total_files (self w) <=? current_index (self w))%nat then
        act (emit (finished (unzip_files (self w)))) w
      else
        match zip_files (self w) !! current_index (self w) with
        | None => Raises IndexError w
        | Some zip_file_path =>
            try_finally
              (try_except
                 (extract_one (env (current_index (self w))) zip_file_path)
                 (emit_corrupted_error zip_file_path)
                 (emit_generic_error zip_file_path))
              (update_progress (unzip_next env depth')) w
        end
  end.

(** [start], on a stack with room for [depth] nested calls of
    [unzip_next]. *)
Definition start (env : nat → Archive) (depth : nat) : M unit := λ w,
  let w := emit (started ("Descompactando " +:+ pretty (total_files (self w)) +:+ " arquivos ZIP...")) w in
  unzip_next env depth w.

(** A fresh worker in a directory holding [existing], nothing emitted,
    nothing queued. *)
Definition initial (dir : string) (zips : list string) (existing : gset string) : World :=
  mkWorld (init dir zips) existing [] [] 0.

(** Sample archives: one with two payload files of the same name in two
    folders and a text file, one with a single payload file, one without
    any, and a file that is not an archive. *)
Definition same_name_twice : Archive :=
  mkArchive (inl "tmp0") ["a/x.tif"; "b/x.tif"; "readme.txt"] None true.
Definition one_tif : Archive :=
  mkArchive (inl "tmp1") ["x.tif"] None true.
Definition no_tif : Archive :=
  mkArchive (inl "tmp2") ["readme.txt"] None true.
Definition not_a_zip : Archive :=
  mkArchive (inl "tmp3") [] (Some BadZipFile) true.

(** A world in which [x.tif] and [x_1.tif] are taken and a third [x.tif]
    waits in a temporary directory. *)
Definition crowded : World :=
  initial "/d" [] {["/d/x.tif"; "/d/x_1.tif"; "/d/tmp0/b/x.tif"]}.

(** The part of [unzip_next] that deals with the archive at the current
    index: the [try] statement with its handlers, then the increment and
    the progress signal of [update_progress], up to the next call of
    [unzip_next]. *)
Definition archive_step (env : nat → Archive) : M unit := λ w,
  match zip_files (self w) !! current_index (self w) with
  | None => Raises IndexError w
  | Some zip_file_path =>
      try_finally
        (try_except
           (extract_one (env (current_index (self w))) zip_file_path)
           (emit_corrupted_error zip_file_path)
           (emit_generic_error zip_file_path))
        (update_progress (ret tt)) w
  end.

(** The next [k] archives of a run. *)
Fixpoint steps (env : nat → Archive) (k : nat) : M unit :=
  match k with
  | O => ret tt
  | S k' => archive_step env ;; steps env k'
  end.

Definition progress_of (s : Signal) : option (nat * nat) :=
  match s with progress i n => Some (i, n) | _ => None end.

Definition is_finished (s : Signal) : bool :=
  match s with finished _ => true | _ => false end.

(** The payload files of an archive: the members [find_tif_files] keeps. *)
Definition tif_count (a : Archive) : nat :=
  length (List.filter (λ m, is_tif (Py.basename m)) (members a)).

(** The payload files of the [k] archives from index [i] on. *)
Definition tif_total (env : nat → Archive) (i k : nat) : nat :=
  sum_list (tif_count ∘ env <$> seq i k).

(** How the world changes while one archive is handled, up to the
    increment of the index: the configuration and the index stay, nothing
    is queued, at most [n] paths are appended to [unzip_files], and only
    error signals are emitted. *)
Definition grows (n : nat) (w w' : World) : Prop :=
  zip_dir_path (self w') = zip_dir_path (self w) ∧
  unzip_dir_path (self w') = unzip_dir_path (self w) ∧
  zip_files (self w') = zip_files (self w) ∧
  total_files (self w') = total_files (self w) ∧
  current_index (self w') = current_index (self w) ∧
  deferred w' = deferred w ∧
  (∃ new, unzip_files (self w') = unzip_files (self w) ++ new ∧ (length new ≤ n)%nat) ∧
  (∃ msgs, signals w' = signals w ++ (error <$> msgs)).

(** A method that comes back, returning a value in [Q] or raising, and
    changes the world only as [grows n] allows. *)
Definition safe {A} (n : nat) (Q : A → Prop) (m : M A) : Prop :=
  ∀ w, match m w with
       | Returns a w' => grows n w w' ∧ Q a
       | Raises _ w' => grows n w w'
       | Diverges => False
       end.

(** The world after one archive: as [grows n], but with the index advanced
    by one and the progress signal emitted last. *)
Definition advanced (n : nat) (w w' : World) : Prop :=
  zip_dir_path (self w') = zip_dir_path (self w) ∧
  unzip_dir_path (self w') = unzip_dir_path (self w) ∧
  zip_files (self w') = zip_files (self w) ∧
  total_files (self w') = total_files (self w) ∧
  current_index (self w') = S (current_index (self w)) ∧
  deferred w' = deferred w ∧
  (∃ new, unzip_files (self w') = unzip_files (self w) ++ new ∧ (length new ≤ n)%nat) ∧
  (∃ msgs, signals w' = signals w ++ (error <$> msgs) ++
     [progress (S (current_index (self w))) (total_files (self w))]).

(** The world after [k] archives. *)
Definition ran (env : nat → Archive) (k : nat) (w w' : World) : Prop :=
  zip_dir_path (self w') = zip_dir_path (self w) ∧
  unzip_dir_path (self w') = unzip_dir_path (self w) ∧
  zip_files (self w') = zip_files (self w) ∧
  total_files (self w') = total_files (self w) ∧
  current_index (self w') = (current_index (self w) + k)%nat ∧
  deferred w' = deferred w ∧
  (∃ new, unzip_files (self w') = unzip_files (self w) ++ new ∧
     (length new ≤ tif_total env (current_index (self w)) k)%nat) ∧
  omap progress_of (signals w') = omap progress_of (signals w) ++
     ((λ j, (j, total_files (self w))) <$> seq (S (current_index (self w))) k) ∧
  List.filter is_finished (signals w') = List.filter is_finished (signals w).

(** From [w] to [w'] the file [q] is left alone: it is still there, and
    no [shutil.move] made in between takes it away or puts another file in
    its place. *)
Definition untouched (q : string) (w w' : World) : Prop :=
  q ∈ fs w' ∧
  ∃ new, moves w' = moves w ++ new ∧ (q ∉ new.*1) ∧ (q ∉ new.*2).


End Unzip.

(** ** The download worker ([download_raster_worker.py]) *)

Module Download.

(** [QNetworkReply.NetworkError], as far as the worker looks at it. *)
Inductive NetworkError :=
| NoError
| OperationCanceledError
| OtherNetworkError (code : nat).

Global Instance NetworkError_eq_dec : EqDecision NetworkError.
Proof. solve_decision. Defined.

(** The six [pyqtSignal]s of [DownloadWorker]. *)
Inductive Signal :=
| started (msg : string)
| file_started (name : string) (index : nat)
| download_progress (received total : Z)
| file_finished
| finished (dest : string) (paths : list string)
| error (msg : string).

(** Exceptions that can escape a slot. *)
Inductive PyExc :=
| AttributeError
| IndexError
| UnboundLocalError.

(** A reply object of the network access manager. *)
Record QNetworkReply := mkReply {
  reply_error : NetworkError;
  errorString : string;
  isRunning : bool
}.

(** [reply] is [None] for Python's [None] and otherwise the position of the
    reply object in the store of the objects the manager has created. *)
Record DownloadWorker := mkDownloadWorker {
  urls : list string;
  dest_path : string;
  current_index : nat;
  reply : option nat;
  total_urls : nat;
  zip_files_downloaded : list string;
  _is_canceled : bool
}.

(** The state a run acts on: the worker, the reply objects, the signals
    emitted so far (oldest first), the number of
    [QTimer.singleShot(0, self.download_next)] calls waiting for their turn
    of the event loop, and the exceptions that escaped a slot. *)
Record World := mkWorld {
  self : DownloadWorker;
  replies : list QNetworkReply;
  signals : list Signal;
  deferred : nat;
  uncaught : list PyExc
}.

Definition set_self (f : DownloadWorker → DownloadWorker) (w : World) : World :=
  mkWorld (f (self w)) (replies w) (signals w) (deferred w) (uncaught w).

Definition set_replies (f : list QNetworkReply → list QNetworkReply) (w : World) : World :=
  mkWorld (self w) (f (replies w)) (signals w) (deferred w) (uncaught w).

Definition emit (s : Signal) (w : World) : World :=
  mkWorld (self w) (replies w) (signals w ++ [s]) (deferred w) (uncaught w).

Definition set_deferred (f : nat → nat) (w : World) : World :=
  mkWorld (self w) (replies w) (signals w) (f (deferred w)) (uncaught w).

(** An exception leaves the slot; Qt's event loop goes on. *)
Definition escapes (e : PyExc) (w : World) : World :=
  mkWorld (self w) (replies w) (signals w) (deferred w) (uncaught w ++ [e]).

Definition set_reply (r : option nat) (d : DownloadWorker) : DownloadWorker :=
  mkDownloadWorker (urls d) (dest_path d) (current_index d) r (total_urls d)
    (zip_files_downloaded d) (_is_canceled d).

Definition incr_current_index (d : DownloadWorker) : DownloadWorker :=
  mkDownloadWorker (urls d) (dest_path d) (S (current_index d)) (reply d) (total_urls d)
    (zip_files_downloaded d) (_is_canceled d).

Definition append_downloaded (p : string) (d : DownloadWorker) : DownloadWorker :=
  mkDownloadWorker (urls d) (dest_path d) (current_index d) (reply d) (total_urls d)
    (zip_files_downloaded d ++ [p]) (_is_canceled d).

Definition set_canceled (d : DownloadWorker) : DownloadWorker :=
  mkDownloadWorker (urls d) (dest_path d) (current_index d) (reply d) (total_urls d)
    (zip_files_downloaded d) true.

(** [__init__] *)
Definition init (urls : list string) (dest_path : string) : DownloadWorker :=
  mkDownloadWorker urls dest_path 0 None (length urls) [] false.

Definition initial (urls : list string) (dest_path : string) : World :=
  mkWorld (init urls dest_path) [] [] 0 [].

Definition emit_finished (w : World) : World :=
  emit (finished (dest_path (self w)) (zip_files_downloaded (self w))) w.

Definition start (w : World) : World :=
  let w := emit (started ("Iniciando download de " +:+ pretty (total_urls (self w)) +:+ " arquivos...")) w in
  set_deferred S w.

Definition cleanup_and_continue (w : World) : World :=
  let w := match reply (self w) with
           | Some _ => set_self (set_reply None) w
           | None => w
           end in
  let w := emit file_finished w in
  let w := set_self incr_current_index w in
  set_deferred S w.

Section Slots.

(** [QUrl(url).path()] *)
Variable qurl_path : string → string.

Definition download_next (w : World) : World :=
  if _is_canceled (self w) then emit_finished w
  else if (total_urls (self w) <=? current_index (self w))%nat then emit_finished w
  else if (total_urls (self w) <=? current_index (self w))%nat then
    emit_finished (emit (started "Todos os downloads foram concluídos.") w)
  else
    match urls (self w) !! current_index (self w) with
    | None => escapes IndexError w
    | Some url =>
        let file_name := Py.basename (qurl_path url) in
        let w := emit (file_started file_name (current_index (self w))) w in
        let r := length (replies w) in
        let w := set_replies (λ h, h ++ [mkReply NoError "" true]) w in
        set_self (set_reply (Some r)) w
    end.

(** [handle_finished]; [save] is what writing the file does: [None] when
    the [try] block runs through, [Some e] when it raises an exception
    with [str(e) = e] after [zip_name] is bound. *)
Definition handle_finished (save : option string) (w : World) : World :=
  match reply (self w) ≫= λ r, replies w !! r with
  | None => escapes AttributeError w
  | Some q =>
      if bool_decide (reply_error q ≠ NoError) then cleanup_and_continue w
      else
        match urls (self w) !! current_index (self w) with
        | None => escapes UnboundLocalError w
        | Some url =>
            let zip_name := Py.basename url in
            let zip_path := Py.join (dest_path (self w)) zip_name in
            let w :=
              match save with
              | None =>
                  let w := set_self (append_downloaded zip_path) w in
                  emit (started ("Arquivo salvo com sucesso: " +:+ zip_name)) w
              | Some e =>
                  emit (error ("Erro ao salvar o arquivo " +:+ zip_name +:+ ": " +:+ e)) w
              end in
            cleanup_and_continue w
        end
  end.

Definition handle_error (code : NetworkError) (w : World) : World :=
  if _is_canceled (self w) then emit_finished w
  else
    match urls (self w) !! current_index (self w) with
    | None => escapes IndexError w
    | Some url =>
        match reply (self w) ≫= λ r, replies w !! r with
        | None => escapes AttributeError w
        | Some q =>
            let err_msg := "Erro ao baixar " +:+ url +:+ " (" +:+ errorString q +:+ ")" in
            cleanup_and_continue (emit (error err_msg) w)
        end
    end.

(** [QNetworkReply.abort()] on the reply at position [r]: a reply that is
    still running gets the error [OperationCanceledError], stops, and emits
    [errorOccurred] and then [finished], which run the connected slots before
    [abort] returns; on a reply that has ended it does nothing. *)
Definition abort (r : nat) (w : World) : World :=
  match replies w !! r with
  | Some q =>
      if isRunning q then
        let w := set_replies (λ h, <[r := mkReply OperationCanceledError "Operation canceled" false]> h) w in
        let w := handle_error OperationCanceledError w in
        handle_finished None w
      else w
  | None => w
  end.

Definition cancel (w : World) : World :=
  let w := set_self set_canceled w in
  match reply (self w) with
  | Some r => abort r w
  | None => w
  end.

(** [download_progress] is a [pyqtSignal(int, int)]: its arguments are C
    [int]s, and a Python integer is cut down to 32 bits, two's complement,
    when the signal is emitted. *)
Definition int32 (z : Z) : Z := (z + 2 ^ 31) `mod` 2 ^ 32 - 2 ^ 31.

Definition handle_download_progress (bytes_received bytes_total : Z) (w : World) : World :=
  if _is_canceled (self w) then
    match reply (self w) with
    | Some r => abort r w
    | None => w
    end
  else if bytes_total >? 0 then
    emit (download_progress (int32 bytes_received) (int32 bytes_total)) w
  else w.

(** What can happen next, seen from the worker: the event loop gives a
    waiting single-shot timer its turn; the running reply at position [r]
    reports progress, reports SSL errors, ends without an error (and the
    file is then saved or not), or fails, in which case Qt emits
    [errorOccurred] and then [finished]; the caller calls [cancel()]. *)
Inductive Event :=
| Turn
| Progress (r : nat) (bytes_received bytes_total : Z)
| SslErrors (r : nat) (errors : string)
| Completes (r : nat) (save : option string)
| Fails (r : nat) (code : nat) (errorString : string)
| Cancel.

Definition running (r : nat) (w : World) : bool :=
  match replies w !! r with
  | Some q => isRunning q
  | None => false
  end.

Definition stop (r : nat) (e : NetworkError) (s : string) (w : World) : World :=
  set_replies (λ h, <[r := mkReply e s false]> h) w.

Definition step (w : World) (ev : Event) : World :=
  match ev with
  | Turn =>
      match deferred w with
      | O => w
      | S n => download_next (set_deferred (λ _, n) w)
      end
  | Progress r a b =>
      if running r w then handle_download_progress a b w else w
  | SslErrors r errors =>
      if running r w then emit (error ("Erro SSL: " +:+ errors)) w else w
  | Completes r save =>
      if running r w then handle_finished save (stop r NoError "" w) else w
  | Fails r code s =>
      if running r w then
        let w := stop r (OtherNetworkError code) s w in
        let w := handle_error (OtherNetworkError code) w in
        handle_finished None w
      else w
  | Cancel => cancel w
  end.

(** A run: [start()], then the events in order. *)
Definition run (script : list Event) (w : World) : World := foldl step w script.

Definition run_worker (urls : list string) (dest : string) (script : list Event) : World :=
  run script (start (initial urls dest)).

End Slots.

Definition is_finished (s : Signal) : bool :=
  match s with finished _ _ => true | _ => false end.

Definition is_file_started_at (i : nat) (s : Signal) : bool :=
  match s with file_started _ j => bool_decide (i = j) | _ => false end.

(** The messages of a transport error and of a write error. *)
Definition transport_error_msg (url errorString : string) : string :=
  "Erro ao baixar " +:+ url +:+ " (" +:+ errorString +:+ ")".
Definition write_error_msg (zip_name e : string) : string :=
  "Erro ao salvar o arquivo " +:+ zip_name +:+ ": " +:+ e.

Definition item_error (s : Signal) : Prop :=
  (∃ url es, s = error (transport_error_msg url es)) ∨
  (∃ zip_name e, s = error (write_error_msg zip_name e)).

(** A transport error or a write error has been reported. *)
Definition errors_seen (w : World) : Prop := ∃ s, s ∈ signals w ∧ item_error s.

(** Every [finished] signal emitted so far carries at most as many paths
    as there are locators, and fewer only after an error was reported. *)
Definition finished_ok (w : World) : Prop :=
  ∀ d l, finished d l ∈ signals w →
    (length l ≤ total_urls (self w))%nat ∧
    ((length l < total_urls (self w))%nat → errors_seen w).

(** What holds of the worker between two events of a run in which
    [cancel()] is not called. *)
Definition counts_ok (w : World) : Prop :=
  _is_canceled (self w) = false ∧
  total_urls (self w) = length (urls (self w)) ∧
  (current_index (self w) ≤ total_urls (self w))%nat ∧
  (is_Some (reply (self w)) → (current_index (self w) < total_urls (self w))%nat) ∧
  (length (zip_files_downloaded (self w)) ≤ current_index (self w))%nat ∧
  (length (zip_files_downloaded (self w)) = current_index (self w) ∨ errors_seen w) ∧
  finished_ok w.

(** The reply the worker holds has no error. *)
Definition reply_ok (w : World) : Prop :=
  ∀ r q, reply (self w) = Some r → replies w !! r = Some q → reply_error q = NoError.

(** What holds when [cleanup_and_continue] is called for the current item:
    its path has been appended or an error has been reported. *)
Definition closing (w : World) : Prop :=
  _is_canceled (self w) = false ∧
  total_urls (self w) = length (urls (self w)) ∧
  (current_index (self w) < total_urls (self w))%nat ∧
  (length (zip_files_downloaded (self w)) ≤ S (current_index (self w)))%nat ∧
  (length (zip_files_downloaded (self w)) = S (current_index (self w)) ∨ errors_seen w) ∧
  finished_ok w.

(** What holds of the worker in every run, cancelled or not: the list of
    locators has [N] entries, there are at most as many completed paths as
    the index says and at most [N], and every [finished] signal emitted so
    far carries at most [N] paths. *)
Definition paths_bounded (N : nat) (w : World) : Prop :=
  length (urls (self w)) = N ∧
  (length (zip_files_downloaded (self w)) ≤ current_index (self w))%nat ∧
  (length (zip_files_downloaded (self w)) ≤ N)%nat ∧
  ∀ d l, finished d l ∈ signals w → (length l ≤ N)%nat.

Definition is_cancel (ev : Event) : bool :=
  match ev with Cancel => true | _ => false end.

Global Instance Signal_eq_dec : EqDecision Signal.
Proof. solve_decision. Defined.

(** How the transfer of one item ends when [cancel()] does not interfere:
    the file is saved, saving it fails, or the transfer fails. *)
Inductive Ending :=
| Saved
| NotSaved (e : string)
| TransferFailed (code : nat) (errorString : string).

(** One item of a run: the progress reports of its transfer and its end. *)
Record Item := mkItem {
  reports : list (Z * Z);
  ending : Ending
}.

Definition ending_event (r : nat) (e : Ending) : Event :=
  match e with
  | Saved => Completes r None
  | NotSaved e => Completes r (Some e)
  | TransferFailed code s => Fails r code s
  end.

(** The events of one item whose reply is the [r]-th the manager creates:
    the turn of the event loop that starts it, its progress reports, its end. *)
Definition item_events (r : nat) (it : Item) : list Event :=
  Turn :: ((λ ab, Progress r ab.1 ab.2) <$> reports it) ++ [ending_event r (ending it)].

Fixpoint items_events (r : nat) (items : list Item) : list Event :=
  match items with
  | [] => []
  | it :: rest => item_events r it ++ items_events (S r) rest
  end.

(** The path recorded for a locator, if its item ends with the file saved. *)
Definition saved_path (dest : string) (url : string) (it : Item) : option string :=
  match ending it with
  | Saved => Some (Py.join dest (Py.basename url))
  | _ => None
  end.

(** The paths of the saved ones among the first items, in order. *)
Definition saved_paths (dest : string) (urls : list string) (items : list Item) : list string :=
  omap (λ p, saved_path dest p.1 p.2) (zip urls items).

(** The worker between two items: no reply held, one call of
    [download_next] waiting. *)
Definition idle (urls : list string) (dest : string) (k : nat) (paths : list string)
    (R : list QNetworkReply) (sigs : list Signal) (U : list PyExc) : World :=
  mkWorld (mkDownloadWorker urls dest k None (length urls) paths false) R sigs 1 U.

(** The worker holding the reply [q] of item [k], the last one created. *)
Definition holding (q : QNetworkReply) (urls : list string) (dest : string) (k : nat)
    (paths : list string) (R : list QNetworkReply) (sigs : list Signal)
    (U : list PyExc) : World :=
  mkWorld (mkDownloadWorker urls dest k (Some (length R)) (length urls) paths false)
    (R ++ [q]) sigs 0 U.

(** The worker during the transfer of item [k]: the reply is running. *)
Definition in_flight : list string → string → nat → list string →
    list QNetworkReply → list Signal → list PyExc → World :=
  holding (mkReply NoError "" true).

(** Signals that neither end the run nor start an item. *)
Definition quiet (s : Signal) : Prop :=
  is_finished s = false ∧ ∀ name j, s ≠ file_started name j.

(** The worker after the items [items], none of them interrupted. *)
Definition between (urls : list string) (dest : string) (items : list Item) (w : World) : Prop :=
  ∃ R sigs U,
    w = idle urls dest (length items) (saved_paths dest urls items) R sigs U ∧
    length R = length items ∧
    List.filter is_finished sigs = [] ∧
    ∀ name j, file_started name j ∈ sigs → (j < length items)%nat.

End Download.

(** ** The tile selection ([analyze_polygon_against_grid]) *)

Module Spatial.

Inductive Relation := Within | Intersects.

Record Row := mkRow {
  polygon_index : Z;
  tile_code : string;
  relation : Relation
}.

(** A call returns a value or raises [Exception(msg)]. *)
Inductive Res (A : Type) :=
| Ok (a : A)
| Raised (msg : string).
Arguments Ok {A} a.
Arguments Raised {A} msg.

(** [sorted(set(codes))] *)
Definition sorted_set (codes : list string) : list string :=
  merge_sort String.le (elements (list_to_set codes : gset string)).

Section Analyze.

(** The geometry engine of QGIS: geometries, reference systems, the
    emptiness test, the two predicates [a.within(b)] and [a.intersects(b)],
    and the reprojection of a geometry from one system to another. *)
Context {Geometry CRS : Type} `{EqDecision CRS}.
Variable isEmpty : Geometry → bool.
Variable within : Geometry → Geometry → bool.
Variable intersects : Geometry → Geometry → bool.
Variable reproject : CRS → CRS → Geometry → Geometry.

(** A feature: its id, its geometry ([None] for a null geometry) and its
    attributes by field name. *)
Record Feature := mkFeature {
  id : Z;
  geometry : option Geometry;
  attributes : gmap string string
}.

Record QgsVectorLayer := mkLayer {
  isValid : bool;
  crs : CRS;
  getFeatures : list Feature
}.

(** [not geom or geom.isEmpty()] *)
Definition blank (geom : option Geometry) : bool :=
  match geom with
  | None => true
  | Some g => isEmpty g
  end.

(** The inner loop, over the features of the grid. *)
Fixpoint scan_grid (poly_id : Z) (poly_geom : Geometry) (grid : list Feature)
    (results : list Row) : Res (list Row) :=
  match grid with
  | [] => Ok results
  | grid_feat :: rest =>
      match geometry grid_feat with
      | None => scan_grid poly_id poly_geom rest results
      | Some grid_geom =>
          if isEmpty grid_geom then scan_grid poly_id poly_geom rest results
          else
            match attributes grid_feat !! "tile_code" with
            | None => Raised "Campo 'tile_code' não encontrado na camada da grade"
            | Some code =>
                let results :=
                  if within poly_geom grid_geom then
                    results ++ [mkRow poly_id code Within]
                  else if intersects poly_geom grid_geom then
                    results ++ [mkRow poly_id code Intersects]
                  else results in
                scan_grid poly_id poly_geom rest results
            end
      end
  end.

(** The outer loop, over the features of the polygon layer; [transform] is
    [None] when the two layers share their reference system. *)
Fixpoint scan_polygons (transform : option (Geometry → Geometry))
    (polys grid : list Feature) (results : list Row) : Res (list Row) :=
  match polys with
  | [] => Ok results
  | poly_feat :: rest =>
      match geometry poly_feat with
      | None => scan_polygons transform rest grid results
      | Some poly_geom =>
          if isEmpty poly_geom then scan_polygons transform rest grid results
          else
            let poly_geom :=
              match transform with
              | Some t => t poly_geom
              | None => poly_geom
              end in
            match scan_grid (id poly_feat) poly_geom grid results with
            | Ok results => scan_polygons transform rest grid results
            | Raised msg => Raised msg
            end
      end
  end.

(** [analyze_polygon_against_grid]; [open_layer path] is the layer
    [QgsVectorLayer(path, _, "ogr")] loads. *)
Definition analyze_polygon_against_grid (open_layer : string → QgsVectorLayer)
    (polygon_path grid_path : string) : Res (list string) :=
  let poly_layer := open_layer polygon_path in
  let grid_layer := open_layer grid_path in
  if negb (isValid poly_layer) then
    Raised ("Camada de polígono inválida: " +:+ polygon_path)
  else if negb (isValid grid_layer) then
    Raised ("Camada de grade inválida: " +:+ grid_path)
  else
    let transform :=
      if bool_decide (crs poly_layer ≠ crs grid_layer)
      then Some (reproject (crs poly_layer) (crs grid_layer))
      else None in
    match scan_polygons transform (getFeatures poly_layer) (getFeatures grid_layer) [] with
    | Ok results => Ok (sorted_set (tile_code <$> results))
    | Raised msg => Raised msg
    end.

(** The geometry of a polygon feature as the loops see it: not null, not
    empty, reprojected when the layers differ in reference system. *)
Definition region_part (poly_layer grid_layer : QgsVectorLayer) (g : Geometry) : Prop :=
  ∃ f g0, f ∈ getFeatures poly_layer ∧ geometry f = Some g0 ∧ isEmpty g0 = false ∧
    g = (if bool_decide (crs poly_layer ≠ crs grid_layer)
         then reproject (crs poly_layer) (crs grid_layer) g0 else g0).

(** A grid cell with tile code [code] and a geometry that is neither null
    nor empty. *)
Definition cell (grid_layer : QgsVectorLayer) (code : string) (g : Geometry) : Prop :=
  ∃ f, f ∈ getFeatures grid_layer ∧ geometry f = Some g ∧ isEmpty g = false ∧
    attributes f !! "tile_code" = Some code.

(** Every grid feature the inner loop looks at has the field [tile_code]. *)
Definition has_tile_codes (grid_layer : QgsVectorLayer) : Prop :=
  ∀ f g, f ∈ getFeatures grid_layer → geometry f = Some g → isEmpty g = false →
    is_Some (attributes f !! "tile_code").

(** The tile codes of the cells that are contained in the polygon region
    or intersect it. *)
Definition selected (poly_layer grid_layer : QgsVectorLayer) (code : string) : Prop :=
  ∃ g p, cell grid_layer code g ∧ region_part poly_layer grid_layer p ∧
    (within g p = true ∨ intersects g p = true).

(** The grid feature [f] carries the code [c] and the loop records it for
    the polygon geometry [p]. *)
Definition hit (p : Geometry) (f : Feature) (c : string) : Prop :=
  ∃ g, geometry f = Some g ∧ isEmpty g = false ∧
    attributes f !! "tile_code" = Some c ∧
    (within p g = true ∨ intersects p g = true).

End Analyze.

(** A small geometry engine to run the function on: a geometry is a finite
    set of unit cells of the number line, there is one reference system. *)
Definition toy_isEmpty (g : list nat) : bool := bool_decide (g = []).
Definition toy_intersects (a b : list nat) : bool :=
  bool_decide (Exists (λ c, c ∈ b) a).
Definition toy_within (a b : list nat) : bool :=
  bool_decide (a ≠ [] ∧ Forall (λ c, c ∈ b) a).
Definition toy_reproject (_ _ : unit) (g : list nat) : list nat := g.

Definition tile (i : Z) (g : list nat) (code : string) : @Feature (list nat) :=
  mkFeature i (Some g) {["tile_code" := code]}.
Definition shape (i : Z) (g : list nat) : @Feature (list nat) :=
  mkFeature i (Some g) ∅.

(** The path ["poly"] opens a layer with the features [polys], any other
    path one with the features [grid]; both are valid. *)
Definition toy_layers (polys grid : list (@Feature (list nat))) (path : string) :
    @QgsVectorLayer (list nat) unit :=
  if bool_decide (path = "poly") then mkLayer true tt polys else mkLayer true tt grid.

Definition toy_analyze (polys grid : list (@Feature (list nat))) : Res (list string) :=
  analyze_polygon_against_grid toy_isEmpty toy_within toy_intersects toy_reproject
    (toy_layers polys grid) "poly" "grid".

End Spatial.

(** ** Runs of the download worker, seen from outside *)

Module DownloadTrace.
Import Download.

(** [w'] is a state the worker can be in later than [w]: the
    configuration is the same, the index has not gone back, the completed
    paths, the signals and the escaped exceptions have only been added to,
    no reply object has disappeared, and a cancellation has not been taken
    back. *)
Definition later (w w' : World) : Prop :=
  urls (self w') = urls (self w) ∧
  dest_path (self w') = dest_path (self w) ∧
  total_urls (self w') = total_urls (self w) ∧
  (current_index (self w) ≤ current_index (self w'))%nat ∧
  zip_files_downloaded (self w) `prefix_of` zip_files_downloaded (self w') ∧
  signals w `prefix_of` signals w' ∧
  uncaught w `prefix_of` uncaught w' ∧
  (length (replies w) ≤ length (replies w'))%nat ∧
  (_is_canceled (self w) = true → _is_canceled (self w') = true).

(** Signals that belong to a transfer: the start of an item and its
    progress. *)
Definition of_transfer (s : Signal) : bool :=
  match s with
  | file_started _ _ | download_progress _ _ => true
  | _ => false
  end.

(** A progress signal that comes from a report of [script] with a total
    above zero, whose two numbers it carries cut down to 32 bits. *)
Definition reported (script : list Event) (s : Signal) : Prop :=
  match s with
  | download_progress received total =>
      ∃ r a b, Progress r a b ∈ script ∧ 0 < b ∧ received = int32 a ∧ total = int32 b
  | _ => True
  end.

(** From [w] to [w'] the worker starts no transfer: the flag and the
    number of reply objects stay, and the signals emitted are neither the
    start of an item nor progress. *)
Definition calm (w w' : World) : Prop :=
  _is_canceled (self w') = _is_canceled (self w) ∧
  length (replies w') = length (replies w) ∧
  ∃ extra, signals w' = signals w ++ extra ∧ Forall (λ s, of_transfer s = false) extra.

(** The signals of an item that is not interrupted. *)
Definition progress_signals (reps : list (Z * Z)) : list Signal :=
  (λ ab, download_progress (int32 ab.1) (int32 ab.2)) <$> List.filter (λ ab, ab.2 >? 0) reps.

Definition ending_signals (url : string) (e : Ending) : list Signal :=
  match e with
  | Saved => [started ("Arquivo salvo com sucesso: " +:+ Py.basename url); file_finished]
  | NotSaved e => [error (write_error_msg (Py.basename url) e); file_finished]
  | TransferFailed _ es => [error (transport_error_msg url es); file_finished]
  end.

Definition item_signals (qurl_path : string → string) (k : nat) (url : string)
    (it : Item) : list Signal :=
  file_started (Py.basename (qurl_path url)) k ::
    progress_signals (reports it) ++ ending_signals url (ending it).

(** The signals of the items [items] for the locators [urls], the first
    of them at index [k]. *)
Fixpoint items_signals (qurl_path : string → string) (k : nat) (urls : list string)
    (items : list Item) : list Signal :=
  match urls, items with
  | url :: urls, it :: items =>
      item_signals qurl_path k url it ++ items_signals qurl_path (S k) urls items
  | _, _ => []
  end.

(** The reply object an item leaves behind. *)
Definition final_reply (e : Ending) : QNetworkReply :=
  match e with
  | TransferFailed code es => mkReply (OtherNetworkError code) es false
  | _ => mkReply NoError "" false
  end.

(** The exceptions that escape while an item ends. *)
Definition ending_uncaught (e : Ending) : list PyExc :=
  match e with
  | TransferFailed _ _ => [AttributeError]
  | _ => []
  end.

Definition transfer_failed (it : Item) : bool :=
  match ending it with TransferFailed _ _ => true | _ => false end.

End DownloadTrace.

(** ** The catalogue of quadrants ([spatial_analysis.py]) *)

Module Catalog.

(** A row of the CSV file and an entry of the catalogue are Python
    dictionaries from field names to strings. *)
Abbreviation Row := (gmap string string).

Inductive PyExc :=
| KeyError (key : string).

Inductive Res (A : Type) :=
| Ok (a : A)
| Raise (e : PyExc).
Arguments Ok {A} a.
Arguments Raise {A} e.

(** A Python [dict] with string keys keeps its keys in the order in which
    they were first set: a list of pairs with pairwise different keys. *)
Abbreviation Dict V := (list (string * V)).

(** [d.get(k)]; [d[k]] raises [KeyError] where this is [None]. *)
Fixpoint dict_get {V} (k : string) (d : Dict V) : option V :=
  match d with
  | [] => None
  | (k', v) :: rest => if bool_decide (k = k') then Some v else dict_get k rest
  end.

(** [d[k] = v]: the value of an old key is replaced where it stands, a new
    key goes to the end. *)
Fixpoint dict_set {V} (k : string) (v : V) (d : Dict V) : Dict V :=
  match d with
  | [] => [(k, v)]
  | (k', v') :: rest =>
      if bool_decide (k = k') then (k, v) :: rest else (k', v') :: dict_set k v rest
  end.

(** [d[k].append(row)] on a [defaultdict(list)] *)
Definition dict_append (k : string) (row : Row) (d : Dict (list Row)) : Dict (list Row) :=
  dict_set k (default [] (dict_get k d) ++ [row]) d.

(** The body of the loop of [create_quadrant_dict]; [if quadrant_code:]
    holds for a code that is there and not empty. *)
Definition add_row (quadrants : Dict (list Row)) (row : Row) : Dict (list Row) :=
  match row !! "code" with
  | Some quadrant_code =>
      if bool_decide (quadrant_code ≠ "") then dict_append quadrant_code row quadrants
      else quadrants
  | None => quadrants
  end.

Definition create_quadrant_dict (data : list Row) : Dict (list Row) :=
  foldl add_row [] data.

(** [item.get('suffix') in suffixes] *)
Definition suffix_in (suffixes : list string) (item : Row) : bool :=
  match item !! "suffix" with
  | Some s => bool_decide (s ∈ suffixes)
  | None => false
  end.

Definition filter_values_by_suffix (suffixes : list string) (data : list Row) : list Row :=
  List.filter (suffix_in suffixes) data.

(** The loop of [filter_quadrant_by_suffix], with the dictionary built so
    far. *)
Fixpoint filter_codes (suffixes : list string) (codes : list string)
    (quadrant_dict : Dict (list Row)) (quadrant_dict_filtered : Dict (list Row)) :
    Res (Dict (list Row)) :=
  match codes with
  | [] => Ok quadrant_dict_filtered
  | code :: rest =>
      match dict_get code quadrant_dict with
      | None => Raise (KeyError code)
      | Some items =>
          filter_codes suffixes rest quadrant_dict
            (dict_set code (filter_values_by_suffix suffixes items) quadrant_dict_filtered)
      end
  end.

Definition filter_quadrant_by_suffix (suffixes : list string)
    (unique_tile_codes : list string) (quadrant_dict : Dict (list Row)) :
    Res (Dict (list Row)) :=
  filter_codes suffixes unique_tile_codes quadrant_dict [].

(** The pairs [(code, item["suffix"])] of the items of one key. *)
Fixpoint item_pairs (code : string) (items : list Row) : Res (list (string * string)) :=
  match items with
  | [] => Ok []
  | item :: rest =>
      match item !! "suffix" with
      | None => Raise (KeyError "suffix")
      | Some s =>
          match item_pairs code rest with
          | Ok ps => Ok ((code, s) :: ps)
          | Raise e => Raise e
          end
      end
  end.

(** The generator of [existing] in [find_missing_from_quadrant_dict]. *)
Fixpoint existing_pairs (quadrant_dict : Dict (list Row)) : Res (list (string * string)) :=
  match quadrant_dict with
  | [] => Ok []
  | (code, items) :: rest =>
      match item_pairs code items with
      | Raise e => Raise e
      | Ok ps =>
          match existing_pairs rest with
          | Ok qs => Ok (ps ++ qs)
          | Raise e => Raise e
          end
      end
  end.

(** [itertools.product(codes, suffixes)] *)
Definition product (codes suffixes : list string) : list (string * string) :=
  c ← codes; s ← suffixes; [(c, s)].

(** [find_missing_from_quadrant_dict]; the list is made from a set, in the
    order in which the set gives its elements, which Python leaves open:
    only the elements of the list are specified below, not their order. *)
Definition find_missing_from_quadrant_dict (quadrant_dict : Dict (list Row))
    (codes suffixes : list string) : Res (list (string * string)) :=
  let expected : gset (string * string) := list_to_set (product codes suffixes) in
  match existing_pairs quadrant_dict with
  | Raise e => Raise e
  | Ok ps =>
      let existing : gset (string * string) := list_to_set ps in
      let missing := expected ∖ existing in
      Ok (elements missing)
  end.

Definition BASE_URL_TOPODATA : string := "http://www.dsr.inpe.br/topodata/data/geotiff/".

(** The inner loop of [load_url_quadrants]. *)
Fixpoint quadrant_urls (quadrant_list : list Row) (url : list string) : Res (list string) :=
  match quadrant_list with
  | [] => Ok url
  | quadrant :: rest =>
      match quadrant !! "file_name" with
      | None => Raise (KeyError "file_name")
      | Some file_name => quadrant_urls rest (url ++ [BASE_URL_TOPODATA +:+ file_name])
      end
  end.

(** The outer loop, over [quadrant_dict.values()]. *)
Fixpoint dict_urls (quadrant_dict : Dict (list Row)) (url : list string) : Res (list string) :=
  match quadrant_dict with
  | [] => Ok url
  | (_, quadrant_list) :: rest =>
      match quadrant_urls quadrant_list url with
      | Ok url => dict_urls rest url
      | Raise e => Raise e
      end
  end.

Definition load_url_quadrants (quadrant_dict : Dict (list Row)) : Res (list string) :=
  dict_urls quadrant_dict [].

(** The rows of [data] whose code is [code]. *)
Definition rows_of (code : string) (data : list Row) : list Row :=
  List.filter (λ row : Row, bool_decide (row !! "code" = Some code)) data.

(** The item has the field [suffix]. *)
Definition has_suffix (item : Row) : Prop := is_Some (item !! "suffix").

(** The dictionary has, under [code], an item with this suffix. *)
Definition stored (d : Dict (list Row)) (code suffix : string) : Prop :=
  ∃ items item, (code, items) ∈ d ∧ item ∈ items ∧ item !! "suffix" = Some suffix.

(** The item has the field [file_name]. *)
Definition has_file_name (item : Row) : Prop := is_Some (item !! "file_name").

(** The items of the dictionary, in the order of [quadrant_dict.values()]. *)
Definition all_items (quadrant_dict : Dict (list Row)) : list Row :=
  concat quadrant_dict.*2.

(** Sample rows. *)
Definition row (code suffix file_name : string) : Row :=
  {[ "code" := code; "suffix" := suffix; "file_name" := file_name ]}.

End Catalog.

(** * [spatial_analysis.py]: the containment test

    [is_polygon_within_grid] over the same geometry engine, which here also
    combines two geometries; the result of [combine] may be the null
    geometry, as the loop tests at every turn. *)

Module Layers.
Import Spatial.

(** A call returns a value or raises [ValueError(msg)]. *)
Inductive Res (A : Type) :=
| Returns (a : A)
| ValueError (msg : string).
Arguments Returns {A} a.
Arguments ValueError {A} msg.

Section Within.

Context {Geometry CRS : Type} `{EqDecision CRS}.
Variable isEmpty : Geometry → bool.
Variable within : Geometry → Geometry → bool.
Variable combine : Geometry → Geometry → option Geometry.
Variable reproject : CRS → CRS → Geometry → Geometry.
(** [QgsCoordinateReferenceSystem("EPSG:4674")] *)
Variable target_crs : CRS.

(** The loop over the features of the grid, in either branch: [transform]
    is [None] when the grid is in the target system. [grid_geom] is [None]
    while it is the null geometry. *)
Fixpoint combine_grid (transform : option (Geometry → Geometry))
    (feats : list (@Feature Geometry)) (grid_geom : option Geometry) : option Geometry :=
  match feats with
  | [] => grid_geom
  | feat :: rest =>
      match geometry feat with
      | None => combine_grid transform rest grid_geom
      | Some geom =>
          let geom := match transform with Some t => t geom | None => geom end in
          match grid_geom with
          | None => combine_grid transform rest (Some geom)
          | Some g => combine_grid transform rest (combine g geom)
          end
      end
  end.

(** The loop over the features of the polygon layer, in either branch;
    [false] is the [return False] inside the loop. *)
Fixpoint all_within (transform : option (Geometry → Geometry))
    (feats : list (@Feature Geometry)) (grid_geom : Geometry) : bool :=
  match feats with
  | [] => true
  | feat :: rest =>
      match geometry feat with
      | None => all_within transform rest grid_geom
      | Some polygon_geom =>
          let polygon_geom :=
            match transform with Some t => t polygon_geom | None => polygon_geom end in
          if negb (within polygon_geom grid_geom) then false
          else all_within transform rest grid_geom
      end
  end.

(** The transformation to the target system, where the layer is in
    another one. *)
Definition to_target (layer_crs : CRS) : option (Geometry → Geometry) :=
  if bool_decide (layer_crs ≠ target_crs) then Some (reproject layer_crs target_crs)
  else None.

Definition is_polygon_within_grid (open_layer : string → @QgsVectorLayer Geometry CRS)
    (polygon_path grid_path : string) : Res bool :=
  let polygon_layer := open_layer polygon_path in
  let grid_layer := open_layer grid_path in
  if negb (isValid polygon_layer) then
    ValueError ("Camada de polígono inválida: " +:+ polygon_path)
  else if negb (isValid grid_layer) then
    ValueError ("Camada de grade inválida: " +:+ grid_path)
  else
    match combine_grid (to_target (crs grid_layer)) (getFeatures grid_layer) None with
    | None => Returns false
    | Some grid_geom =>
        Returns (all_within (to_target (crs polygon_layer)) (getFeatures polygon_layer)
                   grid_geom)
    end.

(** The geometry of a feature in the target system. *)
Definition in_target (layer_crs : CRS) (g : Geometry) : Geometry :=
  match to_target layer_crs with Some t => t g | None => g end.

(** The polygon feature is looked at by the loops of
    [analyze_polygon_against_grid]: its geometry is neither null nor empty. *)
Definition visible (f : @Feature Geometry) : Prop := blank isEmpty (geometry f) = false.

(** The grid feature is looked at and has no field [tile_code]. *)
Definition lacks_tile_code (f : @Feature Geometry) : Prop :=
  blank isEmpty (geometry f) = false ∧ attributes f !! "tile_code" = None.

Global Instance visible_dec (f : @Feature Geometry) : Decision (visible f).
Proof. unfold visible. apply _. Defined.

Global Instance lacks_tile_code_dec (f : @Feature Geometry) : Decision (lacks_tile_code f).
Proof. unfold lacks_tile_code. apply _. Defined.

End Within.

Definition toy_combine (a b : list nat) : option (list nat) := Some (a ++ b).

Definition toy_within_grid (polys grid : list (@Feature (list nat))) : Res bool :=
  is_polygon_within_grid toy_within toy_combine toy_reproject tt
    (toy_layers polys grid) "poly" "grid".

End Layers.

(** * Properties *)

(** ** Strings and paths *)

Example basename_ex : Py.basename "/d/tmpab12/a/x.tif" = "x.tif".
Proof. reflexivity. Qed.
Example basename_noslash : Py.basename "x.tif" = "x.tif".
Proof. reflexivity. Qed.
Example splitext_ex : Py.splitext "x.y.tif" = ("x.y", ".tif").
Proof. reflexivity. Qed.
Example splitext_dotfile : Py.splitext ".tif" = (".tif", "").
Proof. reflexivity. Qed.
Example join_ex : Py.join "/d" "x.tif" = "/d/x.tif".
Proof. reflexivity. Qed.
Example join_abs : Py.join "/d" "/x.tif" = "/x.tif".
Proof. reflexivity. Qed.
Example join_slash : Py.join "/d/" "x.tif" = "/d/x.tif".
Proof. reflexivity. Qed.
Example endswith_ex : Py.endswith ".tif" (Py.lower "A.TIF") = true.
Proof. reflexivity. Qed.
Example endswith_short : Py.endswith ".tif" "tif" = false.
Proof. reflexivity. Qed.
Example pretty_ex : pretty 12%nat = "12".
Proof. reflexivity. Qed.
Example candidate_ex : Unzip.candidate "/d" "x.tif" 2 = "/d/x_2.tif".
Proof. reflexivity. Qed.
Example candidate_no_ext : Unzip.candidate "/d" ".tif" 1 = "/d/.tif_1".
Proof. reflexivity. Qed.
Example is_tif_upper : Unzip.is_tif "SA-22-X-A_ZN.TIF" = true.
Proof. reflexivity. Qed.
Example is_tif_tiff : Unzip.is_tif "a.tiff" = false.
Proof. reflexivity. Qed.

Section PathFacts.

Lemma str_app_nil_l (t : string) : "" +:+ t = t.
Proof. reflexivity. Qed.

Lemma str_app_cons (c : ascii) (s t : string) : String c s +:+ t = String c (s +:+ t).
Proof. reflexivity. Qed.

Lemma str_length_app (s t : string) :
  String.length (s +:+ t) = (String.length s + String.length t)%nat.
Proof.
  induction s as [|c s IH]; [done|].
  rewrite str_app_cons. simpl. by rewrite IH.
Qed.

Lemma str_app_inj_r (s1 s2 e : string) : s1 +:+ e = s2 +:+ e → s1 = s2.
Proof.
  revert s2. induction s1 as [|c s1 IH]; intros [|d s2] Heq.
  - done.
  - apply (f_equal String.length) in Heq.
    rewrite !str_length_app in Heq. simpl in Heq. lia.
  - apply (f_equal String.length) in Heq.
    rewrite !str_length_app in Heq. simpl in Heq. lia.
  - rewrite !str_app_cons in Heq. injection Heq as -> Heq. f_equal. by apply IH.
Qed.

(** Whether a name starts with the separator is decided by its first
    character, so by [name] alone once something follows it. *)
Lemma startswith_sep_app (name x y : string) (c : ascii) :
  Py.startswith "/" (name +:+ String c x) = Py.startswith "/" (name +:+ String c y).
Proof.
  assert (Hcons : ∀ d u v, Py.startswith "/" (String d u) = Py.startswith "/" (String d v)).
  { intros d u v. unfold Py.startswith. by destruct u, v. }
  destruct name as [|d name]; [rewrite !str_app_nil_l | rewrite !str_app_cons];
    apply Hcons.
Qed.

Lemma join_inj_tail (dir name x y : string) (c : ascii) :
  Py.join dir (name +:+ String c x) = Py.join dir (name +:+ String c y) → x = y.
Proof.
  unfold Py.join. rewrite (startswith_sep_app name x y c).
  destruct (Py.startswith "/" (name +:+ String c y)).
  - intros Heq. apply String.app_inj in Heq. congruence.
  - destruct (bool_decide (dir = "") || Py.endswith "/" dir); intros Heq;
      repeat (apply String.app_inj in Heq); congruence.
Qed.

Lemma candidate_inj (dir filename : string) : Inj (=) (=) (Unzip.candidate dir filename).
Proof.
  intros c1 c2. unfold Unzip.candidate.
  destruct (Py.splitext filename) as [name ext].
  change (name +:+ "_" +:+ pretty c1 +:+ ext)
    with (name +:+ String "_" (pretty c1 +:+ ext)).
  change (name +:+ "_" +:+ pretty c2 +:+ ext)
    with (name +:+ String "_" (pretty c2 +:+ ext)).
  intros Heq%join_inj_tail%str_app_inj_r. by apply (inj pretty).
Qed.

End PathFacts.

(** ** The unzip worker *)

Module UnzipFacts.
Import Unzip.

(** *** The renaming loop *)

Section RenameLoop.

Variable exists_ : gset string.
Variables dir filename : string.

Lemma rename_loop_S (fuel : nat) (dest_path : string) (counter : nat) :
  rename_loop (S fuel) exists_ dir filename dest_path counter =
    if bool_decide (dest_path ∈ exists_)
    then rename_loop fuel exists_ dir filename (candidate dir filename counter) (S counter)
    else Some dest_path.
Proof. simpl. unfold candidate. by destruct (Py.splitext filename). Qed.

(** More fuel does not change a result. *)
Lemma rename_loop_fuel_mono (fuel fuel' : nat) (dest_path p : string) (counter : nat) :
  rename_loop fuel exists_ dir filename dest_path counter = Some p →
  (fuel ≤ fuel')%nat →
  rename_loop fuel' exists_ dir filename dest_path counter = Some p.
Proof.
  revert fuel' dest_path counter.
  induction fuel as [|fuel IH]; intros fuel' dest_path counter Hrun Hle; [done|].
  destruct fuel' as [|fuel']; [lia|].
  rewrite rename_loop_S in Hrun |- *.
  case_bool_decide; [|done]. apply IH; [done | lia].
Qed.

(** Among the first [size exists_ + 1] candidates one is free: they are
    pairwise different and the directory holds only [size exists_] paths. *)
Lemma free_candidate :
  ∃ k, (1 ≤ k ≤ S (size exists_))%nat ∧ candidate dir filename k ∉ exists_.
Proof.
  set (ks := seq 1 (S (size exists_))).
  destruct (decide (Forall (λ k, candidate dir filename k ∈ exists_) ks)) as [Hall|Hnot].
  - exfalso.
    assert (Hsub : (list_to_set (candidate dir filename <$> ks) : gset string) ⊆ exists_).
    { intros p [k [-> Hk]]%elem_of_list_to_set%list_elem_of_fmap.
      by eapply Forall_forall in Hall. }
    apply subseteq_size in Hsub.
    rewrite size_list_to_set in Hsub.
    + rewrite length_fmap in Hsub. unfold ks in Hsub. rewrite length_seq in Hsub. lia.
    + apply NoDup_fmap_2; [apply candidate_inj | apply NoDup_seq].
  - apply not_Forall_Exists in Hnot; [|apply _].
    apply Exists_exists in Hnot as [k [Hk Hfree]].
    exists k. split; [|done].
    apply elem_of_seq in Hk. lia.
Qed.

(** Once the first name is taken the loop walks up the candidates and
    stops at the first free one. *)
Lemma rename_loop_search (fuel : nat) :
  ∀ (counter k : nat) (dest_path : string),
    dest_path ∈ exists_ →
    (counter ≤ k < counter + fuel)%nat →
    candidate dir filename k ∉ exists_ →
    ∃ k0, (counter ≤ k0 ≤ k)%nat ∧
      (candidate dir filename k0 ∉ exists_) ∧
      (∀ j, (counter ≤ j < k0)%nat → candidate dir filename j ∈ exists_) ∧
      rename_loop (S fuel) exists_ dir filename dest_path counter
        = Some (candidate dir filename k0).
Proof.
  induction fuel as [|fuel IH]; intros counter k dest_path Hin Hk Hfree; [lia|].
  rewrite rename_loop_S, bool_decide_true by done.
  destruct (decide (candidate dir filename counter ∈ exists_)) as [Htaken|Hhere].
  - assert (counter ≠ k) by (intros ->; done).
    destruct (IH (S counter) k (candidate dir filename counter)) as (k0 & ? & ? & Hbelow & ->);
      [done | lia | done |].
    exists k0. split_and!; [lia | lia | done | | done].
    intros j Hj. destruct (decide (j = counter)) as [->|]; [done|]. apply Hbelow. lia.
  - exists counter. split_and!; [lia | lia | done | intros; lia |].
    by rewrite rename_loop_S, bool_decide_false.
Qed.

(** The loop ends within [size exists_ + 2] rounds, on a free name. *)
Lemma rename_loop_total (dest_path : string) :
  ∃ p, rename_loop (2 + size exists_) exists_ dir filename dest_path 1 = Some p ∧
    (p ∉ exists_) ∧
    (((dest_path ∉ exists_) ∧ p = dest_path) ∨
     (dest_path ∈ exists_ ∧ ∃ k, (1 ≤ k)%nat ∧ p = candidate dir filename k ∧
        ∀ j, (1 ≤ j < k)%nat → candidate dir filename j ∈ exists_)).
Proof.
  destruct (decide (dest_path ∈ exists_)) as [Hin|Hout].
  - destruct free_candidate as (k & Hk & Hfree).
    destruct (rename_loop_search (S (size exists_)) 1 k dest_path)
      as (k0 & ? & ? & ? & Hrun); [done | lia | done |].
    exists (candidate dir filename k0). split; [done|]. split; [done|].
    right. split; [done|]. exists k0. split_and!; [lia | done | done].
  - exists dest_path. split; [|by auto].
    change (2 + size exists_)%nat with (S (S (size exists_))).
    by rewrite rename_loop_S, bool_decide_false.
Qed.

End RenameLoop.

(** *** One archive *)

Lemma grows_refl (w : World) : grows 0 w w.
Proof.
  unfold grows. split_and!; try done.
  - exists []. by rewrite app_nil_r.
  - exists []. by rewrite app_nil_r.
Qed.

Lemma grows_trans (n m : nat) (w1 w2 w3 : World) :
  grows n w1 w2 → grows m w2 w3 → grows (n + m) w1 w3.
Proof.
  intros (?&?&?&?&?&?&(new1&Hu1&?)&(ms1&Hs1)) (?&?&?&?&?&?&(new2&Hu2&?)&(ms2&Hs2)).
  unfold grows. split_and!; try congruence.
  - exists (new1 ++ new2). rewrite Hu2, Hu1, length_app, (assoc_L (++)). split; [done | lia].
  - exists (ms1 ++ ms2). by rewrite Hs2, Hs1, fmap_app, (assoc_L (++)).
Qed.

Lemma grows_le (n m : nat) (w w' : World) : grows n w w' → (n ≤ m)%nat → grows m w w'.
Proof.
  intros (?&?&?&?&?&?&(new&?&?)&?) ?. unfold grows. split_and!; try done.
  exists new. split; [done | lia].
Qed.

Lemma grows_emit_error (msg : string) (w : World) : grows 0 w (emit (error msg) w).
Proof.
  unfold grows. split_and!; try done.
  - exists []. by rewrite app_nil_r.
  - by exists [msg].
Qed.

Lemma grows_set_fs (f : gset string → gset string) (w : World) : grows 0 w (set_fs f w).
Proof. exact (grows_refl w). Qed.

Lemma safe_ret {A} (Q : A → Prop) (a : A) : Q a → safe 0 Q (ret a).
Proof. intros HQ w. split; [apply grows_refl | done]. Qed.

Lemma safe_bind {A B} (n k : nat) (Q : A → Prop) (R : B → Prop) (m : M A) (f : A → M B) :
  safe n Q m → (∀ a, Q a → safe k R (f a)) → safe (n + k) R (m ≫= f).
Proof.
  intros Hm Hf w. unfold mbind, M_bind, bind. specialize (Hm w).
  destruct (m w) as [a w1|e w1|]; [|by eapply grows_le; [|apply Nat.le_add_r]|done].
  destruct Hm as [Hg HQ]. specialize (Hf a HQ w1).
  destruct (f a w1) as [b w2|e w2|]; [|by eapply grows_trans|done].
  destruct Hf. split; [by eapply grows_trans | done].
Qed.

Lemma safe_le {A} (n m : nat) (Q : A → Prop) (c : M A) :
  safe n Q c → (n ≤ m)%nat → safe m Q c.
Proof.
  intros Hc Hle w. specialize (Hc w).
  destruct (c w); [destruct Hc; split|..]; eauto using grows_le.
Qed.

Lemma safe_create_temp_dir (a : Archive) : safe 0 (λ _, True) (create_temp_dir a).
Proof.
  intros w. unfold create_temp_dir.
  destruct (mkdtemp a); [split; [apply grows_set_fs | done] | apply grows_refl].
Qed.

Lemma safe_extract_zip (a : Archive) (zip_path extract_dir : string) :
  safe 0 (λ _, True) (extract_zip a zip_path extract_dir).
Proof.
  intros w. unfold extract_zip.
  destruct (failure a); [apply grows_set_fs | split; [apply grows_set_fs | done]].
Qed.

Lemma safe_find_tif_files (a : Archive) (path : string) :
  safe 0 (λ tif_files, (length tif_files ≤ tif_count a)%nat) (find_tif_files a path).
Proof.
  intros w. unfold find_tif_files. split; [apply grows_refl|].
  case_bool_decide; [|simpl; lia].
  etrans; [apply List.filter_length_le|]. by rewrite length_fmap.
Qed.

Lemma safe_shutil_move (src dst : string) : safe 0 (λ _, True) (shutil_move src dst).
Proof.
  intros w. unfold shutil_move.
  case_bool_decide; [split; [exact (grows_refl w) | done] | apply grows_refl].
Qed.

Lemma grows_append (p : string) (w : World) :
  grows 1 w (set_self (append_unzip_file p) w).
Proof.
  unfold grows. split_and!; try done.
  - by exists [p].
  - exists []. by rewrite app_nil_r.
Qed.

Lemma safe_move_tif_file (tif_file : string) : safe 1 (λ _, True) (move_tif_file tif_file).
Proof.
  intros w. unfold move_tif_file.
  set (w1 := set_self (append_unzip_file _) w).
  destruct (rename_loop_total (fs w1) (unzip_dir_path (self w1)) (Py.basename tif_file)
    (Py.join (unzip_dir_path (self w)) (Py.basename tif_file))) as (p & -> & _).
  pose proof (safe_shutil_move tif_file p w1) as Hmove.
  pose proof (grows_append (Py.join (unzip_dir_path (self w)) (Py.basename tif_file)) w) as Happ.
  destruct (shutil_move tif_file p w1) as [[] w2|e w2|]; [|by apply (grows_trans 1 0 w w1 w2)|done].
  destruct Hmove. split; [by apply (grows_trans 1 0 w w1 w2) | done].
Qed.

Lemma safe_move_tif_files (tif_files : list string) :
  safe (length tif_files) (λ _, True) (move_tif_files tif_files).
Proof.
  induction tif_files as [|tif_file rest IH]; simpl.
  - by apply safe_ret.
  - apply (safe_bind 1 (length rest) (λ _, True)); [apply safe_move_tif_file | done].
Qed.

Lemma safe_act_emit_error (msg : string) : safe 0 (λ _, True) (act (emit (error msg))).
Proof. intros w. split; [apply grows_emit_error | done]. Qed.

Lemma safe_cleanup_temp_dir (a : Archive) (temp_dir : string) :
  safe 0 (λ _, True) (cleanup_temp_dir a temp_dir).
Proof.
  intros w. unfold cleanup_temp_dir, act.
  split; [|done]. destruct (rmtree_works a); [apply grows_set_fs | apply grows_refl].
Qed.

Lemma safe_extract_one (a : Archive) (zip_file_path : string) :
  safe (tif_count a) (λ _, True) (extract_one a zip_file_path).
Proof.
  unfold extract_one.
  apply (safe_bind 0 (tif_count a) (λ _, True) (λ _, True)); [apply safe_create_temp_dir|].
  intros temp_dir _.
  apply (safe_bind 0 (tif_count a) (λ _, True) (λ _, True)); [apply safe_extract_zip|].
  intros _ _.
  apply (safe_bind 0 (tif_count a) _ (λ _, True) _ _ (safe_find_tif_files a temp_dir)).
  intros tif_files Hlen.
  replace (tif_count a) with (tif_count a + 0)%nat by lia.
  apply (safe_bind (tif_count a) 0 (λ _, True) (λ _, True));
    [|intros; apply safe_cleanup_temp_dir].
  destruct tif_files as [|t rest].
  - eapply safe_le; [apply safe_act_emit_error | lia].
  - eapply safe_le; [apply safe_move_tif_files | done].
Qed.

Lemma grows_advance (n : nat) (w w1 : World) :
  grows n w w1 →
  advanced n w
    (emit (progress (S (current_index (self w1))) (total_files (self w1)))
       (set_self incr_current_index w1)).
Proof.
  intros (?&?&?&Ht&Hi&?&?&(msgs&Hs)). unfold advanced. simpl.
  split_and!; try done; [congruence|].
  exists msgs. by rewrite Hs, Ht, Hi, (assoc_L (++)).
Qed.

(** The [try] statement of [unzip_next] always reaches [update_progress],
    which advances the index and then makes the call [k]. *)
Lemma try_step (a : Archive) (z : string) (w : World) :
  ∃ w', advanced (tif_count a) w w' ∧
    ∀ k : M unit,
      try_finally
        (try_except (extract_one a z) (emit_corrupted_error z) (emit_generic_error z))
        (update_progress k) w = k w'.
Proof.
  pose proof (safe_extract_one a z w) as Hsafe.
  unfold try_finally, try_except.
  destruct (extract_one a z w) as [[] w1|e w1|]; [| |done].
  - destruct Hsafe as [Hg _]. eexists. split; [by apply grows_advance|done].
  - assert (Hh : ∀ msg, grows (tif_count a) w (emit (error msg) w1)).
    { intros msg. replace (tif_count a) with (tif_count a + 0)%nat by lia.
      eapply grows_trans; [done | apply grows_emit_error]. }
    destruct e; simpl; (eexists; split; [apply grows_advance, Hh | done]).
Qed.

Lemma archive_step_spec (env : nat → Archive) (w : World) :
  (current_index (self w) < length (zip_files (self w)))%nat →
  total_files (self w) = length (zip_files (self w)) →
  ∃ w', advanced (tif_count (env (current_index (self w)))) w w' ∧
    archive_step env w = Returns tt w' ∧
    ∀ depth, unzip_next env (S depth) w = unzip_next env depth w'.
Proof.
  intros Hlt Htot.
  destruct (lookup_lt_is_Some_2 _ _ Hlt) as [z Hz].
  destruct (try_step (env (current_index (self w))) z w) as (w' & Hadv & Hstep).
  exists w'. split; [done|]. split.
  - unfold archive_step. by rewrite Hz, Hstep.
  - intros depth. simpl. rewrite Hz, Hstep.
    by destruct (Nat.leb_spec (total_files (self w)) (current_index (self w))); [lia|].
Qed.

(** *** A run *)

Lemma tif_total_S (env : nat → Archive) (i k : nat) :
  tif_total env i (S k) = (tif_count (env i) + tif_total env (S i) k)%nat.
Proof. reflexivity. Qed.

Lemma omap_progress_errors (msgs : list string) :
  omap progress_of (error <$> msgs) = [].
Proof. by induction msgs. Qed.

Lemma filter_finished_errors (msgs : list string) :
  List.filter is_finished (error <$> msgs) = [].
Proof. by induction msgs. Qed.

Lemma advanced_ran (env : nat → Archive) (w w' : World) :
  advanced (tif_count (env (current_index (self w)))) w w' → ran env 1 w w'.
Proof.
  intros (?&?&?&?&?&?&(new&?&?)&(msgs&Hs)). unfold ran.
  split_and!; try done; [lia| | |].
  - exists new. split; [done|]. rewrite tif_total_S. unfold tif_total. simpl. lia.
  - by rewrite Hs, !omap_app, omap_progress_errors.
  - rewrite Hs, !List.filter_app, filter_finished_errors. simpl. by rewrite app_nil_r.
Qed.

Lemma ran_refl (env : nat → Archive) (w : World) : ran env 0 w w.
Proof.
  unfold ran. split_and!; try done.
  - exists []. by rewrite app_nil_r.
  - simpl. by rewrite app_nil_r.
Qed.

Lemma ran_step (env : nat → Archive) (k : nat) (w w1 w2 : World) :
  ran env 1 w w1 → ran env k w1 w2 → ran env (S k) w w2.
Proof.
  intros (?&?&?&Ht&Hi&?&(new1&Hu1&?)&Hp1&Hf1) (?&?&?&?&?&?&(new2&Hu2&?)&Hp2&Hf2).
  unfold ran. split_and!; try congruence; [lia| |].
  - exists (new1 ++ new2). rewrite Hu2, Hu1, length_app, (assoc_L (++)).
    split; [done|]. rewrite tif_total_S.
    replace (current_index (self w1)) with (S (current_index (self w))) in * by lia.
    rewrite tif_total_S in *. unfold tif_total in *. simpl in *. lia.
  - rewrite Hp2, Hp1, Ht, <-(assoc_L (++)). f_equal.
    replace (current_index (self w1)) with (S (current_index (self w))) by lia.
    done.
Qed.

Lemma steps_spec (env : nat → Archive) (k : nat) :
  ∀ w, total_files (self w) = length (zip_files (self w)) →
    (current_index (self w) + k ≤ total_files (self w))%nat →
    ∃ w', steps env k w = Returns tt w' ∧ ran env k w w'.
Proof.
  induction k as [|k IH]; intros w Htot Hle.
  - exists w. split; [done | apply ran_refl].
  - destruct (archive_step_spec env w) as (w1 & Hadv & Hstep & _); [lia | done |].
    pose proof (advanced_ran env w w1 Hadv) as Hran.
    pose proof Hadv as (_&_&Hz&Ht&Hi&_).
    destruct (IH w1) as (w2 & Hsteps & Hran2); [congruence | lia |].
    exists w2. split; [|by eapply ran_step].
    simpl. unfold mbind, M_bind, bind. by rewrite Hstep.
Qed.

(** With room for more nested calls than archives are left, [unzip_next]
    handles the archives that are left and then emits [finished]. *)
Lemma unzip_next_spec (env : nat → Archive) (n : nat) :
  ∀ w depth, total_files (self w) = length (zip_files (self w)) →
    (current_index (self w) + n = total_files (self w))%nat →
    (n < depth)%nat →
    ∃ w', steps env n w = Returns tt w' ∧
      unzip_next env depth w = Returns tt (emit (finished (unzip_files (self w'))) w').
Proof.
  induction n as [|n IH]; intros w depth Htot Hn Hdepth;
    (destruct depth as [|depth]; [lia|]).
  - exists w. split; [done|]. simpl.
    by destruct (Nat.leb_spec (total_files (self w)) (current_index (self w))); [|lia].
  - destruct (archive_step_spec env w) as (w1 & Hadv & Hstep & Hnext); [lia | done |].
    destruct Hadv as (?&?&Hz&Ht&Hi&?).
    destruct (IH w1 depth) as (w2 & Hsteps & Hrun); [congruence | lia | lia |].
    exists w2. split; [|by rewrite Hnext].
    simpl. unfold mbind, M_bind, bind. by rewrite Hstep.
Qed.

(** Without that room [unzip_next] handles as many archives as it has
    room for and then raises [RecursionError]. *)
Lemma unzip_next_overflow (env : nat → Archive) (depth : nat) :
  ∀ w, total_files (self w) = length (zip_files (self w)) →
    (current_index (self w) + depth ≤ total_files (self w))%nat →
    ∃ w', steps env depth w = Returns tt w' ∧
      unzip_next env depth w = Raises RecursionError w'.
Proof.
  induction depth as [|depth IH]; intros w Htot Hle.
  - by exists w.
  - destruct (archive_step_spec env w) as (w1 & Hadv & Hstep & Hnext); [lia | done |].
    destruct Hadv as (?&?&Hz&Ht&Hi&?).
    destruct (IH w1) as (w2 & Hsteps & Hrun); [congruence | lia |].
    exists w2. split; [|by rewrite Hnext].
    simpl. unfold mbind, M_bind, bind. by rewrite Hstep.
Qed.

(** A run with room for more nested calls than there are archives: every
    archive is handled, the progress signals carry [1, …, M] and [finished]
    is emitted last, and only then. *)
Lemma start_spec (env : nat → Archive) (dir : string) (zips : list string)
    (existing : gset string) (depth : nat) :
  (length zips < depth)%nat →
  ∃ w', start env depth (initial dir zips existing)
      = Returns tt (emit (finished (unzip_files (self w'))) w') ∧
    current_index (self w') = length zips ∧
    (length (unzip_files (self w')) ≤ tif_total env 0 (length zips))%nat ∧
    omap progress_of (signals w') = (λ j, (j, length zips)) <$> seq 1 (length zips) ∧
    List.filter is_finished (signals w') = [].
Proof.
  intros Hroom. unfold start.
  set (w0 := emit (started _) (initial dir zips existing)).
  destruct (unzip_next_spec env (length zips) w0 depth)
    as (w' & Hsteps & Hrun); [done | done | done |].
  destruct (steps_spec env (length zips) w0) as (w'' & Hsteps' & Hran);
    [done | simpl; lia |].
  assert (w'' = w') as -> by congruence.
  destruct Hran as (_&_&_&_&Hi&_&(new&Hu&Hlen)&Hp&Hf).
  exists w'. split_and!; try done.
  by rewrite Hu.
Qed.

(** *** The claims about the unzip worker *)

(** C1, at an input where it fails. One archive holds [a/x.tif] and
    [b/x.tif] and the directory is empty but for the archive: the files are
    moved to [/d/x.tif] and [/d/x_1.tif], while the list the worker records,
    and reports with [finished], holds [/d/x.tif] twice: the path is
    appended before the loop that renames it. *)
Theorem recorded_path_precedes_renaming :
  ∃ w', start (λ _, same_name_twice) 2 (initial "/d" ["/d/z.zip"] {["/d/z.zip"]})
      = Returns tt w' ∧
    (snd <$> moves w') = ["/d/x.tif"; "/d/x_1.tif"] ∧
    unzip_files (self w') = ["/d/x.tif"; "/d/x.tif"] ∧
    last (signals w') = Some (finished ["/d/x.tif"; "/d/x.tif"]).
Proof. eexists. split; [vm_compute; reflexivity|]. by vm_compute. Qed.

(** C2 as stated fails: after the first (and only) archive, which holds two
    payload files, the list has two entries. *)
Lemma unzip_files_longer_than_index :
  ¬ (∀ w', steps (λ _, same_name_twice) 1 (initial "/d" ["/d/z.zip"] {["/d/z.zip"]})
        = Returns tt w' →
      (length (unzip_files (self w')) ≤ 1)%nat).
Proof.
  intros Hclaim.
  assert (Hrun : ∃ w', steps (λ _, same_name_twice) 1
      (initial "/d" ["/d/z.zip"] {["/d/z.zip"]}) = Returns tt w' ∧
      length (unzip_files (self w')) = 2%nat).
  { eexists. split; [vm_compute; reflexivity | by vm_compute]. }
  destruct Hrun as (w' & Hsteps & Hlen). specialize (Hclaim w' Hsteps). lia.
Qed.

(** C2, amended. After the first [k] archives the index is [k] and the list
    of recorded paths is at most as long as the number of payload files
    found in those archives; and when the next archive holds no payload
    file, handling it leaves the list as it is and advances the index by
    one. *)
Theorem unzip_files_bound (env : nat → Archive) (dir : string) (zips : list string)
    (existing : gset string) (k : nat) :
  (k ≤ length zips)%nat →
  ∃ w', steps env k (initial dir zips existing) = Returns tt w' ∧
    current_index (self w') = k ∧
    (length (unzip_files (self w')) ≤ tif_total env 0 k)%nat ∧
    ((k < length zips)%nat → tif_count (env k) = 0%nat →
       ∃ w'', archive_step env w' = Returns tt w'' ∧
         unzip_files (self w'') = unzip_files (self w') ∧
         current_index (self w'') = S k).
Proof.
  intros Hk.
  destruct (steps_spec env k (initial dir zips existing)) as (w' & Hsteps & Hran);
    [done | simpl; lia |].
  destruct Hran as (_&_&Hz&Ht&Hi&_&(new&Hu&Hlen)&_&_). simpl in *.
  exists w'. split_and!; [done | done | by rewrite Hu |].
  intros Hlt Hnone.
  destruct (archive_step_spec env w')
    as (w'' & (_&_&_&_&Hi'&_&(new'&Hu'&Hlen')&_) & Hstep & _); [rewrite Hz; simpl; lia | congruence |].
  exists w''. split_and!; [done | | lia].
  rewrite Hi, Hnone in Hlen'. destruct new'; [by rewrite app_nil_r in Hu' | simpl in Hlen'; lia].
Qed.

Lemma unzip_files_bound_witness :
  (1 ≤ length ["/d/a.zip"; "/d/b.zip"])%nat ∧
  ∃ w', steps (λ i, if i is O then one_tif else no_tif) 1
      (initial "/d" ["/d/a.zip"; "/d/b.zip"] ∅) = Returns tt w' ∧
    current_index (self w') = 1%nat ∧
    (length (unzip_files (self w')) ≤ tif_total (λ i, if i is O then one_tif else no_tif) 0 1)%nat ∧
    ((1 < length ["/d/a.zip"; "/d/b.zip"])%nat →
       tif_count ((λ i, if i is O then one_tif else no_tif) 1%nat) = 0%nat →
       ∃ w'', archive_step (λ i, if i is O then one_tif else no_tif) w' = Returns tt w'' ∧
         unzip_files (self w'') = unzip_files (self w') ∧
         current_index (self w'') = 2%nat).
Proof.
  split; [simpl; lia|].
  apply (unzip_files_bound (λ i, if i is O then one_tif else no_tif) "/d"
           ["/d/a.zip"; "/d/b.zip"] ∅ 1).
  simpl; lia.
Defined.

(** C4, at an input where it fails. The only file of the run is not an
    archive: [extract_zip] raises [BadZipFile] after [create_temp_dir] has
    made [/d/tmp3], the handler reports the error, and the run ends with the
    directory still there: [cleanup_temp_dir] is called at the end of the
    [try] block only. *)
Theorem temp_dir_left_after_bad_zip :
  ∃ w', start (λ _, not_a_zip) 2 (initial "/d" ["/d/z.zip"] {["/d/z.zip"]})
      = Returns tt w' ∧
    current_index (self w') = 1%nat ∧
    last (signals w') = Some (finished []) ∧
    "/d/tmp3" ∈ fs w'.
Proof.
  eexists. split; [vm_compute; reflexivity|].
  split_and!; [done | done |]. apply (bool_decide_unpack _). by vm_compute.
Qed.




(** C6, where it fails. Every archive deepens the call stack by one call
    of [unzip_next] (and one of [update_progress]), and the interpreter
    bounds the stack. When the list has at least as many archives as the
    recursion limit leaves room for nested calls, [start] does not return:
    it raises [RecursionError] after as many archives as there is room for,
    with the index at their number and without [finished]. With the
    default limit of 1000 frames the room is 499. *)
Theorem recursion_limit_ends_run (env : nat → Archive) (dir : string)
    (zips : list string) (existing : gset string) (depth : nat) :
  (depth ≤ length zips)%nat →
  ∃ w', start env depth (initial dir zips existing) = Raises RecursionError w' ∧
    current_index (self w') = depth ∧
    omap progress_of (signals w') = (λ j, (j, length zips)) <$> seq 1 depth ∧
    List.filter is_finished (signals w') = [].
Proof.
  intros Hroom. unfold start.
  set (w0 := emit (started _) (initial dir zips existing)).
  destruct (unzip_next_overflow env depth w0) as (w' & Hsteps & Hrun);
    [done | simpl; lia |].
  destruct (steps_spec env depth w0) as (w'' & Hsteps' & Hran); [done | simpl; lia |].
  assert (w'' = w') as -> by congruence.
  destruct Hran as (_&_&_&_&Hi&_&_&Hp&Hf).
  exists w'. split_and!; done.
Qed.

Lemma recursion_limit_ends_run_witness :
  (nesting_room 1000 ≤ length (replicate 600 "/d/z.zip"))%nat ∧
  ∃ w', start (λ _, not_a_zip) (nesting_room 1000)
      (initial "/d" (replicate 600 "/d/z.zip") ∅) = Raises RecursionError w' ∧
    current_index (self w') = nesting_room 1000 ∧
    omap progress_of (signals w') =
      (λ j, (j, length (replicate 600 "/d/z.zip"))) <$> seq 1 (nesting_room 1000) ∧
    List.filter is_finished (signals w') = [].
Proof.
  assert (Hroom : (nesting_room 1000 ≤ length (replicate 600 "/d/z.zip"))%nat).
  { rewrite length_replicate. vm_compute. lia. }
  split; [exact Hroom|].
  exact (recursion_limit_ends_run (λ _, not_a_zip) "/d" (replicate 600 "/d/z.zip") ∅
           (nesting_room 1000) Hroom).
Defined.

(** C10. The renaming loop of [move_tif_files] ends: it tries the plain
    name and then the suffixes [_1], [_2], … in this order, stops within
    [size + 2] rounds at the first path that does not exist, and the file is
    moved to that path. *)
Theorem move_tif_file_terminates (w : World) (tif_file : string) :
  tif_file ∈ fs w →
  ∃ p w',
    (∀ extra, rename_loop (2 + size (fs w) + extra) (fs w) (unzip_dir_path (self w))
       (Py.basename tif_file)
       (Py.join (unzip_dir_path (self w)) (Py.basename tif_file)) 1 = Some p) ∧
    (((Py.join (unzip_dir_path (self w)) (Py.basename tif_file) ∉ fs w) ∧
      p = Py.join (unzip_dir_path (self w)) (Py.basename tif_file)) ∨
     (Py.join (unzip_dir_path (self w)) (Py.basename tif_file) ∈ fs w ∧
      ∃ k, (1 ≤ k)%nat ∧
        p = candidate (unzip_dir_path (self w)) (Py.basename tif_file) k ∧
        ∀ j, (1 ≤ j < k)%nat →
          candidate (unzip_dir_path (self w)) (Py.basename tif_file) j ∈ fs w)) ∧
    (p ∉ fs w) ∧
    move_tif_file tif_file w = Returns tt w' ∧
    moves w' = moves w ++ [(tif_file, p)] ∧
    fs w' = {[p]} ∪ (fs w ∖ {[tif_file]}).
Proof.
  intros Hsrc.
  destruct (rename_loop_total (fs w) (unzip_dir_path (self w)) (Py.basename tif_file)
    (Py.join (unzip_dir_path (self w)) (Py.basename tif_file))) as (p & Hloop & Hfree & Hwhich).
  exists p. eexists. split_and!; [| exact Hwhich | exact Hfree | | |].
  - intros extra. eapply rename_loop_fuel_mono; [exact Hloop | lia].
  - unfold move_tif_file.
    cbn [set_self fs self append_unzip_file unzip_dir_path]. rewrite Hloop.
    unfold shutil_move. cbn [set_self fs]. by rewrite bool_decide_true.
  - done.
  - done.
Qed.

Lemma move_tif_file_terminates_witness :
  "/d/tmp0/b/x.tif" ∈ fs crowded ∧
  ∃ p w',
    (∀ extra, rename_loop (2 + size (fs crowded) + extra) (fs crowded)
       (unzip_dir_path (self crowded)) (Py.basename "/d/tmp0/b/x.tif")
       (Py.join (unzip_dir_path (self crowded)) (Py.basename "/d/tmp0/b/x.tif")) 1 = Some p) ∧
    (((Py.join (unzip_dir_path (self crowded)) (Py.basename "/d/tmp0/b/x.tif") ∉ fs crowded) ∧
      p = Py.join (unzip_dir_path (self crowded)) (Py.basename "/d/tmp0/b/x.tif")) ∨
     (Py.join (unzip_dir_path (self crowded)) (Py.basename "/d/tmp0/b/x.tif") ∈ fs crowded ∧
      ∃ k, (1 ≤ k)%nat ∧
        p = candidate (unzip_dir_path (self crowded)) (Py.basename "/d/tmp0/b/x.tif") k ∧
        ∀ j, (1 ≤ j < k)%nat →
          candidate (unzip_dir_path (self crowded)) (Py.basename "/d/tmp0/b/x.tif") j
            ∈ fs crowded)) ∧
    (p ∉ fs crowded) ∧
    move_tif_file "/d/tmp0/b/x.tif" crowded = Returns tt w' ∧
    moves w' = moves crowded ++ [("/d/tmp0/b/x.tif", p)] ∧
    fs w' = {[p]} ∪ (fs crowded ∖ {["/d/tmp0/b/x.tif"]}).
Proof.
  split; [simpl; set_solver|].
  apply (move_tif_file_terminates crowded "/d/tmp0/b/x.tif").
  simpl; set_solver.
Defined.

End UnzipFacts.

(** ** The download worker *)

Module DownloadFacts.
Import Download.

Section Runs.

Variable qurl_path : string → string.

(** *** Runs without [cancel()] *)

Lemma errors_seen_emit (s : Signal) (w : World) : errors_seen w → errors_seen (emit s w).
Proof. intros (s0 & Hin & Herr). exists s0. split; [|done]. simpl. set_solver. Qed.

Lemma errors_seen_emitted (s : Signal) (w : World) : item_error s → errors_seen (emit s w).
Proof. intros Herr. exists s. split; [|done]. simpl. set_solver. Qed.

Lemma finished_ok_emit (s : Signal) (w : World) :
  is_finished s = false → finished_ok w → finished_ok (emit s w).
Proof.
  intros Hs Hok d l Hin. simpl in Hin.
  apply elem_of_app in Hin as [Hin|Hin%list_elem_of_singleton]; [|by subst].
  destruct (Hok d l Hin) as [? Herr]. split; [done|].
  intros ?. by apply errors_seen_emit, Herr.
Qed.

Lemma counts_ok_emit (s : Signal) (w : World) :
  is_finished s = false → counts_ok w → counts_ok (emit s w).
Proof.
  intros Hs (?&?&?&?&?&Hor&?). unfold counts_ok. simpl.
  split_and!; try done; [|by apply finished_ok_emit].
  destruct Hor; [by left | right; by apply errors_seen_emit].
Qed.

Lemma closing_inv (w : World) :
  closing w → counts_ok (cleanup_and_continue w) ∧ reply_ok (cleanup_and_continue w).
Proof.
  intros Hclosing.
  assert (Hgen : ∀ w0, closing w0 → reply (self w0) = None →
    counts_ok (set_deferred S (set_self incr_current_index (emit file_finished w0))) ∧
    reply_ok (set_deferred S (set_self incr_current_index (emit file_finished w0)))).
  { clear. intros w0 (Hc&Ht&Hi&Hl&Hor&Hfin) Hnone. split.
    - unfold counts_ok. simpl. rewrite Hnone.
      split_and!; try done.
      + destruct Hor; [by left | right; by apply (errors_seen_emit file_finished)].
      + by apply (finished_ok_emit file_finished w0).
    - intros r q. simpl. by rewrite Hnone. }
  unfold cleanup_and_continue. destruct (reply (self w)) eqn:Hr.
  - by apply Hgen.
  - by apply Hgen.
Qed.

Lemma counts_ok_emit_finished (w : World) :
  counts_ok w → (total_urls (self w) ≤ current_index (self w))%nat →
  counts_ok (emit_finished w).
Proof.
  intros (Hc&Ht&Hi&Hr&Hl&Hor&Hfin) Hend. unfold counts_ok, emit_finished. simpl.
  split_and!; try done.
  - destruct Hor; [by left | right; by apply errors_seen_emit].
  - intros d l Hin. simpl in Hin.
    apply elem_of_app in Hin as [Hin|Hin%list_elem_of_singleton].
    + destruct (Hfin d l Hin) as [? Herr]. split; [done|].
      intros ?. by apply errors_seen_emit, Herr.
    + injection Hin as -> ->. split; simpl; [lia|]. intros Hlt.
      apply errors_seen_emit. destruct Hor; [lia | done].
Qed.

Lemma download_next_inv (w : World) :
  counts_ok w → reply_ok w →
  counts_ok (download_next qurl_path w) ∧ reply_ok (download_next qurl_path w).
Proof.
  intros Hcounts Hreply. pose proof Hcounts as (Hc&Ht&Hi&Hr&Hl&Hor&Hfin).
  unfold download_next. rewrite Hc.
  destruct (Nat.leb_spec (total_urls (self w)) (current_index (self w))) as [Hend|Hmore].
  { split; [by apply counts_ok_emit_finished | done]. }
  destruct (urls (self w) !! current_index (self w)) as [url|]; [|done].
  split.
  - unfold counts_ok. simpl. split_and!; try done.
    + destruct Hor; [by left | right; by apply errors_seen_emit].
    + by apply (finished_ok_emit (file_started _ _) w).
  - intros r q. simpl. intros [= <-].
    rewrite lookup_app_r, Nat.sub_diag by done. by intros [= <-].
Qed.

Lemma handle_finished_inv (save : option string) (w : World) :
  counts_ok w → reply_ok w →
  counts_ok (handle_finished save w) ∧ reply_ok (handle_finished save w).
Proof.
  intros Hcounts Hreply. pose proof Hcounts as (Hc&Ht&Hi&Hr&Hl&Hor&Hfin).
  unfold handle_finished.
  destruct (reply (self w)) as [r|] eqn:Hrep; simpl; [|done].
  destruct (replies w !! r) as [q|] eqn:Hq; [|done].
  rewrite (Hreply r q Hrep Hq), bool_decide_false by naive_solver.
  destruct (urls (self w) !! current_index (self w)) as [url|]; [|done].
  assert (Hlt : (current_index (self w) < total_urls (self w))%nat) by (by apply Hr).
  apply closing_inv. destruct save as [e|]; unfold closing; simpl.
  - split_and!; try done; [lia | |by apply (finished_ok_emit (error _) w)].
    right. apply errors_seen_emitted. right. by eexists _, _.
  - rewrite length_app. simpl. split_and!; try done; [lia | |].
    + destruct Hor as [->|Herr]; [left; lia|].
      right. by apply (errors_seen_emit (started _) (set_self _ w)).
    + by apply (finished_ok_emit (started _) (set_self (append_downloaded _) w)).
Qed.

Lemma counts_ok_stop (r : nat) (e : NetworkError) (s : string) (w : World) :
  counts_ok w → counts_ok (stop r e s w).
Proof. done. Qed.

Lemma reply_ok_stop (r : nat) (s : string) (w : World) :
  reply_ok w → reply_ok (stop r NoError s w).
Proof.
  intros Hreply r0 q Hrep. simpl.
  destruct (decide (r = r0)) as [->|Hne].
  - intros Hq. apply list_lookup_insert_Some in Hq as [(_ & <- & _)|[? _]]; done.
  - rewrite list_lookup_insert_ne by done. by apply Hreply.
Qed.

(** A failing transfer: [handle_error] reports it and moves on, and the
    [finished] signal of the reply that follows finds [self.reply] cleared. *)
Lemma fails_inv (r code : nat) (s : string) (w : World) :
  counts_ok w →
  let w1 := handle_error (OtherNetworkError code) (stop r (OtherNetworkError code) s w) in
  counts_ok (handle_finished None w1) ∧ reply_ok (handle_finished None w1).
Proof.
  intros Hcounts. pose proof Hcounts as (Hc&Ht&Hi&Hr&Hl&Hor&Hfin).
  unfold handle_error. simpl. rewrite Hc.
  destruct (urls (self w) !! current_index (self w)) as [url|] eqn:Hurl.
  - apply lookup_lt_Some in Hurl.
    destruct (reply (self w)) as [r0|] eqn:Hrep; simpl.
    + destruct (_ !! r0) as [q|] eqn:Hq.
      * set (w2 := emit _ _).
        assert (Hclosing : closing w2).
        { unfold closing, w2. simpl. split_and!; try done; [lia | lia | |].
          - right. apply errors_seen_emitted. left. by eexists _, _.
          - by apply (finished_ok_emit (error _) (stop _ _ _ w)). }
        apply closing_inv in Hclosing as [Hcounts' Hreply'].
        assert (Hnone : reply (self (cleanup_and_continue w2)) = None).
        { unfold cleanup_and_continue, w2. simpl. by rewrite Hrep. }
        unfold handle_finished. by rewrite Hnone.
      * unfold handle_finished. simpl. rewrite Hrep. simpl. rewrite Hq.
        split; [done|]. intros r1 q1. simpl. rewrite Hrep. intros [= <-]. by rewrite Hq.
    + unfold handle_finished. simpl. rewrite Hrep. simpl.
      split; [done|]. intros r1 q1. simpl. by rewrite Hrep.
  - apply lookup_ge_None in Hurl.
    assert (Hrep : reply (self w) = None).
    { destruct (reply (self w)) eqn:Hrep; [|done]. assert (is_Some (Some n)) as ?%Hr by done. lia. }
    unfold handle_finished. simpl. rewrite Hrep. simpl.
    split; [done|]. intros r1 q1. simpl. by rewrite Hrep.
Qed.

Lemma step_inv (w : World) (ev : Event) :
  is_cancel ev = false →
  counts_ok w → reply_ok w →
  counts_ok (step qurl_path w ev) ∧ reply_ok (step qurl_path w ev).
Proof.
  intros Hev Hcounts Hreply. pose proof Hcounts as (Hc&_).
  destruct ev as [|r a b|r errors|r save|r code s|]; simpl; [| | | | |done].
  - destruct (deferred w); [done|]. by apply download_next_inv.
  - destruct (running r w); [|done].
    unfold handle_download_progress. rewrite Hc.
    destruct (b >? 0); [|done].
    split; [by apply counts_ok_emit | done].
  - destruct (running r w); [|done].
    split; [by apply counts_ok_emit | done].
  - destruct (running r w); [|done].
    apply handle_finished_inv; [done | by apply reply_ok_stop].
  - destruct (running r w); [|done]. by apply fails_inv.
Qed.

Lemma run_inv (script : list Event) :
  ∀ w, forallb (negb ∘ is_cancel) script = true →
    counts_ok w → reply_ok w →
    counts_ok (run qurl_path script w) ∧ reply_ok (run qurl_path script w).
Proof.
  induction script as [|ev script IH]; intros w Hscript Hcounts Hreply; [done|].
  simpl in Hscript. apply andb_prop in Hscript as [Hev Hscript].
  apply negb_true_iff in Hev.
  destruct (step_inv w ev Hev Hcounts Hreply).
  by apply IH.
Qed.

Lemma start_inv (urls : list string) (dest : string) :
  counts_ok (start (initial urls dest)) ∧ reply_ok (start (initial urls dest)).
Proof.
  split; [|done]. unfold counts_ok. simpl. split_and!; try done; [lia | by left |].
  intros d l Hin. apply list_elem_of_singleton in Hin. done.
Qed.

(** No slot changes [total_urls]. *)
Lemma cleanup_total_urls (w : World) :
  total_urls (self (cleanup_and_continue w)) = total_urls (self w).
Proof. unfold cleanup_and_continue. by destruct (reply (self w)). Qed.

Lemma handle_finished_total_urls (save : option string) (w : World) :
  total_urls (self (handle_finished save w)) = total_urls (self w).
Proof.
  unfold handle_finished. repeat case_match; rewrite ?cleanup_total_urls; done.
Qed.

Lemma handle_error_total_urls (code : NetworkError) (w : World) :
  total_urls (self (handle_error code w)) = total_urls (self w).
Proof.
  unfold handle_error. repeat case_match; rewrite ?cleanup_total_urls; done.
Qed.

Lemma abort_total_urls (r : nat) (w : World) :
  total_urls (self (abort r w)) = total_urls (self w).
Proof.
  unfold abort. repeat case_match;
    rewrite ?handle_finished_total_urls, ?handle_error_total_urls; done.
Qed.

Lemma step_total_urls (w : World) (ev : Event) :
  total_urls (self (step qurl_path w ev)) = total_urls (self w).
Proof.
  destruct ev; simpl;
    unfold download_next, handle_download_progress, cancel;
    repeat case_match;
    rewrite ?handle_finished_total_urls, ?handle_error_total_urls, ?abort_total_urls;
    done.
Qed.

Lemma run_total_urls (script : list Event) (w : World) :
  total_urls (self (run qurl_path script w)) = total_urls (self w).
Proof.
  revert w. induction script as [|ev script IH]; intros w; [done|].
  change (run qurl_path (ev :: script) w) with (run qurl_path script (step qurl_path w ev)).
  by rewrite IH, step_total_urls.
Qed.

Lemma no_cancel_forallb (script : list Event) :
  Cancel ∉ script → forallb (negb ∘ is_cancel) script = true.
Proof.
  induction script as [|ev script IH]; [done|].
  intros [Hne Hrest]%not_elem_of_cons. simpl. rewrite IH by done.
  by destruct ev.
Qed.

(** *** Every run *)

Lemma bounded_emit (N : nat) (s : Signal) (w : World) :
  is_finished s = false → paths_bounded N w → paths_bounded N (emit s w).
Proof.
  intros Hs (?&?&?&Hfin). unfold paths_bounded. simpl. split_and!; try done.
  intros d l [Hin|Hin%list_elem_of_singleton]%elem_of_app; [by eapply Hfin | by subst].
Qed.

Lemma bounded_emit_finished (N : nat) (w : World) :
  paths_bounded N w → paths_bounded N (emit_finished w).
Proof.
  intros (?&?&?&Hfin). unfold paths_bounded, emit_finished. simpl. split_and!; try done.
  intros d l [Hin|Hin%list_elem_of_singleton]%elem_of_app; [by eapply Hfin|].
  by injection Hin as -> ->.
Qed.

Lemma bounded_escapes (N : nat) (e : PyExc) (w : World) :
  paths_bounded N w → paths_bounded N (escapes e w).
Proof. done. Qed.

Lemma bounded_cleanup (N : nat) (w : World) :
  paths_bounded N w → paths_bounded N (cleanup_and_continue w).
Proof.
  intros (?&?&?&Hfin). unfold paths_bounded, cleanup_and_continue.
  destruct (reply (self w)); simpl; (split_and!; [done | lia | done |]);
    (intros d l [Hin|Hin%list_elem_of_singleton]%elem_of_app;
     [by eapply Hfin | by subst]).
Qed.

Lemma bounded_download_next (N : nat) (w : World) :
  paths_bounded N w → paths_bounded N (download_next qurl_path w).
Proof.
  intros Hw. unfold download_next.
  destruct (_is_canceled (self w)); [by apply bounded_emit_finished|].
  destruct (_ <=? _)%nat; [by apply bounded_emit_finished|].
  destruct (urls (self w) !! current_index (self w)); [|done].
  by apply (bounded_emit N (file_started _ _) w).
Qed.

Lemma bounded_handle_finished (N : nat) (save : option string) (w : World) :
  paths_bounded N w → paths_bounded N (handle_finished save w).
Proof.
  intros Hw. unfold handle_finished.
  destruct (reply (self w) ≫= _) as [q|]; [|done].
  case_bool_decide; [by apply bounded_cleanup|].
  destruct (urls (self w) !! current_index (self w)) as [url|] eqn:Hurl; [|done].
  apply lookup_lt_Some in Hurl.
  destruct save as [e|].
  - by apply bounded_cleanup, (bounded_emit N (error _) w).
  - destruct Hw as (HN&Hle&?&Hfin).
    assert (Hcl : ∀ w0, length (urls (self w0)) = N →
      (length (zip_files_downloaded (self w0)) ≤ S (current_index (self w0)))%nat →
      (length (zip_files_downloaded (self w0)) ≤ N)%nat →
      (∀ d l, finished d l ∈ signals w0 → (length l ≤ N)%nat) →
      paths_bounded N (cleanup_and_continue w0)).
    { clear. intros w0 ? ? ? Hfin. unfold paths_bounded, cleanup_and_continue.
      destruct (reply (self w0)); simpl; (split_and!; [done | lia | done |]);
        (intros d l [Hin|Hin%list_elem_of_singleton]%elem_of_app;
         [by eapply Hfin | by subst]). }
    apply Hcl; simpl; rewrite ?length_app; simpl; [done | lia | lia |].
    intros d l [Hin|Hin%list_elem_of_singleton]%elem_of_app; [by eapply Hfin | by subst].
Qed.

Lemma bounded_handle_error (N : nat) (code : NetworkError) (w : World) :
  paths_bounded N w → paths_bounded N (handle_error code w).
Proof.
  intros Hw. unfold handle_error.
  destruct (_is_canceled (self w)); [by apply bounded_emit_finished|].
  destruct (urls (self w) !! current_index (self w)); [|done].
  destruct (reply (self w) ≫= _); [|done].
  by apply bounded_cleanup, (bounded_emit N (error _) w).
Qed.

Lemma bounded_abort (N : nat) (r : nat) (w : World) :
  paths_bounded N w → paths_bounded N (abort r w).
Proof.
  intros Hw. unfold abort. destruct (replies w !! r) as [q|]; [|done].
  destruct (isRunning q); [|done].
  by apply bounded_handle_finished, bounded_handle_error.
Qed.

Lemma bounded_step (N : nat) (w : World) (ev : Event) :
  paths_bounded N w → paths_bounded N (step qurl_path w ev).
Proof.
  intros Hw. destruct ev as [|r a b|r errors|r save|r code es|]; simpl.
  - destruct (deferred w); [done|]. by apply bounded_download_next.
  - destruct (running r w); [|done]. unfold handle_download_progress.
    destruct (_is_canceled (self w)).
    + destruct (reply (self w)); [by apply bounded_abort | done].
    + destruct (b >? 0); [|done]. by apply (bounded_emit N (download_progress _ _) w).
  - destruct (running r w); [|done]. by apply (bounded_emit N (error _) w).
  - destruct (running r w); [|done]. by apply bounded_handle_finished.
  - destruct (running r w); [|done].
    by apply bounded_handle_finished, bounded_handle_error.
  - unfold cancel. cbn [set_self self reply set_canceled].
    destruct (reply (self w)); [|done]. by apply bounded_abort.
Qed.

Lemma bounded_run (N : nat) (script : list Event) (w : World) :
  paths_bounded N w → paths_bounded N (run qurl_path script w).
Proof.
  revert w. induction script as [|ev script IH]; intros w Hw; [done|].
  change (run qurl_path (ev :: script) w) with (run qurl_path script (step qurl_path w ev)).
  by apply IH, bounded_step.
Qed.

(** *** The claims about runs of the download worker *)

(** C3, at an input where it fails. One locator; [cancel()] is called while
    its transfer is running. [abort()] makes the reply emit [errorOccurred],
    on which [handle_error] emits [finished], and then its own [finished],
    on which [handle_finished] calls [cleanup_and_continue]; the
    [download_next] this schedules sees the flag and emits [finished] again. *)
Theorem finished_twice_after_cancel_in_flight :
  List.filter is_finished
    (signals (run_worker qurl_path ["http://h/a.zip"] "/d" [Turn; Cancel; Turn]))
  = [finished "/d" []; finished "/d" []].
Proof. reflexivity. Qed.

(** C7, amended. In every run, cancelled or not, a [finished] signal
    carries at most as many paths as there are locators; and in a run in
    which [cancel()] is not called it carries fewer only if a transport
    error or a write error was reported. *)
Theorem completed_paths_bound (urls : list string) (dest : string) (script : list Event)
    (d : string) (l : list string) :
  finished d l ∈ signals (run_worker qurl_path urls dest script) →
  (length l ≤ length urls)%nat ∧
  (Cancel ∉ script →
   (length l < length urls)%nat →
   ∃ s, s ∈ signals (run_worker qurl_path urls dest script) ∧ item_error s).
Proof.
  intros Hin. unfold run_worker in *. split.
  - assert (Hstart : paths_bounded (length urls) (start (initial urls dest))).
    { unfold paths_bounded. simpl. split_and!; try done; [lia|].
      intros d0 l0 Hin0%list_elem_of_singleton. done. }
    destruct (bounded_run (length urls) script _ Hstart) as (_&_&_&Hfin).
    by eapply Hfin.
  - intros Hscript%no_cancel_forallb.
    destruct (start_inv urls dest) as [Hcounts Hreply].
    destruct (run_inv script _ Hscript Hcounts Hreply) as [(_&_&_&_&_&_&Hfin) _].
    destruct (Hfin d l Hin) as [_ Herr].
    by rewrite run_total_urls in Herr.
Qed.

(** *** Cancelling between two items *)

Lemma run_app (s1 s2 : list Event) (w : World) :
  run qurl_path (s1 ++ s2) w = run qurl_path s2 (run qurl_path s1 w).
Proof. apply foldl_app. Qed.

Lemma items_events_snoc (items : list Item) (it : Item) :
  ∀ r, items_events r (items ++ [it]) =
    items_events r items ++ item_events (r + length items) it.
Proof.
  induction items as [|i items IH]; intros r.
  - simpl. by rewrite app_nil_r, Nat.add_0_r.
  - rewrite <-app_comm_cons. cbn [items_events length].
    by rewrite IH, Nat.add_succ_r, (assoc_L (++)).
Qed.

Lemma saved_paths_snoc (dest url : string) (urls : list string) (items : list Item) (it : Item) :
  urls !! length items = Some url →
  saved_paths dest urls (items ++ [it]) =
    saved_paths dest urls items ++ option_list (saved_path dest url it).
Proof.
  unfold saved_paths. revert urls.
  induction items as [|i items IH]; intros [|u urls] Hurl; simplify_eq/=.
  - assert (zip urls ([] : list Item) = []) as -> by (by destruct urls).
    by destruct (saved_path dest url it).
  - rewrite (IH urls Hurl). by destruct (saved_path dest u i).
Qed.

(** The turn of the event loop that starts item [k]. *)
Lemma turn_starts_item (urls : list string) (dest url : string) (k : nat)
    (paths : list string) (R : list QNetworkReply) (sigs : list Signal) (U : list PyExc) :
  urls !! k = Some url →
  step qurl_path (idle urls dest k paths R sigs U) Turn =
    in_flight urls dest k paths R
      (sigs ++ [file_started (Py.basename (qurl_path url)) k]) U.
Proof.
  intros Hurl. pose proof (lookup_lt_Some _ _ _ Hurl) as Hlt.
  unfold idle, in_flight, holding. simpl. unfold download_next. simpl.
  destruct (Nat.leb_spec (length urls) k); [lia|]. by rewrite Hurl.
Qed.

Ltac world_simpl :=
  unfold cleanup_and_continue, emit_finished, write_error_msg, transport_error_msg;
  unfold set_deferred, set_self, set_replies, emit, escapes;
  unfold set_reply, incr_current_index, append_downloaded, set_canceled;
  simpl.

Lemma running_in_flight (urls : list string) (dest : string) (k : nat)
    (paths : list string) (R : list QNetworkReply) (sigs : list Signal) (U : list PyExc) :
  running (length R) (in_flight urls dest k paths R sigs U) = true.
Proof. unfold running, in_flight, holding. simpl. by rewrite list_lookup_middle. Qed.

(** The progress reports of a transfer only emit [download_progress]. *)
Lemma reports_keep_in_flight (urls : list string) (dest : string) (k : nat)
    (paths : list string) (R : list QNetworkReply) (U : list PyExc)
    (reps : list (Z * Z)) :
  ∀ sigs, ∃ extra,
    run qurl_path ((λ ab, Progress (length R) ab.1 ab.2) <$> reps)
        (in_flight urls dest k paths R sigs U)
      = in_flight urls dest k paths R (sigs ++ extra) U ∧
    Forall quiet extra.
Proof.
  induction reps as [|[a b] reps IH]; intros sigs.
  - exists []. by rewrite app_nil_r.
  - rewrite fmap_cons.
    change (run qurl_path (?ev :: ?s) ?w) with (run qurl_path s (step qurl_path w ev)).
    cbn [step fst snd]. rewrite running_in_flight.
    unfold handle_download_progress. cbn [in_flight holding self _is_canceled].
    destruct (b >? 0).
    + destruct (IH (sigs ++ [download_progress (int32 a) (int32 b)]))
        as (extra & Hrun & Hquiet).
      exists (download_progress (int32 a) (int32 b) :: extra). split.
      * change (emit (download_progress (int32 a) (int32 b)) ?w)
          with (in_flight urls dest k paths R
                  (sigs ++ [download_progress (int32 a) (int32 b)]) U).
        by rewrite Hrun, <-(assoc_L (++)).
      * constructor; [by split|done].
    + apply IH.
Qed.

Lemma stop_holding (q : QNetworkReply) (e : NetworkError) (es : string)
    (urls : list string) (dest : string) (k : nat) (paths : list string)
    (R : list QNetworkReply) (sigs : list Signal) (U : list PyExc) :
  stop (length R) e es (holding q urls dest k paths R sigs U)
  = holding (mkReply e es false) urls dest k paths R sigs U.
Proof.
  unfold stop, holding, set_replies. simpl. f_equal.
  by rewrite insert_app_r_alt, Nat.sub_diag.
Qed.

Lemma handle_finished_holding (q : QNetworkReply) (save : option string)
    (urls : list string) (dest url : string) (k : nat) (paths : list string)
    (R : list QNetworkReply) (sigs : list Signal) (U : list PyExc) :
  reply_error q = NoError →
  urls !! k = Some url →
  handle_finished save (holding q urls dest k paths R sigs U)
  = idle urls dest (S k)
      (paths ++ match save with None => [Py.join dest (Py.basename url)] | Some _ => [] end)
      (R ++ [q])
      (sigs ++ [match save with
                | None => started ("Arquivo salvo com sucesso: " +:+ Py.basename url)
                | Some e => error (write_error_msg (Py.basename url) e)
                end; file_finished]) U.
Proof.
  intros Hq Hurl. unfold handle_finished, holding. simpl.
  rewrite list_lookup_middle by done. simpl. rewrite Hq, Hurl. simpl.
  destruct save; unfold idle; world_simpl;
    by rewrite <-?(assoc_L (++)), ?app_nil_r.
Qed.

Lemma handle_error_holding (q : QNetworkReply) (code : NetworkError)
    (urls : list string) (dest url : string) (k : nat) (paths : list string)
    (R : list QNetworkReply) (sigs : list Signal) (U : list PyExc) :
  urls !! k = Some url →
  handle_error code (holding q urls dest k paths R sigs U)
  = idle urls dest (S k) paths (R ++ [q])
      (sigs ++ [error (transport_error_msg url (errorString q)); file_finished]) U.
Proof.
  intros Hurl. unfold handle_error, holding. simpl.
  rewrite Hurl, list_lookup_middle by done. simpl.
  unfold idle; world_simpl. by rewrite <-?(assoc_L (++)).
Qed.

Lemma handle_finished_idle (save : option string)
    (urls : list string) (dest : string) (k : nat) (paths : list string)
    (R : list QNetworkReply) (sigs : list Signal) (U : list PyExc) :
  handle_finished save (idle urls dest k paths R sigs U)
  = idle urls dest k paths R sigs (U ++ [AttributeError]).
Proof. reflexivity. Qed.

(** The end of a transfer that is not interrupted: the worker is idle
    again, one item further, with the path appended if the file was saved. *)
Lemma ending_returns_to_idle (urls : list string) (dest url : string) (k : nat)
    (paths : list string) (R : list QNetworkReply) (sigs : list Signal) (U : list PyExc)
    (it : Item) :
  urls !! k = Some url →
  ∃ R' extra U',
    step qurl_path (in_flight urls dest k paths R sigs U)
        (ending_event (length R) (ending it))
      = idle urls dest (S k) (paths ++ option_list (saved_path dest url it)) R' (sigs ++ extra) U' ∧
    length R' = S (length R) ∧
    Forall quiet extra.
Proof.
  intros Hurl. unfold saved_path.
  destruct (ending it) as [|e|code es]; cbn [ending_event step];
    rewrite running_in_flight; unfold in_flight; rewrite stop_holding.
  - rewrite (handle_finished_holding _ None _ _ url) by done.
    eexists _, [_; _], _. split_and!; [done | by rewrite length_app, Nat.add_1_r |].
    by repeat constructor.
  - rewrite (handle_finished_holding _ (Some e) _ _ url) by done.
    eexists _, [_; _], _. split_and!; [done | by rewrite length_app, Nat.add_1_r |].
    by repeat constructor.
  - rewrite (handle_error_holding _ _ _ _ url) by done. rewrite handle_finished_idle.
    eexists _, [_; _], _. split_and!;
      [by rewrite app_nil_r | by rewrite length_app, Nat.add_1_r |].
    by repeat constructor.
Qed.

Lemma filter_finished_quiet (extra : list Signal) :
  Forall quiet extra → List.filter is_finished extra = [].
Proof.
  induction 1 as [|s extra [Hs _] _ IH]; [done|]. simpl. by rewrite Hs.
Qed.

Lemma file_started_quiet (extra : list Signal) (name : string) (j : nat) :
  Forall quiet extra → file_started name j ∉ extra.
Proof.
  intros Hquiet Hin. eapply Forall_forall in Hquiet as [_ Hne]; [|done]. by eapply Hne.
Qed.

(** One more item. *)
Lemma between_item (urls : list string) (dest : string) (items : list Item) (it : Item)
    (w : World) :
  (length items < length urls)%nat →
  between urls dest items w →
  between urls dest (items ++ [it]) (run qurl_path (item_events (length items) it) w).
Proof.
  intros Hlt (R & sigs & U & -> & HR & Hfin & Hstarted).
  destruct (lookup_lt_is_Some_2 urls (length items) Hlt) as [url Hurl].
  unfold item_events.
  change (run qurl_path (Turn :: ?s) ?w) with (run qurl_path s (step qurl_path w Turn)).
  rewrite (turn_starts_item _ _ url) by done.
  rewrite run_app, <-HR.
  destruct (reports_keep_in_flight urls dest (length R) (saved_paths dest urls items) R U
    (reports it) (sigs ++ [file_started (Py.basename (qurl_path url)) (length R)]))
    as (extra1 & -> & Hq1).
  destruct (ending_returns_to_idle urls dest url (length R) (saved_paths dest urls items) R
    ((sigs ++ [file_started (Py.basename (qurl_path url)) (length R)]) ++ extra1) U it)
    as (R' & extra2 & U' & Hend & HR' & Hq2); [by rewrite HR|].
  cbn [run foldl]. rewrite Hend.
  exists R', (((sigs ++ [file_started (Py.basename (qurl_path url)) (length R)]) ++ extra1) ++ extra2), U'.
  rewrite length_app, Nat.add_1_r, <-HR. split_and!.
  - by rewrite (saved_paths_snoc dest url).
  - done.
  - by rewrite !List.filter_app, Hfin, (filter_finished_quiet extra1 Hq1),
      (filter_finished_quiet extra2 Hq2).
  - intros name j. rewrite !elem_of_app, list_elem_of_singleton.
    intros [[[Hin|[= _ ->]]|Hin]|Hin]; [| lia | by apply file_started_quiet in Hin..].
    apply Hstarted in Hin. lia.
Qed.

(** After [start()] and [k ≤ N] items the worker is between two items. *)
Lemma between_items (urls : list string) (dest : string) (items : list Item) :
  (length items ≤ length urls)%nat →
  between urls dest items (run_worker qurl_path urls dest (items_events 0 items)).
Proof.
  induction items as [|it items IH] using rev_ind; intros Hlen.
  - eexists [], [_], []. split_and!.
    + assert (saved_paths dest urls [] = []) as -> by (by destruct urls). reflexivity.
    + done.
    + done.
    + intros name j Hin. by apply list_elem_of_singleton in Hin.
  - rewrite length_app in Hlen. simpl in Hlen.
    unfold run_worker. rewrite items_events_snoc, run_app. simpl.
    apply between_item; [lia|]. apply IH. lia.
Qed.

Lemma saved_paths_all_saved (dest : string) (items : list Item) :
  Forall (λ it, ending it = Saved) items →
  ∀ urls, saved_paths dest urls items =
    (λ url, Py.join dest (Py.basename url)) <$> take (length items) urls.
Proof.
  unfold saved_paths.
  induction 1 as [|it items Hit _ IH]; intros [|url urls]; try done.
  simpl. unfold saved_path at 1. simpl. by rewrite Hit, IH.
Qed.

(** C8. [cancel()] before the first turn of the event loop: the run ends
    with [finished] carrying no path. [cancel()] after [k] items, before
    item [k + 1] is started: [finished] is emitted once, as the last signal,
    with the paths of the saved ones among the [k] items in order (all [k]
    of them if every item was saved), and no [file_started] is ever emitted
    for the locator at index [k]. *)
Theorem cancel_between_items (urls : list string) (dest : string) (items : list Item) :
  (length items ≤ length urls)%nat →
  List.filter is_finished (signals (run_worker qurl_path urls dest [Cancel; Turn]))
    = [finished dest []] ∧
  List.filter is_finished
    (signals (run_worker qurl_path urls dest (items_events 0 items ++ [Cancel; Turn])))
    = [finished dest (saved_paths dest urls items)] ∧
  last (signals (run_worker qurl_path urls dest (items_events 0 items ++ [Cancel; Turn])))
    = Some (finished dest (saved_paths dest urls items)) ∧
  (Forall (λ it, ending it = Saved) items →
   saved_paths dest urls items =
     (λ url, Py.join dest (Py.basename url)) <$> take (length items) urls) ∧
  (∀ name, ¬ (file_started name (length items) ∈
     signals (run_worker qurl_path urls dest (items_events 0 items ++ [Cancel; Turn])))).
Proof.
  intros Hlen. split; [done|].
  destruct (between_items urls dest items Hlen) as (R & sigs & U & Hrun & HR & Hfin & Hstarted).
  unfold run_worker in *. rewrite run_app, Hrun.
  change (signals (run qurl_path [Cancel; Turn] (idle urls dest (length items)
            (saved_paths dest urls items) R sigs U)))
    with (sigs ++ [finished dest (saved_paths dest urls items)]).
  split_and!.
  - by rewrite List.filter_app, Hfin.
  - by rewrite last_snoc.
  - intros Hall. by apply saved_paths_all_saved.
  - intros name [Hin|Hin%list_elem_of_singleton]%elem_of_app; [|done].
    apply Hstarted in Hin. lia.
Qed.

End Runs.

(** C7 as stated fails: [cancel()] before the first item ends the run with
    no path for one locator, and no error is reported. *)
Lemma cancelled_run_short_without_error :
  ¬ (∀ d l,
       finished d l ∈ signals (run_worker (λ url, url) ["http://h/a.zip"] "/d" [Cancel; Turn]) →
       (length l ≤ 1)%nat ∧
       ((length l < 1)%nat →
        ∃ s, s ∈ signals (run_worker (λ url, url) ["http://h/a.zip"] "/d" [Cancel; Turn]) ∧
          item_error s)).
Proof.
  intros Hclaim.
  destruct (Hclaim "/d" []) as [_ Herr]; [apply list_elem_of_In; vm_compute; auto|].
  destruct Herr as (s & Hin & Hs); [simpl; lia|].
  vm_compute in Hin.
  apply elem_of_cons in Hin as [->|Hin]; [by destruct Hs as [(?&?&?)|(?&?&?)]|].
  apply list_elem_of_singleton in Hin as ->. by destruct Hs as [(?&?&?)|(?&?&?)].
Qed.

Lemma completed_paths_bound_witness :
  finished "/d" [] ∈
    signals (run_worker (λ url, url) ["http://h/a.zip"; "http://h/b.zip"] "/d"
               [Turn; Fails 0 3 "Host not found"; Cancel; Turn]) ∧
  (length ([] : list string) ≤ length ["http://h/a.zip"; "http://h/b.zip"])%nat ∧
  finished "/d" ["/d/a.zip"] ∈
    signals (run_worker (λ url, url) ["http://h/a.zip"; "http://h/b.zip"] "/d"
               [Turn; Completes 0 None; Turn; Fails 1 3 "Host not found"; Turn]) ∧
  (Cancel ∉ [Turn; Completes 0 None; Turn; Fails 1 3 "Host not found"; Turn]) ∧
  (length ["/d/a.zip"] < length ["http://h/a.zip"; "http://h/b.zip"])%nat ∧
  ∃ s, s ∈ signals (run_worker (λ url, url) ["http://h/a.zip"; "http://h/b.zip"] "/d"
                      [Turn; Completes 0 None; Turn; Fails 1 3 "Host not found"; Turn]) ∧
    item_error s.
Proof.
  assert (Hin1 : finished "/d" [] ∈
    signals (run_worker (λ url, url) ["http://h/a.zip"; "http://h/b.zip"] "/d"
               [Turn; Fails 0 3 "Host not found"; Cancel; Turn])).
  { apply list_elem_of_In. vm_compute. auto 10. }
  assert (Hin2 : finished "/d" ["/d/a.zip"] ∈
    signals (run_worker (λ url, url) ["http://h/a.zip"; "http://h/b.zip"] "/d"
               [Turn; Completes 0 None; Turn; Fails 1 3 "Host not found"; Turn])).
  { apply list_elem_of_In. vm_compute. auto 20. }
  assert (Hscript : Cancel ∉ [Turn; Completes 0 None; Turn; Fails 1 3 "Host not found"; Turn]).
  { rewrite !not_elem_of_cons. split_and!; try done. apply not_elem_of_nil. }
  assert (Hlt : (length ["/d/a.zip"] < length ["http://h/a.zip"; "http://h/b.zip"])%nat)
    by (simpl; lia).
  split; [exact Hin1|]. split.
  { exact (proj1 (completed_paths_bound (λ url, url) ["http://h/a.zip"; "http://h/b.zip"] "/d"
                    [Turn; Fails 0 3 "Host not found"; Cancel; Turn] "/d" [] Hin1)). }
  split; [exact Hin2|]. split; [exact Hscript|]. split; [exact Hlt|].
  exact (proj2 (completed_paths_bound (λ url, url) ["http://h/a.zip"; "http://h/b.zip"] "/d"
                  [Turn; Completes 0 None; Turn; Fails 1 3 "Host not found"; Turn]
                  "/d" ["/d/a.zip"] Hin2) Hscript Hlt).
Defined.

Lemma cancel_between_items_witness :
  (length [mkItem [(10%Z, 20%Z)] Saved] ≤ length ["http://h/a.zip"; "http://h/b.zip"])%nat ∧
  List.filter is_finished
    (signals (run_worker (λ url, url) ["http://h/a.zip"; "http://h/b.zip"] "/d"
                (items_events 0 [mkItem [(10, 20)] Saved] ++ [Cancel; Turn])))
    = [finished "/d" ["/d/a.zip"]] ∧
  (∀ name, ¬ (file_started name 1 ∈
     signals (run_worker (λ url, url) ["http://h/a.zip"; "http://h/b.zip"] "/d"
                (items_events 0 [mkItem [(10, 20)] Saved] ++ [Cancel; Turn])))).
Proof.
  assert (Hlen : (length [mkItem [(10%Z, 20%Z)] Saved]
                  ≤ length ["http://h/a.zip"; "http://h/b.zip"])%nat) by (simpl; lia).
  split; [exact Hlen|].
  destruct (cancel_between_items (λ url, url) ["http://h/a.zip"; "http://h/b.zip"] "/d"
              [mkItem [(10, 20)] Saved] Hlen) as (_ & Hfin & _ & _ & Hstarted).
  split; [exact Hfin | exact Hstarted].
Defined.

End DownloadFacts.

(** ** The tile selection *)

Module SpatialFacts.
Import Spatial.

Lemma sorted_set_spec (codes : list string) :
  StronglySorted String.le (sorted_set codes) ∧
  NoDup (sorted_set codes) ∧
  ∀ c, c ∈ sorted_set codes ↔ c ∈ codes.
Proof.
  unfold sorted_set. split_and!.
  - apply (StronglySorted_merge_sort _).
  - rewrite merge_sort_Permutation. apply NoDup_elements.
  - intros c. by rewrite merge_sort_Permutation, elem_of_elements, elem_of_list_to_set.
Qed.

Section Analyze.

Context {Geometry CRS : Type} `{EqDecision CRS}.
Variable isEmpty : Geometry → bool.
Variable within : Geometry → Geometry → bool.
Variable intersects : Geometry → Geometry → bool.
Variable reproject : CRS → CRS → Geometry → Geometry.

(** What the geometry engine is taken to satisfy: two geometries
    intersect whichever is asked first, and a geometry within another
    intersects it. *)
Hypothesis intersects_sym : ∀ a b, intersects a b = intersects b a.
Hypothesis within_intersects : ∀ a b, within a b = true → intersects a b = true.

Lemma scan_grid_spec (poly_id : Z) (p : Geometry) (grid : list Feature) :
  (∀ f g, f ∈ grid → geometry f = Some g → isEmpty g = false →
     is_Some (attributes f !! "tile_code")) →
  ∀ results, ∃ rows,
    scan_grid isEmpty within intersects poly_id p grid results = Ok (results ++ rows) ∧
    ∀ c, c ∈ tile_code <$> rows ↔ ∃ f, f ∈ grid ∧ hit isEmpty within intersects p f c.
Proof.
  induction grid as [|f grid IH]; intros Hcodes results.
  { exists []. rewrite app_nil_r. split; [done|]. intros c. split.
    - by intros ?%elem_of_nil.
    - by intros (f & ?%elem_of_nil & _). }
  assert (Hrest : ∀ f0 g, f0 ∈ grid → geometry f0 = Some g → isEmpty g = false →
            is_Some (attributes f0 !! "tile_code")).
  { intros f0 g Hin. apply Hcodes. by right. }
  assert (Hskip : (∀ c, ¬ hit isEmpty within intersects p f c) →
    ∀ rows : list Row,
      (∀ c, c ∈ tile_code <$> rows ↔ ∃ f0, f0 ∈ grid ∧ hit isEmpty within intersects p f0 c) →
      ∀ c, c ∈ tile_code <$> rows ↔ ∃ f0, f0 ∈ f :: grid ∧ hit isEmpty within intersects p f0 c).
  { intros Hno rows Hrows c. rewrite Hrows. split.
    - intros (f0 & ? & ?). exists f0. split; [by right|done].
    - intros (f0 & [->|?]%elem_of_cons & ?); [by destruct (Hno c)|by exists f0]. }
  simpl. destruct (geometry f) as [g|] eqn:Hg.
  2:{ destruct (IH Hrest results) as (rows & -> & Hrows). exists rows. split; [done|].
      apply Hskip; [|done]. intros c (g & ? & _). congruence. }
  destruct (isEmpty g) eqn:He.
  { destruct (IH Hrest results) as (rows & -> & Hrows). exists rows. split; [done|].
    apply Hskip; [|done]. intros c (g' & ? & ? & _). congruence. }
  destruct (Hcodes f g) as [code Hcode]; [by left | done | done |].
  rewrite Hcode.
  assert (Hhit : ∀ rel (rows : list Row),
    (within p g = true ∨ intersects p g = true) →
    (∀ c, c ∈ tile_code <$> rows ↔ ∃ f0, f0 ∈ grid ∧ hit isEmpty within intersects p f0 c) →
    ∀ c, c ∈ tile_code <$> (mkRow poly_id code rel :: rows) ↔
      ∃ f0, f0 ∈ f :: grid ∧ hit isEmpty within intersects p f0 c).
  { intros rel rows Hrel Hrows c. rewrite fmap_cons, elem_of_cons, Hrows. simpl. split.
    - intros [->|(f0 & ? & ?)].
      + exists f. split; [by left|]. by exists g.
      + exists f0. split; [by right|done].
    - intros (f0 & [->|?]%elem_of_cons & Hf0); [|right; by exists f0].
      left. destruct Hf0 as (g' & ? & _ & ? & _). congruence. }
  destruct (within p g) eqn:Hw; [|destruct (intersects p g) eqn:Hi].
  - destruct (IH Hrest (results ++ [mkRow poly_id code Within])) as (rows & -> & Hrows).
    exists (mkRow poly_id code Within :: rows). rewrite <-(assoc_L (++)). split; [done|].
    apply Hhit; [by left | done].
  - destruct (IH Hrest (results ++ [mkRow poly_id code Intersects])) as (rows & -> & Hrows).
    exists (mkRow poly_id code Intersects :: rows). rewrite <-(assoc_L (++)). split; [done|].
    apply Hhit; [by right | done].
  - destruct (IH Hrest results) as (rows & -> & Hrows). exists rows. split; [done|].
    apply Hskip; [|done]. intros c (g' & ? & _ & _ & Hor).
    assert (g' = g) as -> by congruence. destruct Hor; congruence.
Qed.

Lemma scan_polygons_spec (transform : option (Geometry → Geometry))
    (polys grid : list Feature) :
  (∀ f g, f ∈ grid → geometry f = Some g → isEmpty g = false →
     is_Some (attributes f !! "tile_code")) →
  ∀ results, ∃ rows,
    scan_polygons isEmpty within intersects transform polys grid results
      = Ok (results ++ rows) ∧
    ∀ c, c ∈ tile_code <$> rows ↔
      ∃ pf g0 f, pf ∈ polys ∧ geometry pf = Some g0 ∧ isEmpty g0 = false ∧ f ∈ grid ∧
        hit isEmpty within intersects
          (match transform with Some t => t g0 | None => g0 end) f c.
Proof.
  intros Hcodes. induction polys as [|pf polys IH]; intros results.
  { exists []. rewrite app_nil_r. split; [done|]. intros c. split.
    - by intros ?%elem_of_nil.
    - by intros (? & ? & ? & ?%elem_of_nil & _). }
  assert (Hskip : (∀ g0, geometry pf = Some g0 → isEmpty g0 = true) →
    ∃ rows, scan_polygons isEmpty within intersects transform (pf :: polys) grid results
        = Ok (results ++ rows) ∧
      ∀ c, c ∈ tile_code <$> rows ↔
        ∃ pf0 g0 f, pf0 ∈ pf :: polys ∧ geometry pf0 = Some g0 ∧ isEmpty g0 = false ∧
          f ∈ grid ∧
          hit isEmpty within intersects
            (match transform with Some t => t g0 | None => g0 end) f c).
  { intros Hblank. destruct (IH results) as (rows & Hrun & Hrows). exists rows. split.
    - simpl. destruct (geometry pf) as [g0|]; [|done]. by rewrite (Hblank g0).
    - intros c. rewrite Hrows. split.
      + intros (pf0 & g0 & f & ? & ?). exists pf0, g0, f. split; [by right|done].
      + intros (pf0 & g0 & f & [->|?]%elem_of_cons & Hg & He & ?).
        * rewrite (Hblank g0 Hg) in He. done.
        * by exists pf0, g0, f. }
  destruct (geometry pf) as [g0|] eqn:Hg; [|by apply Hskip].
  destruct (isEmpty g0) eqn:He; [apply Hskip; congruence|].
  simpl. rewrite Hg, He.
  destruct (scan_grid_spec (id pf) (match transform with Some t => t g0 | None => g0 end)
              grid Hcodes results) as (rows1 & -> & Hrows1).
  destruct (IH (results ++ rows1)) as (rows2 & -> & Hrows2).
  exists (rows1 ++ rows2). rewrite (assoc_L (++)). split; [done|].
  intros c. rewrite fmap_app, elem_of_app, Hrows1, Hrows2. split.
  - intros [(f & ? & ?)|(pf0 & g1 & f & ? & ?)].
    + exists pf, g0, f. split; [by left|done].
    + exists pf0, g1, f. split; [by right|done].
  - intros (pf0 & g1 & f & [->|?]%elem_of_cons & Hg1 & ? & ? & ?).
    + left. exists f. assert (g1 = g0) as -> by congruence. done.
    + right. by exists pf0, g1, f.
Qed.

(** For the engine as assumed, “the polygon is within the cell or
    intersects it”, which the loop tests, and “the cell is within the
    polygon or intersects it” say the same. *)
Lemma touches_sym (p g : Geometry) :
  (within p g = true ∨ intersects p g = true) ↔
  (within g p = true ∨ intersects g p = true).
Proof.
  split.
  - intros [Hw%within_intersects|Hi]; right; by rewrite intersects_sym.
  - intros [Hw%within_intersects|Hi]; right; by rewrite intersects_sym.
Qed.

(** C9, amended. For valid layers whose grid features carry the field
    [tile_code], the function returns the sorted list, without duplicates,
    of the tile codes of exactly the grid cells that are within a polygon of
    the polygon layer or intersect one. *)
Theorem analyze_selects_tiles (open_layer : string → QgsVectorLayer)
    (polygon_path grid_path : string) :
  isValid (open_layer polygon_path) = true →
  isValid (open_layer grid_path) = true →
  has_tile_codes isEmpty (open_layer grid_path) →
  ∃ codes,
    analyze_polygon_against_grid isEmpty within intersects reproject
      open_layer polygon_path grid_path = Ok codes ∧
    StronglySorted String.le codes ∧
    NoDup codes ∧
    ∀ c, c ∈ codes ↔
      selected isEmpty within intersects reproject
        (open_layer polygon_path) (open_layer grid_path) c.
Proof.
  intros Hpoly Hgrid Hcodes. unfold analyze_polygon_against_grid.
  rewrite Hpoly, Hgrid. simpl.
  set (transform := if bool_decide (crs (open_layer polygon_path) ≠ crs (open_layer grid_path))
                    then Some (reproject (crs (open_layer polygon_path)) (crs (open_layer grid_path)))
                    else None).
  destruct (scan_polygons_spec transform (getFeatures (open_layer polygon_path))
              (getFeatures (open_layer grid_path)) Hcodes []) as (rows & -> & Hrows).
  destruct (sorted_set_spec (tile_code <$> rows)) as (Hsorted & Hnodup & Hmem).
  eexists. split; [done|]. split; [done|]. split; [done|].
  intros c. rewrite Hmem, Hrows. unfold selected, cell, region_part, hit. split.
  - intros (pf & g0 & f & ? & ? & ? & ? & g & ? & ? & ? & Htouch).
    exists g, (match transform with Some t => t g0 | None => g0 end).
    split; [by exists f|]. split.
    + exists pf, g0. split_and!; try done. unfold transform. by case_bool_decide.
    + by apply touches_sym.
  - intros (g & p & (f & ? & ? & ? & ?) & (pf & g0 & ? & ? & ? & ->) & Htouch).
    exists pf, g0, f. split_and!; try done. exists g. split_and!; try done.
    apply touches_sym. unfold transform. by case_bool_decide.
Qed.

End Analyze.

(** *** The small engine *)

Lemma toy_intersects_sym (a b : list nat) : toy_intersects a b = toy_intersects b a.
Proof.
  unfold toy_intersects. apply bool_decide_ext. rewrite !Exists_exists.
  split; intros (c & ? & ?); by exists c.
Qed.

Lemma toy_within_intersects (a b : list nat) :
  toy_within a b = true → toy_intersects a b = true.
Proof.
  unfold toy_within, toy_intersects. rewrite !bool_decide_eq_true.
  intros [Hne Hall]. destruct a as [|x a]; [done|].
  apply Exists_cons_hd. by apply Forall_cons in Hall as [? _].
Qed.

(** C9 as stated fails: both layers are valid, the polygon meets the only
    grid cell, the cell has no field [tile_code], and the function raises. *)
Lemma analyze_raises_without_tile_code :
  isValid (toy_layers [shape 1 [2; 3]%nat] [shape 7 [3; 4]%nat] "poly") = true ∧
  isValid (toy_layers [shape 1 [2; 3]%nat] [shape 7 [3; 4]%nat] "grid") = true ∧
  ¬ ∃ codes, toy_analyze [shape 1 [2; 3]%nat] [shape 7 [3; 4]%nat] = Ok codes.
Proof.
  split; [done|]. split; [done|]. intros [codes Hrun]. vm_compute in Hrun. done.
Qed.

Lemma analyze_selects_tiles_witness :
  isValid (toy_layers [shape 1 [2; 3; 4]%nat] [tile 1 [0; 1; 2]%nat "B"; tile 2 [3; 4; 5]%nat "A"; tile 3 [6; 7]%nat "C"] "poly") = true ∧
  isValid (toy_layers [shape 1 [2; 3; 4]%nat] [tile 1 [0; 1; 2]%nat "B"; tile 2 [3; 4; 5]%nat "A"; tile 3 [6; 7]%nat "C"] "grid") = true ∧
  has_tile_codes toy_isEmpty
    (toy_layers [shape 1 [2; 3; 4]%nat] [tile 1 [0; 1; 2]%nat "B"; tile 2 [3; 4; 5]%nat "A"; tile 3 [6; 7]%nat "C"] "grid") ∧
  ∃ codes,
    toy_analyze [shape 1 [2; 3; 4]%nat] [tile 1 [0; 1; 2]%nat "B"; tile 2 [3; 4; 5]%nat "A"; tile 3 [6; 7]%nat "C"] = Ok codes ∧
    StronglySorted String.le codes ∧
    NoDup codes ∧
    ∀ c, c ∈ codes ↔
      selected toy_isEmpty toy_within toy_intersects toy_reproject
        (toy_layers [shape 1 [2; 3; 4]%nat] [tile 1 [0; 1; 2]%nat "B"; tile 2 [3; 4; 5]%nat "A"; tile 3 [6; 7]%nat "C"] "poly")
        (toy_layers [shape 1 [2; 3; 4]%nat] [tile 1 [0; 1; 2]%nat "B"; tile 2 [3; 4; 5]%nat "A"; tile 3 [6; 7]%nat "C"] "grid") c.
Proof.
  assert (Hcodes : has_tile_codes toy_isEmpty
    (toy_layers [shape 1 [2; 3; 4]%nat] [tile 1 [0; 1; 2]%nat "B"; tile 2 [3; 4; 5]%nat "A"; tile 3 [6; 7]%nat "C"] "grid")).
  { intros f g Hin _ _. simpl in Hin.
    repeat (apply elem_of_cons in Hin as [->|Hin]; [by eexists|]).
    by apply elem_of_nil in Hin. }
  split; [done|]. split; [done|]. split; [exact Hcodes|].
  exact (analyze_selects_tiles toy_isEmpty toy_within toy_intersects toy_reproject
           toy_intersects_sym toy_within_intersects
           (toy_layers [shape 1 [2; 3; 4]%nat] [tile 1 [0; 1; 2]%nat "B"; tile 2 [3; 4; 5]%nat "A"; tile 3 [6; 7]%nat "C"])
           "poly" "grid" eq_refl eq_refl Hcodes).
Defined.

End SpatialFacts.

(** ** More about paths *)

Module PyFacts.

Lemma str_take_drop (n : nat) (s : string) : Py.str_take n s +:+ Py.str_drop n s = s.
Proof.
  revert s. induction n as [|n IH]; intros [|c s]; try done.
  simpl. rewrite str_app_cons. by rewrite IH.
Qed.

Lemma rfind_ge (c : ascii) (s : string) : -1 ≤ Py.rfind c s.
Proof.
  induction s as [|d s IH]; simpl; [lia|].
  destruct (Z.leb_spec 0 (Py.rfind c s)); [lia|]. case_bool_decide; lia.
Qed.

Lemma rfind_lt (c : ascii) (s : string) : Py.rfind c s < Z.of_nat (String.length s).
Proof.
  induction s as [|d s IH]; simpl; [lia|].
  destruct (Z.leb_spec 0 (Py.rfind c s)); [lia|]. case_bool_decide; lia.
Qed.

Lemma rfind_app_found (c : ascii) (a b : string) : 0 ≤ Py.rfind c (a +:+ String c b).
Proof.
  induction a as [|d a IH].
  - rewrite str_app_nil_l. simpl.
    destruct (Z.leb_spec 0 (Py.rfind c b)); [lia|]. by rewrite bool_decide_true.
  - rewrite str_app_cons. simpl.
    destruct (Z.leb_spec 0 (Py.rfind c (a +:+ String c b))); lia.
Qed.

Lemma basename_cons_found (d : ascii) (s : string) :
  0 ≤ Py.rfind Py.sep s → Py.basename (String d s) = Py.basename s.
Proof.
  intros Hr. unfold Py.basename, Py.slice_from. simpl.
  destruct (Z.leb_spec 0 (Py.rfind Py.sep s)); [|lia].
  replace (Py.rfind Py.sep s + 1 + 1) with (Z.succ (Py.rfind Py.sep s + 1)) by lia.
  by rewrite Z2Nat.inj_succ by lia.
Qed.

(** The base name of [a/b] is the base name of [b]. *)
Lemma basename_app_sep (a b : string) :
  Py.basename (a +:+ String Py.sep b) = Py.basename b.
Proof.
  induction a as [|d a IH].
  - rewrite str_app_nil_l. pose proof (rfind_ge Py.sep b).
    destruct (Z.leb_spec 0 (Py.rfind Py.sep b)) as [Hr|Hr].
    + by apply basename_cons_found.
    + unfold Py.basename, Py.slice_from. simpl.
      destruct (Z.leb_spec 0 (Py.rfind Py.sep b)); [lia|].
      by replace (Py.rfind Py.sep b) with (-1) by lia.
  - rewrite str_app_cons, basename_cons_found; [done | apply rfind_app_found].
Qed.

Lemma endswith_sep_split (a : string) :
  Py.endswith "/" a = true → ∃ a', a = a' +:+ "/".
Proof.
  unfold Py.endswith. intros Hend%bool_decide_eq_true.
  exists (Py.str_take (String.length a - String.length "/") a).
  rewrite <-Hend at 2. by rewrite str_take_drop.
Qed.

(** X1. [basename(join(a, b)) = basename(b)]: joining a name to a
    directory does not change its base name. *)
Theorem basename_join (a b : string) : Py.basename (Py.join a b) = Py.basename b.
Proof.
  unfold Py.join. destruct (Py.startswith "/" b); [done|].
  destruct (bool_decide (a = "") || Py.endswith "/" a) eqn:Hcase.
  - apply orb_true_iff in Hcase as [->%bool_decide_eq_true|Hend]; [done|].
    destruct (endswith_sep_split a Hend) as [a' ->].
    assert ((a' +:+ "/") +:+ b = a' +:+ String Py.sep b) as ->.
    { clear. induction a' as [|d a' IH]; [reflexivity|].
      change ((String d a' +:+ "/") +:+ b) with (String d ((a' +:+ "/") +:+ b)).
      by rewrite IH. }
    apply basename_app_sep.
  - apply (basename_app_sep a b).
Qed.

(** X2. [splitext] cuts a path in two: root and extension put together
    give the path back. *)
Theorem splitext_concat (p : string) :
  (Py.splitext p).1 +:+ (Py.splitext p).2 = p.
Proof.
  assert (Hnil : p +:+ "" = p).
  { induction p as [|c p IH]; [done|]. by rewrite str_app_cons, IH. }
  unfold Py.splitext. destruct (Z.ltb _ _); [|done].
  destruct (Py.has_non_dot _ _ _); [|done].
  apply str_take_drop.
Qed.

(** X3. A base name holds no separator. *)
Theorem basename_no_sep (p : string) : Py.rfind Py.sep (Py.basename p) = -1.
Proof.
  induction p as [|d p IH]; [done|].
  pose proof (rfind_ge Py.sep p).
  destruct (Z.leb_spec 0 (Py.rfind Py.sep p)) as [Hr|Hr].
  - by rewrite basename_cons_found.
  - unfold Py.basename, Py.slice_from. simpl.
    destruct (Z.leb_spec 0 (Py.rfind Py.sep p)); [lia|].
    case_bool_decide; simpl.
    + lia.
    + destruct (Z.leb_spec 0 (Py.rfind Py.sep p)); [lia|].
      by rewrite bool_decide_false.
Qed.

End PyFacts.

(** ** More about the unzip worker *)

Module UnzipMore.
Import Unzip UnzipFacts.

Lemma bind_returns {A B} (m : M A) (f : A → M B) (w w' : World) (b : B) :
  (m ≫= f) w = Returns b w' → ∃ a w1, m w = Returns a w1 ∧ f a w1 = Returns b w'.
Proof.
  unfold mbind, M_bind, bind. destruct (m w) as [a w1| |]; [|done..]. by exists a, w1.
Qed.

(** X4. A file that is not a zip archive: the worker reports it by name,
    records and moves nothing, and goes on to the next index. *)
Theorem corrupt_archive_reported (env : nat → Archive) (w : World) (z name : string) :
  zip_files (self w) !! current_index (self w) = Some z →
  mkdtemp (env (current_index (self w))) = inl name →
  failure (env (current_index (self w))) = Some BadZipFile →
  ∃ w', archive_step env w = Returns tt w' ∧
    signals w' = signals w ++
      [error ("Erro: O arquivo '" +:+ Py.basename z +:+ "' está corrompido.");
       progress (S (current_index (self w))) (total_files (self w))] ∧
    unzip_files (self w') = unzip_files (self w) ∧
    moves w' = moves w ∧
    current_index (self w') = S (current_index (self w)).
Proof.
  intros Hz Hmk Hfail. eexists. split.
  - unfold archive_step. rewrite Hz.
    unfold try_finally, try_except, extract_one, mbind, M_bind, bind.
    unfold create_temp_dir, extract_zip. rewrite Hmk. simpl. rewrite Hfail. reflexivity.
  - simpl. by rewrite <-(assoc_L (++)).
Qed.

Lemma corrupt_archive_reported_witness :
  zip_files (self (initial "/d" ["/d/z.zip"] ∅))
    !! current_index (self (initial "/d" ["/d/z.zip"] ∅)) = Some "/d/z.zip" ∧
  mkdtemp not_a_zip = inl "tmp3" ∧
  failure not_a_zip = Some BadZipFile ∧
  ∃ w', archive_step (λ _, not_a_zip) (initial "/d" ["/d/z.zip"] ∅) = Returns tt w' ∧
    signals w' = [error "Erro: O arquivo 'z.zip' está corrompido."; progress 1 1] ∧
    unzip_files (self w') = [] ∧
    moves w' = [] ∧
    current_index (self w') = 1%nat.
Proof.
  split; [reflexivity|]. split; [reflexivity|]. split; [reflexivity|].
  exact (corrupt_archive_reported (λ _, not_a_zip) (initial "/d" ["/d/z.zip"] ∅)
           "/d/z.zip" "tmp3" eq_refl eq_refl eq_refl).
Defined.

(** X5. When the temporary directory cannot be created, the worker reports
    an unexpected error with the text of the exception, leaves the files,
    the recorded paths and the moves as they are, and goes on to the next
    index. *)
Theorem mkdtemp_failure_reported (env : nat → Archive) (w : World) (z msg : string) :
  zip_files (self w) !! current_index (self w) = Some z →
  mkdtemp (env (current_index (self w))) = inr msg →
  ∃ w', archive_step env w = Returns tt w' ∧
    signals w' = signals w ++
      [error ("Erro inesperado ao descompactar '" +:+ Py.basename z +:+ "': " +:+ msg);
       progress (S (current_index (self w))) (total_files (self w))] ∧
    fs w' = fs w ∧
    unzip_files (self w') = unzip_files (self w) ∧
    moves w' = moves w ∧
    current_index (self w') = S (current_index (self w)).
Proof.
  intros Hz Hmk. eexists. split.
  - unfold archive_step. rewrite Hz.
    unfold try_finally, try_except, extract_one, mbind, M_bind, bind.
    unfold create_temp_dir. rewrite Hmk. reflexivity.
  - simpl. by rewrite <-(assoc_L (++)).
Qed.

Lemma mkdtemp_failure_reported_witness :
  zip_files (self (initial "/d" ["/d/z.zip"] ∅))
    !! current_index (self (initial "/d" ["/d/z.zip"] ∅)) = Some "/d/z.zip" ∧
  mkdtemp (mkArchive (inr "[Errno 13] Permission denied") [] None true)
    = inr "[Errno 13] Permission denied" ∧
  ∃ w', archive_step (λ _, mkArchive (inr "[Errno 13] Permission denied") [] None true)
      (initial "/d" ["/d/z.zip"] ∅) = Returns tt w' ∧
    signals w' =
      [error "Erro inesperado ao descompactar 'z.zip': [Errno 13] Permission denied";
       progress 1 1] ∧
    fs w' = ∅ ∧
    unzip_files (self w') = [] ∧
    moves w' = [] ∧
    current_index (self w') = 1%nat.
Proof.
  split; [reflexivity|]. split; [reflexivity|].
  exact (mkdtemp_failure_reported
           (λ _, mkArchive (inr "[Errno 13] Permission denied") [] None true)
           (initial "/d" ["/d/z.zip"] ∅) "/d/z.zip" "[Errno 13] Permission denied"
           eq_refl eq_refl).
Defined.

Lemma no_tif_files (a : Archive) :
  tif_count a = 0%nat → List.filter (λ m, is_tif (Py.basename m)) (members a) = [].
Proof. unfold tif_count. by intros ?%length_zero_iff_nil. Qed.

(** X6. An archive without payload files: the worker emits the warning
    naming the archive, records and moves nothing, and goes on to the next
    index. *)
Theorem no_payload_warning (env : nat → Archive) (w : World) (z name : string) :
  zip_files (self w) !! current_index (self w) = Some z →
  mkdtemp (env (current_index (self w))) = inl name →
  failure (env (current_index (self w))) = None →
  tif_count (env (current_index (self w))) = 0%nat →
  ∃ w', archive_step env w = Returns tt w' ∧
    signals w' = signals w ++
      [error ("Aviso: Nenhum arquivo TIF encontrado em '" +:+ Py.basename z +:+ "'");
       progress (S (current_index (self w))) (total_files (self w))] ∧
    unzip_files (self w') = unzip_files (self w) ∧
    moves w' = moves w ∧
    current_index (self w') = S (current_index (self w)).
Proof.
  intros Hz Hmk Hfail Hnone%no_tif_files.
  assert (Hif : ∀ b : bool, (if b then @nil string else []) = []) by (by intros []).
  destruct (rmtree_works (env (current_index (self w)))) eqn:Hrm.
  - eexists. split.
    + unfold archive_step. rewrite Hz.
      unfold try_finally, try_except, extract_one, mbind, M_bind, bind.
      unfold create_temp_dir, extract_zip, find_tif_files, cleanup_temp_dir, act.
      rewrite Hmk, Hrm. simpl. rewrite Hfail, Hnone. simpl. rewrite Hif. reflexivity.
    + simpl. by rewrite <-(assoc_L (++)).
  - eexists. split.
    + unfold archive_step. rewrite Hz.
      unfold try_finally, try_except, extract_one, mbind, M_bind, bind.
      unfold create_temp_dir, extract_zip, find_tif_files, cleanup_temp_dir, act.
      rewrite Hmk, Hrm. simpl. rewrite Hfail, Hnone. simpl. rewrite Hif. reflexivity.
    + simpl. by rewrite <-(assoc_L (++)).
Qed.

Lemma no_payload_warning_witness :
  zip_files (self (initial "/d" ["/d/z.zip"] ∅))
    !! current_index (self (initial "/d" ["/d/z.zip"] ∅)) = Some "/d/z.zip" ∧
  mkdtemp no_tif = inl "tmp2" ∧
  failure no_tif = None ∧
  tif_count no_tif = 0%nat ∧
  ∃ w', archive_step (λ _, no_tif) (initial "/d" ["/d/z.zip"] ∅) = Returns tt w' ∧
    signals w' =
      [error "Aviso: Nenhum arquivo TIF encontrado em 'z.zip'"; progress 1 1] ∧
    unzip_files (self w') = [] ∧
    moves w' = [] ∧
    current_index (self w') = 1%nat.
Proof.
  split; [reflexivity|]. split; [reflexivity|]. split; [reflexivity|].
  split; [reflexivity|].
  exact (no_payload_warning (λ _, no_tif) (initial "/d" ["/d/z.zip"] ∅)
           "/d/z.zip" "tmp2" eq_refl eq_refl eq_refl eq_refl).
Defined.

(** X7. When the [try] block of [unzip_next] runs through and [rmtree]
    does its work, the temporary directory and everything below it are
    gone. *)
Theorem temp_dir_removed_on_success (a : Archive) (z name : string) (w w' : World) :
  extract_one a z w = Returns tt w' →
  mkdtemp a = inl name →
  rmtree_works a = true →
  ∀ p, p ∈ fs w' → under (Py.join (unzip_dir_path (self w)) name) p = false.
Proof.
  unfold extract_one. intros Hrun Hmk Hrm p Hp.
  apply bind_returns in Hrun as (temp_dir & w1 & Hcreate & Hrun).
  unfold create_temp_dir in Hcreate. rewrite Hmk in Hcreate.
  injection Hcreate as <- <-.
  apply bind_returns in Hrun as ([] & w2 & _ & Hrun).
  apply bind_returns in Hrun as (tif_files & w3 & _ & Hrun).
  apply bind_returns in Hrun as ([] & w4 & _ & Hclean).
  unfold cleanup_temp_dir, act in Hclean. rewrite Hrm in Hclean.
  injection Hclean as <-. simpl in Hp.
  apply elem_of_filter in Hp as [Hnot _].
  by destruct (under _ p).
Qed.

Lemma temp_dir_removed_on_success_witness :
  ∃ w', extract_one one_tif "/d/z.zip" (initial "/d" ["/d/z.zip"] {["/d/z.zip"]})
      = Returns tt w' ∧
    mkdtemp one_tif = inl "tmp1" ∧
    rmtree_works one_tif = true ∧
    ∀ p, p ∈ fs w' → under (Py.join "/d" "tmp1") p = false.
Proof.
  eexists. split; [vm_compute; reflexivity|]. split; [reflexivity|]. split; [reflexivity|].
  refine (temp_dir_removed_on_success one_tif "/d/z.zip" "tmp1"
            (initial "/d" ["/d/z.zip"] {["/d/z.zip"]}) _ _ eq_refl eq_refl).
  vm_compute; reflexivity.
Defined.

Lemma untouched_same_moves (q : string) (w w' : World) :
  q ∈ fs w' → moves w' = moves w → untouched q w w'.
Proof.
  intros Hq Hm. split; [done|]. exists []. rewrite app_nil_r.
  split_and!; [done | apply not_elem_of_nil..].
Qed.

Lemma untouched_trans (q : string) (w1 w2 w3 : World) :
  untouched q w1 w2 → untouched q w2 w3 → untouched q w1 w3.
Proof.
  intros (_ & new1 & Hm1 & Hs1 & Hd1) (Hq & new2 & Hm2 & Hs2 & Hd2).
  split; [done|]. exists (new1 ++ new2). rewrite Hm2, Hm1, (assoc_L (++)), !fmap_app.
  split_and!; [done | by apply not_elem_of_app..].
Qed.

Lemma move_tif_file_keeps (tif_file q : string) (w : World) :
  q ∈ fs w → q ≠ tif_file →
  match move_tif_file tif_file w with
  | Returns _ w' | Raises _ w' => untouched q w w'
  | Diverges => False
  end.
Proof.
  intros Hq Hne. unfold move_tif_file.
  set (w1 := set_self (append_unzip_file _) w).
  destruct (rename_loop_total (fs w1) (unzip_dir_path (self w1)) (Py.basename tif_file)
    (Py.join (unzip_dir_path (self w)) (Py.basename tif_file))) as (p & -> & Hfree & _).
  unfold shutil_move. case_bool_decide; simpl.
  - split; [simpl; set_solver|]. exists [(tif_file, p)]. simpl.
    split_and!; [done | |].
    + by intros ->%list_elem_of_singleton.
    + intros ->%list_elem_of_singleton. by apply Hfree.
  - by apply untouched_same_moves.
Qed.

Lemma move_tif_files_keeps (tif_files : list string) (q : string) :
  q ∉ tif_files →
  ∀ w, q ∈ fs w →
    match move_tif_files tif_files w with
    | Returns _ w' | Raises _ w' => untouched q w w'
    | Diverges => False
    end.
Proof.
  induction tif_files as [|t rest IH]; intros Hnot w Hq;
    [by apply untouched_same_moves|].
  apply not_elem_of_cons in Hnot as [Hne Hrest].
  simpl. unfold mbind, M_bind, bind.
  pose proof (move_tif_file_keeps t q w Hq Hne) as Hone.
  destruct (move_tif_file t w) as [[] w1|e w1|]; [|done..].
  pose proof (IH Hrest w1 (proj1 Hone)) as Hrestmoves.
  destruct (move_tif_files rest w1) as [[] w2|e w2|]; [| |done];
    by eapply untouched_trans.
Qed.

(** X8. Handling an archive leaves alone every file that was there before:
    a path that exists, lies outside the temporary directory and is not one
    of the extracted files still exists afterwards, and it is neither the
    source nor the destination of a move the worker makes, whether the
    [try] block runs through or raises. The renaming loop is what keeps an
    existing file from being the destination of a move. *)
Theorem existing_files_survive (a : Archive) (z name q : string) (w : World) :
  mkdtemp a = inl name →
  q ∈ fs w →
  under (Py.join (unzip_dir_path (self w)) name) q = false →
  q ∉ Py.join (Py.join (unzip_dir_path (self w)) name) <$> members a →
  match extract_one a z w with
  | Returns _ w' | Raises _ w' => untouched q w w'
  | Diverges => False
  end.
Proof.
  intros Hmk Hq Hout Hnew. unfold extract_one, mbind, M_bind, bind.
  unfold create_temp_dir. rewrite Hmk.
  set (temp_dir := Py.join (unzip_dir_path (self w)) name) in *.
  unfold extract_zip. set (w2 := set_fs _ (set_fs _ w)).
  assert (Hq2 : q ∈ fs w2) by (unfold w2; simpl; set_solver).
  assert (Hw2 : untouched q w w2) by (by apply untouched_same_moves).
  destruct (failure a); [done|].
  unfold find_tif_files.
  set (tif_files := if bool_decide (temp_dir ∈ fs w2) then _ else []).
  assert (Hnot : q ∉ tif_files).
  { unfold tif_files. case_bool_decide; [|apply not_elem_of_nil].
    intros Hin%list_elem_of_In%List.filter_In. destruct Hin as [Hin%list_elem_of_In _].
    apply Hnew. apply list_elem_of_fmap in Hin as (m & -> & Hm).
    apply list_elem_of_fmap. exists m. split; [done|].
    by apply list_elem_of_In, List.filter_In in Hm as [?%list_elem_of_In _]. }
  assert (Hclean : ∀ w3, untouched q w w3 →
    match cleanup_temp_dir a temp_dir w3 with
    | Returns _ w' | Raises _ w' => untouched q w w'
    | Diverges => False
    end).
  { intros w3 Hw3. unfold cleanup_temp_dir, act. destruct (rmtree_works a); [|done].
    eapply untouched_trans; [exact Hw3|]. apply untouched_same_moves; [|done].
    simpl. apply elem_of_filter. split; [|by destruct Hw3].
    intros Hunder. rewrite Hout in Hunder. exact Hunder. }
  destruct tif_files as [|t rest] eqn:Htifs.
  - apply (Hclean (emit _ w2)). by apply untouched_same_moves.
  - pose proof (move_tif_files_keeps (t :: rest) q Hnot w2 Hq2) as Hmove.
    destruct (move_tif_files (t :: rest) w2) as [[] w3|e w3|]; [| |done].
    + apply Hclean. exact (untouched_trans q w w2 w3 Hw2 Hmove).
    + exact (untouched_trans q w w2 w3 Hw2 Hmove).
Qed.

Lemma existing_files_survive_witness :
  mkdtemp same_name_twice = inl "tmp0" ∧
  "/d/x.tif" ∈ fs (initial "/d" ["/d/z.zip"] {["/d/z.zip"; "/d/x.tif"]}) ∧
  under (Py.join "/d" "tmp0") "/d/x.tif" = false ∧
  ("/d/x.tif" ∉ Py.join (Py.join "/d" "tmp0") <$> members same_name_twice) ∧
  match extract_one same_name_twice "/d/z.zip"
          (initial "/d" ["/d/z.zip"] {["/d/z.zip"; "/d/x.tif"]}) with
  | Returns _ w' | Raises _ w' =>
      untouched "/d/x.tif" (initial "/d" ["/d/z.zip"] {["/d/z.zip"; "/d/x.tif"]}) w'
  | Diverges => False
  end.
Proof.
  assert (Hq : "/d/x.tif" ∈ fs (initial "/d" ["/d/z.zip"] {["/d/z.zip"; "/d/x.tif"]})).
  { simpl. set_solver. }
  assert (Hnew : "/d/x.tif" ∉ Py.join (Py.join "/d" "tmp0") <$> members same_name_twice).
  { apply (bool_decide_unpack _). by vm_compute. }
  split; [reflexivity|]. split; [exact Hq|]. split; [reflexivity|]. split; [exact Hnew|].
  exact (existing_files_survive same_name_twice "/d/z.zip" "tmp0" "/d/x.tif"
           (initial "/d" ["/d/z.zip"] {["/d/z.zip"; "/d/x.tif"]}) eq_refl Hq eq_refl Hnew).
Defined.

End UnzipMore.

(** ** More about the download worker *)

Module DownloadMore.
Import Download DownloadTrace DownloadFacts.

Section Runs.

Variable qurl_path : string → string.

Lemma later_refl (w : World) : later w w.
Proof. unfold later. by split_and!. Qed.

Lemma later_trans (w1 w2 w3 : World) : later w1 w2 → later w2 w3 → later w1 w3.
Proof.
  intros (?&?&?&?&?&?&?&?&?) (?&?&?&?&?&?&?&?&?). unfold later.
  split_and!; try congruence; try lia; try (by etrans); auto.
Qed.

Ltac later_crunch :=
  unfold later; simpl; split_and!;
    first [ done | lia | by repeat apply prefix_app_r
          | by rewrite ?length_insert, ?length_app; simpl; lia ].

Lemma later_cleanup (w : World) : later w (cleanup_and_continue w).
Proof. unfold cleanup_and_continue. destruct (reply (self w)); later_crunch. Qed.

Lemma later_emit (s : Signal) (w : World) : later w (emit s w).
Proof. later_crunch. Qed.

Lemma later_handle_finished (save : option string) (w : World) :
  later w (handle_finished save w).
Proof.
  unfold handle_finished. repeat case_match; try later_crunch;
    try apply later_cleanup;
    (eapply later_trans; [|apply later_cleanup]); later_crunch.
Qed.

Lemma later_handle_error (code : NetworkError) (w : World) :
  later w (handle_error code w).
Proof.
  unfold handle_error. repeat case_match; try later_crunch.
  eapply later_trans; [|apply later_cleanup]. later_crunch.
Qed.

Lemma later_abort (r : nat) (w : World) : later w (abort r w).
Proof.
  unfold abort. repeat case_match; try apply later_refl.
  eapply later_trans; [|apply later_handle_finished].
  eapply later_trans; [|apply later_handle_error].
  later_crunch.
Qed.

Lemma later_cancel (w : World) : later w (cancel w).
Proof.
  unfold cancel. simpl. destruct (reply (self w)); [|later_crunch].
  eapply later_trans; [|apply later_abort]. later_crunch.
Qed.

Lemma later_step (w : World) (ev : Event) : later w (step qurl_path w ev).
Proof.
  destruct ev as [|r a b|r errors|r save|r code es|]; simpl.
  - destruct (deferred w); [apply later_refl|].
    unfold download_next. repeat case_match; later_crunch.
  - destruct (running r w); [|apply later_refl].
    unfold handle_download_progress. repeat case_match;
      first [apply later_refl | apply later_abort | later_crunch].
  - destruct (running r w); [|apply later_refl]. later_crunch.
  - destruct (running r w); [|apply later_refl].
    eapply later_trans; [|apply later_handle_finished]. later_crunch.
  - destruct (running r w); [|apply later_refl].
    eapply later_trans; [|apply later_handle_finished].
    eapply later_trans; [|apply later_handle_error]. later_crunch.
  - apply later_cancel.
Qed.

(** X9. Whatever happens, in whatever order: the locators, the destination
    and the total stay, the index never goes back, the list of completed
    paths, the signals and the escaped exceptions only grow at the end, and
    once [cancel()] has been called the flag stays set. *)
Theorem run_only_moves_forward (script : list Event) (w : World) :
  later w (run qurl_path script w).
Proof.
  revert w. induction script as [|ev script IH]; intros w; [apply later_refl|].
  change (run qurl_path (ev :: script) w) with (run qurl_path script (step qurl_path w ev)).
  eapply later_trans; [apply later_step | apply IH].
Qed.

Lemma calm_refl (w : World) : calm w w.
Proof. unfold calm. split_and!; try done. exists []. by rewrite app_nil_r. Qed.

Lemma calm_trans (w1 w2 w3 : World) : calm w1 w2 → calm w2 w3 → calm w1 w3.
Proof.
  intros (?&?&e1&Hs1&?) (?&?&e2&Hs2&?). unfold calm. split_and!; try congruence.
  exists (e1 ++ e2). split; [by rewrite Hs2, Hs1, (assoc_L (++)) | by apply Forall_app].
Qed.

Lemma calm_emit (s : Signal) (w : World) : of_transfer s = false → calm w (emit s w).
Proof. intros Hs. unfold calm. split_and!; try done. exists [s]. by repeat constructor. Qed.

Lemma calm_cleanup (w : World) : calm w (cleanup_and_continue w).
Proof.
  unfold cleanup_and_continue.
  destruct (reply (self w)); (split_and!; [done | done | by exists [file_finished]; repeat constructor]).
Qed.

Lemma calm_escapes (e : PyExc) (w : World) : calm w (escapes e w).
Proof. exact (calm_refl w). Qed.

Lemma calm_handle_finished (save : option string) (w : World) :
  calm w (handle_finished save w).
Proof.
  unfold handle_finished.
  destruct (reply (self w) ≫= _) as [q|]; [|apply calm_escapes].
  destruct (bool_decide _); [apply calm_cleanup|].
  destruct (urls (self w) !! _) as [url|]; [|apply calm_escapes].
  eapply calm_trans; [|apply calm_cleanup].
  destruct save as [e|]; [by apply calm_emit|].
  eapply calm_trans; [|by apply calm_emit].
  unfold calm. simpl. split_and!; [done | done |]. exists []. by rewrite app_nil_r.
Qed.

Lemma calm_handle_error (code : NetworkError) (w : World) :
  calm w (handle_error code w).
Proof.
  unfold handle_error, emit_finished.
  destruct (_is_canceled (self w)); [by apply calm_emit|].
  destruct (urls (self w) !! _) as [url|]; [|apply calm_escapes].
  destruct (reply (self w) ≫= _) as [q|]; [|apply calm_escapes].
  eapply calm_trans; [|apply calm_cleanup]. by apply calm_emit.
Qed.

Lemma calm_abort (r : nat) (w : World) : calm w (abort r w).
Proof.
  unfold abort. destruct (replies w !! r) as [q|]; [|apply calm_refl].
  destruct (isRunning q); [|apply calm_refl].
  eapply calm_trans; [|apply calm_handle_finished].
  eapply calm_trans; [|apply calm_handle_error].
  unfold calm. simpl. split_and!; [done | by rewrite length_insert |].
  exists []. by rewrite app_nil_r.
Qed.

Lemma calm_stop (r : nat) (e : NetworkError) (es : string) (w : World) :
  calm w (stop r e es w).
Proof.
  unfold calm. simpl. split_and!; [done | by rewrite length_insert |].
  exists []. by rewrite app_nil_r.
Qed.

Lemma canceled_step (w : World) (ev : Event) :
  _is_canceled (self w) = true → calm w (step qurl_path w ev).
Proof.
  intros Hc. destruct ev as [|r a b|r errors|r save|r code es|]; simpl.
  - destruct (deferred w); [apply calm_refl|].
    unfold download_next. simpl. rewrite Hc.
    eapply calm_trans; [|by apply calm_emit]. by split_and!; [| |exists []; rewrite app_nil_r].
  - destruct (running r w); [|apply calm_refl].
    unfold handle_download_progress. rewrite Hc.
    destruct (reply (self w)); [apply calm_abort | apply calm_refl].
  - destruct (running r w); [|apply calm_refl]. by apply calm_emit.
  - destruct (running r w); [|apply calm_refl].
    eapply calm_trans; [apply calm_stop | apply calm_handle_finished].
  - destruct (running r w); [|apply calm_refl].
    eapply calm_trans; [apply calm_stop|].
    eapply calm_trans; [apply calm_handle_error | apply calm_handle_finished].
  - unfold cancel. simpl.
    assert (Hset : calm w (set_self set_canceled w)).
    { unfold calm. simpl. split_and!; [done | done |]. exists []. by rewrite app_nil_r. }
    destruct (reply (self w)); [|done].
    eapply calm_trans; [exact Hset | apply calm_abort].
Qed.

(** X10. Once [cancel()] has been called the worker starts no transfer
    any more: whatever happens afterwards, no reply object is created and
    neither [file_started] nor [download_progress] is emitted. *)
Theorem no_transfer_after_cancel (script : list Event) (w : World) :
  _is_canceled (self w) = true →
  length (replies (run qurl_path script w)) = length (replies w) ∧
  ∃ extra, signals (run qurl_path script w) = signals w ++ extra ∧
    Forall (λ s, of_transfer s = false) extra.
Proof.
  intros Hc.
  assert (Hcalm : calm w (run qurl_path script w)).
  { revert w Hc. induction script as [|ev script IH]; intros w Hc; [apply calm_refl|].
    change (run qurl_path (ev :: script) w)
      with (run qurl_path script (step qurl_path w ev)).
    pose proof (canceled_step w ev Hc) as Hstep.
    eapply calm_trans; [exact Hstep|]. apply IH.
    destruct Hstep as (-> & _). exact Hc. }
  by destruct Hcalm as (_ & ? & ?).
Qed.

Lemma int32_small (z : Z) : - 2 ^ 31 ≤ z < 2 ^ 31 → int32 z = z.
Proof. intros Hz. unfold int32. rewrite Z.mod_small; lia. Qed.

Lemma calm_reported (script : list Event) (w w' : World) :
  calm w w' → Forall (reported script) (signals w) → Forall (reported script) (signals w').
Proof.
  intros (_ & _ & extra & -> & Hextra) Hw. apply Forall_app. split; [done|].
  eapply Forall_impl; [exact Hextra|]. by intros [].
Qed.

Lemma step_reported (script : list Event) (w : World) (ev : Event) :
  ev ∈ script →
  Forall (reported script) (signals w) →
  Forall (reported script) (signals (step qurl_path w ev)).
Proof.
  intros Hev Hw. destruct ev as [|r a b|r errors|r save|r code es|]; simpl.
  - destruct (deferred w); [done|].
    unfold download_next, emit_finished.
    repeat case_match; simpl; rewrite ?Forall_app; split_and?; try done;
      by repeat constructor.
  - destruct (running r w); [|done].
    unfold handle_download_progress.
    destruct (_is_canceled (self w)).
    + destruct (reply (self w)); [|done]. by eapply calm_reported; [apply calm_abort|].
    + destruct (Z.gtb_spec b 0); [|done]. simpl. apply Forall_app. split; [done|].
      constructor; [|constructor]. exists r, a, b. split_and!; [done | lia | done..].
  - destruct (running r w); [|done]. simpl. apply Forall_app. split; [done|].
    by repeat constructor.
  - destruct (running r w); [|done].
    eapply calm_reported; [|exact Hw].
    eapply calm_trans; [apply calm_stop | apply calm_handle_finished].
  - destruct (running r w); [|done].
    eapply calm_reported; [|exact Hw].
    eapply calm_trans; [apply calm_stop|].
    eapply calm_trans; [apply calm_handle_error | apply calm_handle_finished].
  - unfold cancel. simpl. destruct (reply (self w)); [|done].
    eapply calm_reported; [apply calm_abort|]. done.
Qed.

(** X11. Every [download_progress] signal of a run comes from a progress
    report of the transfer with a total above zero, and carries the two
    numbers of the report cut down to 32 bits: a report without a known
    total is never passed on, the total of the signal is the reported one,
    and so above zero, when that is below [2^31], and it is another number,
    possibly a negative one, for a larger download. *)
Theorem progress_signal_from_report (urls : list string) (dest : string)
    (script : list Event) (received total : Z) :
  download_progress received total ∈ signals (run_worker qurl_path urls dest script) →
  ∃ r a b, Progress r a b ∈ script ∧ 0 < b ∧
    received = int32 a ∧ total = int32 b ∧
    (b < 2 ^ 31 → total = b ∧ 0 < total).
Proof.
  assert (Hall : ∀ s w, s ⊆ script → Forall (reported script) (signals w) →
            Forall (reported script) (signals (run qurl_path s w))).
  { induction s as [|ev s IH]; intros w Hs Hw; [done|].
    change (run qurl_path (ev :: s) w) with (run qurl_path s (step qurl_path w ev)).
    apply IH.
    - intros ev' Hev'. apply Hs. by right.
    - apply step_reported; [|done]. apply Hs. by left. }
  intros Hin.
  assert (Hrep : Forall (reported script) (signals (run_worker qurl_path urls dest script))).
  { apply Hall; [done|]. by repeat constructor. }
  destruct (proj1 (Forall_forall _ _) Hrep _ Hin) as (r & a & b & Hev & Hb & -> & ->).
  exists r, a, b. split_and!; [done..|].
  intros Hsmall. rewrite int32_small by lia. done.
Qed.

(** *** Runs that nothing interrupts *)

Lemma reports_signals (urls : list string) (dest : string) (k : nat)
    (paths : list string) (R : list QNetworkReply) (U : list PyExc)
    (reps : list (Z * Z)) :
  ∀ sigs,
    run qurl_path ((λ ab, Progress (length R) ab.1 ab.2) <$> reps)
        (in_flight urls dest k paths R sigs U)
      = in_flight urls dest k paths R (sigs ++ progress_signals reps) U.
Proof.
  induction reps as [|[a b] reps IH]; intros sigs.
  - unfold progress_signals. simpl. by rewrite app_nil_r.
  - rewrite fmap_cons.
    change (run qurl_path (?ev :: ?s) ?w) with (run qurl_path s (step qurl_path w ev)).
    cbn [step fst snd]. rewrite running_in_flight.
    unfold handle_download_progress. cbn [in_flight holding self _is_canceled].
    unfold progress_signals. cbn [List.filter snd]. destruct (b >? 0).
    + change (emit (download_progress (int32 a) (int32 b)) ?w)
        with (in_flight urls dest k paths R
                (sigs ++ [download_progress (int32 a) (int32 b)]) U).
      rewrite IH. unfold progress_signals. by rewrite fmap_cons, <-(assoc_L (++)).
    + apply IH.
Qed.

Lemma ending_signals_idle (urls : list string) (dest url : string) (k : nat)
    (paths : list string) (R : list QNetworkReply) (sigs : list Signal) (U : list PyExc)
    (it : Item) :
  urls !! k = Some url →
  step qurl_path (in_flight urls dest k paths R sigs U)
      (ending_event (length R) (ending it))
    = idle urls dest (S k) (paths ++ option_list (saved_path dest url it))
        (R ++ [final_reply (ending it)]) (sigs ++ ending_signals url (ending it))
        (U ++ ending_uncaught (ending it)).
Proof.
  intros Hurl. unfold saved_path.
  destruct (ending it) as [|e|code es]; cbn [ending_event step];
    rewrite running_in_flight; unfold in_flight; rewrite stop_holding.
  - rewrite (handle_finished_holding _ None _ _ url) by done. simpl.
    by rewrite !app_nil_r.
  - rewrite (handle_finished_holding _ (Some e) _ _ url) by done. simpl.
    by rewrite !app_nil_r.
  - rewrite (handle_error_holding _ _ _ _ url) by done. rewrite handle_finished_idle.
    simpl. by rewrite !app_nil_r.
Qed.

Lemma item_signals_idle (urls : list string) (dest url : string) (k : nat)
    (paths : list string) (R : list QNetworkReply) (sigs : list Signal) (U : list PyExc)
    (it : Item) :
  urls !! k = Some url →
  length R = k →
  run qurl_path (item_events k it) (idle urls dest k paths R sigs U)
    = idle urls dest (S k) (paths ++ option_list (saved_path dest url it))
        (R ++ [final_reply (ending it)]) (sigs ++ item_signals qurl_path k url it)
        (U ++ ending_uncaught (ending it)).
Proof.
  intros Hurl <-. unfold item_events.
  change (run qurl_path (Turn :: ?s) ?w) with (run qurl_path s (step qurl_path w Turn)).
  rewrite (turn_starts_item _ _ _ url) by done.
  rewrite run_app, reports_signals. cbn [run foldl].
  rewrite (ending_signals_idle _ _ url) by done.
  unfold item_signals. by rewrite <-!(assoc_L (++)).
Qed.

Lemma saved_paths_cons (dest url : string) (urls : list string) (it : Item)
    (items : list Item) :
  saved_paths dest (url :: urls) (it :: items)
  = option_list (saved_path dest url it) ++ saved_paths dest urls items.
Proof. unfold saved_paths. simpl. by destruct (saved_path dest url it). Qed.

(** From one pause between items to a later one. *)
Lemma items_signals_idle (urls : list string) (dest : string) (items : list Item) :
  ∀ k paths R sigs U,
    length R = k →
    (k + length items ≤ length urls)%nat →
    run qurl_path (items_events k items) (idle urls dest k paths R sigs U)
      = idle urls dest (k + length items)
          (paths ++ saved_paths dest (drop k urls) items)
          (R ++ (final_reply ∘ ending <$> items))
          (sigs ++ items_signals qurl_path k (drop k urls) items)
          (U ++ (items ≫= ending_uncaught ∘ ending)).
Proof.
  induction items as [|it items IH]; intros k paths R sigs U HR Hlen.
  - simpl. assert (saved_paths dest (drop k urls) [] = []) as ->.
    { unfold saved_paths. by destruct (drop k urls). }
    assert (items_signals qurl_path k (drop k urls) [] = []) as ->
      by (by destruct (drop k urls)).
    by rewrite !app_nil_r, Nat.add_0_r.
  - simpl in Hlen.
    destruct (lookup_lt_is_Some_2 urls k) as [url Hurl]; [lia|].
    rewrite (drop_S _ _ _ Hurl).
    cbn [items_events]. rewrite run_app, (item_signals_idle _ _ url) by done.
    rewrite IH by (rewrite ?length_app; simpl; lia).
    rewrite saved_paths_cons. cbn [items_signals length fmap list_fmap mbind list_bind].
    rewrite Nat.add_succ_r. unfold item_signals.
    rewrite <-!(assoc_L (++)). cbn [app]. by rewrite <-!(assoc_L (++)).
Qed.

(** An uninterrupted run over all the locators, up to the last turn of
    the event loop. *)
Lemma full_run (urls : list string) (dest : string) (items : list Item) :
  length items = length urls →
  run_worker qurl_path urls dest (items_events 0 items ++ [Turn])
  = mkWorld
      (mkDownloadWorker urls dest (length urls) None (length urls)
         (saved_paths dest urls items) false)
      (final_reply ∘ ending <$> items)
      (started ("Iniciando download de " +:+ pretty (length urls) +:+ " arquivos...") ::
         items_signals qurl_path 0 urls items ++
         [finished dest (saved_paths dest urls items)])
      0
      (items ≫= ending_uncaught ∘ ending).
Proof.
  intros Hlen. unfold run_worker. rewrite run_app.
  change (start (initial urls dest))
    with (idle urls dest 0 [] []
            [started ("Iniciando download de " +:+ pretty (length urls) +:+ " arquivos...")] []).
  rewrite items_signals_idle by (simpl; lia).
  rewrite Hlen. unfold idle. cbn [run foldl step deferred].
  unfold download_next. simpl.
  destruct (Nat.leb_spec (length urls) (length urls)); [|lia].
  unfold emit_finished. simpl. by rewrite drop_0.
Qed.

(** X12. A run that nothing interrupts: after [start()] the worker emits,
    for each locator in order, [file_started] with its index, a
    [download_progress] for every progress report with a total above zero,
    carrying the two numbers of the report cut down to 32 bits, then the
    success message or the error, then [file_finished]; and at the end one
    [finished] with the paths of the saved files. It ends with the index at
    [N] and nothing waiting. *)
Theorem uninterrupted_run_trace (urls : list string) (dest : string) (items : list Item) :
  length items = length urls →
  signals (run_worker qurl_path urls dest (items_events 0 items ++ [Turn]))
    = started ("Iniciando download de " +:+ pretty (length urls) +:+ " arquivos...") ::
        items_signals qurl_path 0 urls items ++
        [finished dest (saved_paths dest urls items)] ∧
  current_index (self (run_worker qurl_path urls dest (items_events 0 items ++ [Turn])))
    = length urls ∧
  reply (self (run_worker qurl_path urls dest (items_events 0 items ++ [Turn]))) = None ∧
  deferred (run_worker qurl_path urls dest (items_events 0 items ++ [Turn])) = 0%nat.
Proof. intros Hlen. by rewrite full_run. Qed.

(** X13. Every transfer that fails leaves one [AttributeError] behind:
    [handle_error] clears [self.reply] and the [finished] signal of the same
    reply then runs [handle_finished], which calls [self.reply.error()]. No
    other item raises, and the index still advances once per item. *)
Theorem failed_transfers_raise (urls : list string) (dest : string) (items : list Item) :
  length items = length urls →
  uncaught (run_worker qurl_path urls dest (items_events 0 items ++ [Turn]))
    = (λ _, AttributeError) <$> List.filter transfer_failed items.
Proof.
  intros Hlen. rewrite full_run by done. simpl. clear.
  induction items as [|it items IH]; [done|].
  cbn [mbind list_bind List.filter]. rewrite IH.
  unfold transfer_failed at 2, compose. by destruct (ending it).
Qed.

(** X14. When every file is saved, [finished] carries one path per
    locator, the destination joined with the base name of the locator, in
    the order of the locators; no [error] signal is emitted and no
    exception escapes. *)
Theorem all_saved_run (urls : list string) (dest : string) (items : list Item) :
  length items = length urls →
  Forall (λ it, ending it = Saved) items →
  last (signals (run_worker qurl_path urls dest (items_events 0 items ++ [Turn])))
    = Some (finished dest ((λ url, Py.join dest (Py.basename url)) <$> urls)) ∧
  (∀ msg, ¬ (error msg ∈
     signals (run_worker qurl_path urls dest (items_events 0 items ++ [Turn])))) ∧
  uncaught (run_worker qurl_path urls dest (items_events 0 items ++ [Turn])) = [].
Proof.
  intros Hlen Hsaved. rewrite full_run by done. simpl. split_and!.
  - rewrite app_comm_cons, last_snoc. do 2 f_equal.
    rewrite (saved_paths_all_saved dest items Hsaved urls), Hlen.
    by rewrite firstn_all.
  - intros msg [?|Hin]%elem_of_cons; [done|].
    apply elem_of_app in Hin as [Hin|Hin%list_elem_of_singleton]; [|done].
    clear Hlen. revert urls Hin. generalize 0%nat.
    induction Hsaved as [|it items Hit _ IH]; intros k [|url urls] Hin;
      try by apply elem_of_nil in Hin.
    cbn [items_signals] in Hin. apply elem_of_app in Hin as [Hin|Hin]; [|by eapply IH].
    unfold item_signals in Hin. rewrite Hit in Hin.
    apply elem_of_cons in Hin as [?|Hin]; [done|].
    apply elem_of_app in Hin as [Hin|Hin].
    + unfold progress_signals in Hin.
      by apply list_elem_of_fmap in Hin as (? & ? & _).
    + simpl in Hin. rewrite !elem_of_cons in Hin.
      destruct Hin as [?|[?|Hin]]; [done | done | by apply elem_of_nil in Hin].
  - clear Hlen. induction Hsaved as [|it items Hit _ IH]; [done|].
    cbn [mbind list_bind]. rewrite IH. simpl. by rewrite Hit.
Qed.

End Runs.

Lemma set_canceled_again (d : DownloadWorker) :
  _is_canceled d = true → set_canceled d = d.
Proof. destruct d. simpl. by intros ->. Qed.

(** What [cancel()] leaves behind: either no reply is held any more, or
    the reply held is gone or had ended already and only the flag was set. *)
Lemma cancel_cases (w : World) :
  _is_canceled (self (cancel w)) = true ∧
  (reply (self (cancel w)) = None ∨
   (cancel w = set_self set_canceled w ∧
    ∃ r, reply (self w) = Some r ∧
      (replies w !! r = None ∨ ∃ q, replies w !! r = Some q ∧ isRunning q = false))).
Proof.
  unfold cancel. cbn [set_self self set_canceled reply].
  destruct (reply (self w)) as [r|] eqn:Hrep; [|by split; [|left]].
  unfold abort. change (replies (set_self set_canceled w)) with (replies w).
  destruct (replies w !! r) as [q|] eqn:Hq; [|split; [done|right; eauto]].
  destruct (isRunning q) eqn:Hrun.
  2:{ split; [done|]. right. split; [done|]. exists r. split; [done|]. right. by exists q. }
  pose proof (lookup_lt_Some _ _ _ Hq) as Hlt.
  set (w2 := set_replies _ _).
  assert (Herr : handle_error OperationCanceledError w2 = emit_finished w2) by done.
  rewrite Herr.
  assert (Hfin : handle_finished None (emit_finished w2)
                 = cleanup_and_continue (emit_finished w2)).
  { unfold handle_finished. cbn [emit_finished emit self replies w2 set_replies set_self
      set_canceled reply]. rewrite Hrep. cbn [mbind option_bind].
    by rewrite list_lookup_insert_eq by done. }
  rewrite Hfin. unfold cleanup_and_continue.
  cbn [emit_finished emit self w2 set_replies set_self set_canceled reply].
  rewrite Hrep. split; [done | by left].
Qed.

(** X15. [cancel()] is idempotent: a second call changes nothing, whether
    or not the first one had a transfer to abort. *)
Theorem cancel_idempotent (w : World) : cancel (cancel w) = cancel w.
Proof.
  destruct (cancel_cases w) as [Hc [Hnone|(Heq & r & Hrep & Hgone)]].
  - destruct (cancel w) as [d R sigs df U]. simpl in *.
    unfold cancel, set_self. simpl. by rewrite set_canceled_again, Hnone.
  - rewrite Heq. destruct w as [d R sigs df U]. simpl in *.
    unfold cancel, set_self. simpl.
    rewrite (set_canceled_again (set_canceled d)) by (by destruct d).
    rewrite Hrep. unfold abort. simpl. by destruct Hgone as [->|(q & -> & ->)].
Qed.

Lemma uninterrupted_run_trace_witness :
  length [mkItem [(0%Z, 0%Z); (10%Z, 20%Z); (3000000000%Z, 4000000000%Z)] Saved;
          mkItem [] (TransferFailed 3 "Host not found")]
    = length ["http://h/a.zip"; "http://h/b.zip"] ∧
  signals (run_worker (λ url, url) ["http://h/a.zip"; "http://h/b.zip"] "/d"
             (items_events 0 [mkItem [(0, 0); (10, 20); (3000000000, 4000000000)] Saved;
                              mkItem [] (TransferFailed 3 "Host not found")] ++ [Turn]))
    = [started "Iniciando download de 2 arquivos...";
       file_started "a.zip" 0; download_progress 10 20;
       download_progress (-1294967296) (-294967296);
       started "Arquivo salvo com sucesso: a.zip"; file_finished;
       file_started "b.zip" 1;
       error "Erro ao baixar http://h/b.zip (Host not found)"; file_finished;
       finished "/d" ["/d/a.zip"]].
Proof.
  split; [reflexivity|].
  exact (proj1 (uninterrupted_run_trace (λ url, url) ["http://h/a.zip"; "http://h/b.zip"] "/d"
                  [mkItem [(0, 0); (10, 20); (3000000000, 4000000000)] Saved;
                   mkItem [] (TransferFailed 3 "Host not found")] eq_refl)).
Defined.

Lemma failed_transfers_raise_witness :
  length [mkItem [] Saved; mkItem [] (TransferFailed 3 "Host not found")]
    = length ["http://h/a.zip"; "http://h/b.zip"] ∧
  uncaught (run_worker (λ url, url) ["http://h/a.zip"; "http://h/b.zip"] "/d"
              (items_events 0 [mkItem [] Saved;
                               mkItem [] (TransferFailed 3 "Host not found")] ++ [Turn]))
    = [AttributeError].
Proof.
  split; [reflexivity|].
  exact (failed_transfers_raise (λ url, url) ["http://h/a.zip"; "http://h/b.zip"] "/d"
           [mkItem [] Saved; mkItem [] (TransferFailed 3 "Host not found")] eq_refl).
Defined.

Lemma all_saved_run_witness :
  length [mkItem [] Saved; mkItem [] Saved] = length ["http://h/a.zip"; "http://h/b.zip"] ∧
  Forall (λ it, ending it = Saved) [mkItem [] Saved; mkItem [] Saved] ∧
  last (signals (run_worker (λ url, url) ["http://h/a.zip"; "http://h/b.zip"] "/d"
                   (items_events 0 [mkItem [] Saved; mkItem [] Saved] ++ [Turn])))
    = Some (finished "/d" ["/d/a.zip"; "/d/b.zip"]).
Proof.
  assert (Hsaved : Forall (λ it, ending it = Saved) [mkItem [] Saved; mkItem [] Saved])
    by (by repeat constructor).
  split; [reflexivity|]. split; [exact Hsaved|].
  exact (proj1 (all_saved_run (λ url, url) ["http://h/a.zip"; "http://h/b.zip"] "/d"
                  [mkItem [] Saved; mkItem [] Saved] eq_refl Hsaved)).
Defined.

Lemma progress_signal_from_report_witness :
  download_progress (-1294967296) (-294967296) ∈
    signals (run_worker (λ url, url) ["http://h/a.zip"] "/d"
               [Turn; Progress 0 5 0; Progress 0 3000000000 4000000000]) ∧
  ∃ r a b, Progress r a b ∈ [Turn; Progress 0 5 0; Progress 0 3000000000 4000000000] ∧
    0 < b ∧ -1294967296 = int32 a ∧ -294967296 = int32 b ∧
    (b < 2 ^ 31 → -294967296 = b ∧ 0 < -294967296).
Proof.
  assert (Hin : download_progress (-1294967296) (-294967296) ∈
    signals (run_worker (λ url, url) ["http://h/a.zip"] "/d"
               [Turn; Progress 0 5 0; Progress 0 3000000000 4000000000])).
  { apply list_elem_of_In. vm_compute. auto 10. }
  split; [exact Hin|].
  exact (progress_signal_from_report (λ url, url) ["http://h/a.zip"] "/d"
           [Turn; Progress 0 5 0; Progress 0 3000000000 4000000000]
           (-1294967296) (-294967296) Hin).
Defined.

Lemma no_transfer_after_cancel_witness :
  _is_canceled (self (cancel (start (initial ["http://h/a.zip"] "/d")))) = true ∧
  length (replies (run (λ url, url) [Turn; Turn; Cancel]
                     (cancel (start (initial ["http://h/a.zip"] "/d")))))
    = length (replies (cancel (start (initial ["http://h/a.zip"] "/d")))) ∧
  ∃ extra,
    signals (run (λ url, url) [Turn; Turn; Cancel]
               (cancel (start (initial ["http://h/a.zip"] "/d"))))
      = signals (cancel (start (initial ["http://h/a.zip"] "/d"))) ++ extra ∧
    Forall (λ s, of_transfer s = false) extra.
Proof.
  split; [reflexivity|].
  exact (no_transfer_after_cancel (λ url, url) [Turn; Turn; Cancel]
           (cancel (start (initial ["http://h/a.zip"] "/d"))) eq_refl).
Defined.

End DownloadMore.

(** ** The catalogue of quadrants *)

Module CatalogFacts.
Import Catalog.

(** *** Dictionaries *)

Lemma dict_get_set_eq {V} (k : string) (v : V) (d : Dict V) :
  dict_get k (dict_set k v d) = Some v.
Proof.
  induction d as [|[k' v'] d IH]; simpl.
  - by rewrite bool_decide_true.
  - case_bool_decide as Hk; simpl; [by rewrite bool_decide_true|].
    by rewrite bool_decide_false.
Qed.

Lemma dict_get_set_ne {V} (k k' : string) (v : V) (d : Dict V) :
  k ≠ k' → dict_get k' (dict_set k v d) = dict_get k' d.
Proof.
  intros Hne. induction d as [|[k0 v0] d IH]; simpl.
  - by rewrite bool_decide_false.
  - case_bool_decide as Hk; simpl.
    + subst k0. by rewrite !bool_decide_false.
    + case_bool_decide; [done|]. exact IH.
Qed.

Lemma dict_get_Some_keys {V} (k : string) (d : Dict V) :
  is_Some (dict_get k d) ↔ k ∈ d.*1.
Proof.
  induction d as [|[k' v'] d IH]; simpl.
  - split; [by intros [] | by intros ?%elem_of_nil].
  - case_bool_decide as Hk.
    + subst. split; [left | by eexists].
    + rewrite IH, elem_of_cons. split; [by right | by intros [?|?]].
Qed.

Lemma dict_set_keys {V} (k : string) (v : V) (d : Dict V) :
  (dict_set k v d).*1 = if dict_get k d is Some _ then d.*1 else d.*1 ++ [k].
Proof.
  induction d as [|[k' v'] d IH]; csimpl; [done|].
  case_bool_decide as Hk; csimpl; [by subst|].
  rewrite IH. by destruct (dict_get k d).
Qed.

Lemma dict_set_NoDup {V} (k : string) (v : V) (d : Dict V) :
  NoDup d.*1 → NoDup (dict_set k v d).*1.
Proof.
  intros Hd. rewrite dict_set_keys. destruct (dict_get k d) eqn:Hk; [done|].
  apply NoDup_app. split_and!; [done | | apply NoDup_singleton].
  intros x Hx ->%list_elem_of_singleton.
  apply dict_get_Some_keys in Hx as [? Hx]. congruence.
Qed.

(** *** [create_quadrant_dict] *)

Lemma add_row_NoDup (d : Dict (list Row)) (r : Row) : NoDup d.*1 → NoDup (add_row d r).*1.
Proof.
  intros Hd. unfold add_row, dict_append. destruct (r !! "code"); [|done].
  case_bool_decide; [|done]. by apply dict_set_NoDup.
Qed.

Lemma add_row_get (code : string) (d : Dict (list Row)) (r : Row) :
  dict_get code (add_row d r) =
    if bool_decide (code ≠ "" ∧ r !! "code" = Some code)
    then Some (default [] (dict_get code d) ++ [r])
    else dict_get code d.
Proof.
  unfold add_row, dict_append. destruct (r !! "code") as [c|] eqn:Hc.
  - case_bool_decide as Hempty.
    + destruct (decide (c = code)) as [->|Hne].
      * rewrite dict_get_set_eq. by rewrite bool_decide_true.
      * rewrite dict_get_set_ne by done. rewrite bool_decide_false; [done|].
        intros [_ ?]. congruence.
    + rewrite bool_decide_false; [done|]. intros [? [= ->]]. done.
  - rewrite bool_decide_false; [done|]. by intros [_ ?].
Qed.

Lemma foldl_add_row_get (code : string) (data : list Row) :
  ∀ d, dict_get code (foldl add_row d data) =
    if bool_decide (code ≠ "" ∧ rows_of code data ≠ [])
    then Some (default [] (dict_get code d) ++ rows_of code data)
    else dict_get code d.
Proof.
  induction data as [|r data IH]; intros d.
  - simpl. rewrite bool_decide_false; [done|]. by intros [_ ?].
  - cbn [foldl]. rewrite IH, add_row_get. clear IH.
    assert (rows_of code (r :: data) =
      if bool_decide (r !! "code" = Some code) then r :: rows_of code data
      else rows_of code data) as -> by done.
    destruct (decide (code = "")) as [->|Hcode].
    { rewrite !bool_decide_false; [done | by intros [? _]..]. }
    destruct (decide (r !! "code" = Some code)) as [Hr|Hr].
    + rewrite (bool_decide_true (r !! "code" = Some code)) by done.
      rewrite (bool_decide_true (_ ∧ r !! "code" = _)) by done.
      rewrite (bool_decide_true (_ ∧ r :: _ ≠ [])) by done. simpl.
      destruct (rows_of code data) as [|r' rows].
      * rewrite bool_decide_false; [done | by intros [_ ?]].
      * rewrite bool_decide_true by done. by rewrite <-(assoc_L (++)).
    + rewrite (bool_decide_false (r !! "code" = Some code)) by done.
      rewrite (bool_decide_false (_ ∧ r !! "code" = _)); [done | by intros [_ ?]].
Qed.

(** X16. [create_quadrant_dict] groups the rows by their code: under a
    code that is not empty it holds the rows with this code, all of them,
    in the order of the file; a code no row has, the empty code and rows
    without a code are not in the dictionary; no key occurs twice. *)
Theorem create_quadrant_dict_groups (data : list Row) (code : string) :
  dict_get code (create_quadrant_dict data) =
    (if bool_decide (code ≠ "" ∧ rows_of code data ≠ [])
     then Some (rows_of code data) else None) ∧
  NoDup (create_quadrant_dict data).*1.
Proof.
  unfold create_quadrant_dict. split; [by rewrite foldl_add_row_get|].
  assert (Hgen : ∀ d, NoDup d.*1 → NoDup (foldl add_row d data).*1).
  { induction data as [|r data IH]; intros d Hd; [done|]. by apply IH, add_row_NoDup. }
  apply Hgen. constructor.
Qed.

(** *** [filter_quadrant_by_suffix] *)

Lemma filter_codes_raises (suffixes pre post : list string) (code : string)
    (d : Dict (list Row)) :
  Forall (λ c, is_Some (dict_get c d)) pre →
  dict_get code d = None →
  ∀ acc, filter_codes suffixes (pre ++ code :: post) d acc = Raise (KeyError code).
Proof.
  intros Hpre Hcode. induction Hpre as [|c pre [items Hc] _ IH]; intros acc; simpl.
  - by rewrite Hcode.
  - rewrite Hc. apply IH.
Qed.

Lemma filter_codes_returns (suffixes codes : list string) (d : Dict (list Row)) :
  Forall (λ c, is_Some (dict_get c d)) codes →
  ∀ acc, ∃ d', filter_codes suffixes codes d acc = Ok d' ∧
    (NoDup acc.*1 → NoDup d'.*1) ∧
    ∀ c, dict_get c d' =
      if bool_decide (c ∈ codes)
      then filter_values_by_suffix suffixes <$> dict_get c d
      else dict_get c acc.
Proof.
  induction 1 as [|code codes [items Hcode] _ IH]; intros acc; simpl.
  - exists acc. by split_and!.
  - rewrite Hcode.
    destruct (IH (dict_set code (filter_values_by_suffix suffixes items) acc))
      as (d' & Hd' & Hnodup & Hget).
    exists d'. split_and!; [done | by intros; apply Hnodup, dict_set_NoDup |].
    intros c. rewrite Hget. destruct (decide (c ∈ codes)) as [Hin|Hin].
    + rewrite !bool_decide_true; [done | by right | done].
    + rewrite (bool_decide_false (c ∈ codes)) by done.
      destruct (decide (c = code)) as [->|Hne].
      * rewrite dict_get_set_eq, bool_decide_true by left. by rewrite Hcode.
      * rewrite dict_get_set_ne by done. rewrite bool_decide_false; [done|].
        by intros [?|?]%elem_of_cons.
Qed.

(** X17. [filter_quadrant_by_suffix] stops at the first tile code that is
    not a key of the dictionary, with a [KeyError] that names it; the codes
    after it are not looked at. *)
Theorem filter_quadrant_unknown_code (suffixes pre post : list string)
    (code : string) (d : Dict (list Row)) :
  Forall (λ c, is_Some (dict_get c d)) pre →
  dict_get code d = None →
  filter_quadrant_by_suffix suffixes (pre ++ code :: post) d = Raise (KeyError code).
Proof. intros. by apply filter_codes_raises. Qed.

Lemma filter_quadrant_unknown_code_witness :
  filter_quadrant_by_suffix ["ZN"] (["B"] ++ "C" :: ["A"])
    (create_quadrant_dict [row "A" "ZN" "A_ZN.zip"; row "B" "SN" "B_SN.zip"]) =
  Raise (KeyError "C").
Proof.
  apply filter_quadrant_unknown_code.
  - repeat constructor. by eexists.
  - reflexivity.
Defined.

(** X18. When every tile code is a key of the dictionary,
    [filter_quadrant_by_suffix] returns a dictionary whose keys are the
    tile codes, each once: under a tile code it holds the items of that
    code whose suffix is one of [suffixes], in their order, also when none
    is left; the other keys of the dictionary are dropped. *)
Theorem filter_quadrant_known_codes (suffixes codes : list string)
    (d : Dict (list Row)) :
  Forall (λ c, is_Some (dict_get c d)) codes →
  ∃ d', filter_quadrant_by_suffix suffixes codes d = Ok d' ∧
    NoDup d'.*1 ∧
    ∀ c, dict_get c d' =
      if bool_decide (c ∈ codes)
      then filter_values_by_suffix suffixes <$> dict_get c d
      else None.
Proof.
  intros Hcodes. destruct (filter_codes_returns suffixes codes d Hcodes [])
    as (d' & Hd' & Hnodup & Hget).
  exists d'. split_and!; [done | apply Hnodup; constructor | done].
Qed.

Lemma filter_quadrant_known_codes_witness :
  ∃ d', filter_quadrant_by_suffix ["ZN"] ["B"; "A"; "B"]
      (create_quadrant_dict
         [row "A" "ZN" "A_ZN.zip"; row "B" "SN" "B_SN.zip"; row "C" "ZN" "C_ZN.zip"]) =
    Ok d' ∧
    NoDup d'.*1 ∧
    ∀ c, dict_get c d' =
      if bool_decide (c ∈ ["B"; "A"; "B"])
      then filter_values_by_suffix ["ZN"] <$>
        dict_get c (create_quadrant_dict
          [row "A" "ZN" "A_ZN.zip"; row "B" "SN" "B_SN.zip"; row "C" "ZN" "C_ZN.zip"])
      else None.
Proof.
  apply filter_quadrant_known_codes.
  repeat constructor; by eexists.
Defined.

(** [filter_values_by_suffix] keeps an item exactly when it has a suffix
    and the suffix is one of [suffixes]; an item without the field is
    dropped, not an error. *)
Lemma filter_values_by_suffix_spec (suffixes : list string) (data : list Row)
    (item : Row) :
  item ∈ filter_values_by_suffix suffixes data ↔
  item ∈ data ∧ ∃ s, item !! "suffix" = Some s ∧ s ∈ suffixes.
Proof.
  unfold filter_values_by_suffix.
  rewrite list_elem_of_In, List.filter_In, <-list_elem_of_In.
  unfold suffix_in. destruct (item !! "suffix") as [s|].
  - rewrite bool_decide_eq_true. split.
    + intros [? ?]. split; [done|]. by exists s.
    + by intros [? (? & [= <-] & ?)].
  - split; [by intros [_ ?] | by intros [_ (? & ? & _)]].
Qed.

(** *** [find_missing_from_quadrant_dict] *)

Lemma item_pairs_returns (code : string) (items : list Row) :
  Forall has_suffix items →
  ∃ ps, item_pairs code items = Ok ps ∧
    ∀ p, p ∈ ps ↔ ∃ item s, item ∈ items ∧ item !! "suffix" = Some s ∧ p = (code, s).
Proof.
  induction 1 as [|item items [s Hs] _ (ps & Hps & IH)]; simpl.
  - exists []. split; [done|]. intros p. split; [by intros ?%elem_of_nil|].
    by intros (? & ? & ?%elem_of_nil & _).
  - rewrite Hs, Hps. eexists. split; [done|]. intros p.
    rewrite elem_of_cons, IH. split.
    + intros [->|(item' & s' & ? & ? & ->)].
      * exists item, s. split_and!; [left | done..].
      * exists item', s'. split_and!; [by right | done..].
    + intros (item' & s' & [->|?]%elem_of_cons & Hs' & ->).
      * left. congruence.
      * right. by exists item', s'.
Qed.

Lemma item_pairs_raises (code : string) (items : list Row) :
  ¬ Forall has_suffix items → item_pairs code items = Raise (KeyError "suffix").
Proof.
  induction items as [|item items IH]; intros Hno; simpl.
  - destruct Hno. constructor.
  - destruct (item !! "suffix") as [s|] eqn:Hs; [|done].
    rewrite IH; [done|]. intros Hall. apply Hno. constructor; [by eexists | done].
Qed.

Lemma existing_pairs_returns (d : Dict (list Row)) :
  Forall (λ entry, Forall has_suffix entry.2) d →
  ∃ ps, existing_pairs d = Ok ps ∧ ∀ c s, (c, s) ∈ ps ↔ stored d c s.
Proof.
  induction 1 as [|[code items] d Hitems _ (qs & Hqs & IH)]; simpl.
  - exists []. split; [done|]. intros c s. split; [by intros ?%elem_of_nil|].
    by intros (? & ? & ?%elem_of_nil & _).
  - destruct (item_pairs_returns code items Hitems) as (ps & -> & Hps).
    rewrite Hqs. eexists. split; [done|]. intros c s.
    rewrite elem_of_app, Hps, IH. unfold stored. split.
    + intros [(item & s' & ? & ? & [= -> ->])|(items' & item & ? & ? & ?)].
      * exists items, item. split_and!; [left | done..].
      * exists items', item. split_and!; [by right | done..].
    + intros (items' & item & [[= -> ->]|?]%elem_of_cons & ? & ?).
      * left. by exists item, s.
      * right. by exists items', item.
Qed.

Lemma existing_pairs_raises (d : Dict (list Row)) :
  ¬ Forall (λ entry, Forall has_suffix entry.2) d →
  existing_pairs d = Raise (KeyError "suffix").
Proof.
  induction d as [|[code items] d IH]; intros Hno; simpl.
  - destruct Hno. constructor.
  - destruct (decide (Forall has_suffix items)) as [Hitems|Hitems].
    + destruct (item_pairs_returns code items Hitems) as (ps & -> & _).
      rewrite IH; [done|]. intros Hall. apply Hno. by constructor.
    + by rewrite item_pairs_raises.
Qed.

Lemma elem_of_product (codes suffixes : list string) (c s : string) :
  (c, s) ∈ product codes suffixes ↔ c ∈ codes ∧ s ∈ suffixes.
Proof.
  unfold product. rewrite list_elem_of_bind. split.
  - intros (c' & (s' & [= -> ->]%list_elem_of_singleton & ?)%list_elem_of_bind & ?). done.
  - intros [? ?]. exists c. split; [|done]. apply list_elem_of_bind.
    exists s. split; [by apply list_elem_of_singleton | done].
Qed.

(** X19. When every item of the dictionary has a suffix,
    [find_missing_from_quadrant_dict] returns, each once, the pairs of a
    code of [codes] and a suffix of [suffixes] for which the dictionary has
    no item with that suffix under that code. *)
Theorem find_missing_spec (d : Dict (list Row)) (codes suffixes : list string) :
  Forall (λ entry, Forall has_suffix entry.2) d →
  ∃ missing, find_missing_from_quadrant_dict d codes suffixes = Ok missing ∧
    NoDup missing ∧
    ∀ c s, (c, s) ∈ missing ↔ c ∈ codes ∧ s ∈ suffixes ∧ ¬ stored d c s.
Proof.
  intros Hd. unfold find_missing_from_quadrant_dict.
  destruct (existing_pairs_returns d Hd) as (ps & -> & Hps).
  eexists. split_and!; [done | apply NoDup_elements |].
  intros c s. rewrite elem_of_elements, elem_of_difference, !elem_of_list_to_set.
  rewrite elem_of_product, Hps. tauto.
Qed.

Lemma find_missing_spec_witness :
  ∃ missing, find_missing_from_quadrant_dict
      (create_quadrant_dict [row "A" "ZN" "A_ZN.zip"; row "B" "SN" "B_SN.zip"])
      ["A"; "B"] ["ZN"; "SN"] = Ok missing ∧
    NoDup missing ∧
    ∀ c s, (c, s) ∈ missing ↔
      c ∈ ["A"; "B"] ∧ s ∈ ["ZN"; "SN"] ∧
      ¬ stored (create_quadrant_dict [row "A" "ZN" "A_ZN.zip"; row "B" "SN" "B_SN.zip"]) c s.
Proof.
  apply find_missing_spec.
  repeat constructor; by eexists.
Defined.

(** X20. If some item of the dictionary has no suffix,
    [find_missing_from_quadrant_dict] raises [KeyError('suffix')], whatever
    the codes and suffixes asked for, also when none is asked for. *)
Theorem find_missing_without_suffix (d : Dict (list Row)) (codes suffixes : list string) :
  ¬ Forall (λ entry, Forall has_suffix entry.2) d →
  find_missing_from_quadrant_dict d codes suffixes = Raise (KeyError "suffix").
Proof.
  intros Hd. unfold find_missing_from_quadrant_dict. by rewrite existing_pairs_raises.
Qed.

Lemma find_missing_without_suffix_witness :
  find_missing_from_quadrant_dict
    (create_quadrant_dict [row "A" "ZN" "A_ZN.zip"; {[ "code" := "B" ]}]) [] [] =
  Raise (KeyError "suffix").
Proof.
  apply find_missing_without_suffix.
  intros Hall. apply Forall_cons in Hall as [_ Hall].
  apply Forall_cons in Hall as [Hall _]. apply Forall_cons in Hall as [[s Hs] _].
  vm_compute in Hs. discriminate Hs.
Defined.

(** *** [load_url_quadrants] *)

Lemma quadrant_urls_returns (quadrant_list : list Row) :
  Forall has_file_name quadrant_list →
  ∀ url, ∃ names,
    Forall2 (λ q f, q !! "file_name" = Some f) quadrant_list names ∧
    quadrant_urls quadrant_list url =
      Ok (url ++ ((λ f, BASE_URL_TOPODATA +:+ f) <$> names)).
Proof.
  induction 1 as [|q ql [f Hf] _ IH]; intros url; simpl.
  - exists []. split; [constructor|]. by rewrite app_nil_r.
  - rewrite Hf. destruct (IH (url ++ [BASE_URL_TOPODATA +:+ f])) as (names & Hnames & ->).
    exists (f :: names). split; [by constructor|].
    by rewrite <-(assoc_L (++)).
Qed.

Lemma quadrant_urls_raises (quadrant_list : list Row) :
  ¬ Forall has_file_name quadrant_list →
  ∀ url, quadrant_urls quadrant_list url = Raise (KeyError "file_name").
Proof.
  induction quadrant_list as [|q ql IH]; intros Hno url; simpl.
  - destruct Hno. constructor.
  - destruct (q !! "file_name") as [f|] eqn:Hf; [|done].
    apply IH. intros Hall. apply Hno. constructor; [by eexists | done].
Qed.

Lemma dict_urls_returns (d : Dict (list Row)) :
  Forall (λ entry, Forall has_file_name entry.2) d →
  ∀ url, ∃ names,
    Forall2 (λ q f, q !! "file_name" = Some f) (all_items d) names ∧
    dict_urls d url = Ok (url ++ ((λ f, BASE_URL_TOPODATA +:+ f) <$> names)).
Proof.
  unfold all_items.
  induction 1 as [|[code ql] d Hql _ IH]; intros url; csimpl.
  - exists []. split; [constructor|]. by rewrite app_nil_r.
  - destruct (quadrant_urls_returns ql Hql url) as (names1 & Hnames1 & ->).
    destruct (IH (url ++ ((λ f, BASE_URL_TOPODATA +:+ f) <$> names1)))
      as (names2 & Hnames2 & ->).
    exists (names1 ++ names2). split; [by apply Forall2_app|].
    by rewrite fmap_app, (assoc_L (++)).
Qed.

Lemma dict_urls_raises (d : Dict (list Row)) :
  ¬ Forall (λ entry, Forall has_file_name entry.2) d →
  ∀ url, dict_urls d url = Raise (KeyError "file_name").
Proof.
  induction d as [|[code ql] d IH]; intros Hno url; simpl.
  - destruct Hno. constructor.
  - destruct (decide (Forall has_file_name ql)) as [Hql|Hql].
    + destruct (quadrant_urls_returns ql Hql url) as (names & _ & ->).
      apply IH. intros Hall. apply Hno. by constructor.
    + by rewrite quadrant_urls_raises.
Qed.

(** X21. When every item of the dictionary has a file name,
    [load_url_quadrants] returns one locator for each item, in the order of
    the keys of the dictionary and, under a key, of its items: the base
    address followed by the file name of the item. *)
Theorem load_url_quadrants_spec (d : Dict (list Row)) :
  Forall (λ entry, Forall has_file_name entry.2) d →
  ∃ names,
    Forall2 (λ q f, q !! "file_name" = Some f) (all_items d) names ∧
    load_url_quadrants d = Ok ((λ f, BASE_URL_TOPODATA +:+ f) <$> names).
Proof. intros Hd. apply (dict_urls_returns d Hd []). Qed.

Lemma load_url_quadrants_spec_witness :
  ∃ names,
    Forall2 (λ q f, q !! "file_name" = Some f)
      (all_items (create_quadrant_dict
         [row "A" "ZN" "A_ZN.zip"; row "B" "SN" "B_SN.zip"; row "A" "SN" "A_SN.zip"]))
      names ∧
    load_url_quadrants (create_quadrant_dict
      [row "A" "ZN" "A_ZN.zip"; row "B" "SN" "B_SN.zip"; row "A" "SN" "A_SN.zip"]) =
    Ok ((λ f, BASE_URL_TOPODATA +:+ f) <$> names).
Proof.
  apply load_url_quadrants_spec.
  repeat constructor; by eexists.
Defined.

(** X22. If some item of the dictionary has no file name,
    [load_url_quadrants] raises [KeyError('file_name')] and returns no
    locator at all, not those of the items before it. *)
Theorem load_url_quadrants_without_file_name (d : Dict (list Row)) :
  ¬ Forall (λ entry, Forall has_file_name entry.2) d →
  load_url_quadrants d = Raise (KeyError "file_name").
Proof. intros Hd. by apply dict_urls_raises. Qed.

Lemma load_url_quadrants_without_file_name_witness :
  load_url_quadrants
    (create_quadrant_dict [row "A" "ZN" "A_ZN.zip"; {[ "code" := "B" ]}]) =
  Raise (KeyError "file_name").
Proof.
  apply load_url_quadrants_without_file_name.
  intros Hall. apply Forall_cons in Hall as [_ Hall].
  apply Forall_cons in Hall as [Hall _]. apply Forall_cons in Hall as [[s Hs] _].
  vm_compute in Hs. discriminate Hs.
Defined.

Lemma basename_url (f : string) :
  Py.basename (BASE_URL_TOPODATA +:+ f) = Py.basename f.
Proof.
  exact (PyFacts.basename_app_sep "http://www.dsr.inpe.br/topodata/data/geotiff" f).
Qed.

(** X23. The catalogue and the download worker together: when the
    worker is given the locators [load_url_quadrants] returns and every
    file is saved, the [finished] signal that ends the run carries, for
    each item of the dictionary in order, the destination folder joined
    with the base name of the item's file name. The base address adds
    nothing to the name of a saved file, and a file name with folders in
    it loses them. *)
Theorem url_saved_under_file_name (qurl_path : string → string) (d : Dict (list Row))
    (urls : list string) (dest : string) (items : list Download.Item) :
  load_url_quadrants d = Ok urls →
  length items = length urls →
  Forall (λ it, Download.ending it = Download.Saved) items →
  ∃ names,
    Forall2 (λ q f, q !! "file_name" = Some f) (all_items d) names ∧
    urls = (λ f, BASE_URL_TOPODATA +:+ f) <$> names ∧
    last (Download.signals
            (Download.run_worker qurl_path urls dest
               (Download.items_events 0 items ++ [Download.Turn])))
      = Some (Download.finished dest ((λ f, Py.join dest (Py.basename f)) <$> names)).
Proof.
  intros Hload Hlen Hsaved. unfold load_url_quadrants in Hload.
  destruct (decide (Forall (λ entry : string * list Row, Forall has_file_name entry.2) d))
    as [Hd|Hd].
  - destruct (dict_urls_returns d Hd []) as (names & Hnames & Hok).
    rewrite Hok in Hload. injection Hload as <-.
    exists names. split_and!; [done..|].
    rewrite DownloadMore.full_run by done. cbn [Download.signals].
    rewrite app_comm_cons, last_snoc. do 2 f_equal.
    rewrite (DownloadFacts.saved_paths_all_saved dest items Hsaved), Hlen, firstn_all.
    rewrite <-list_fmap_compose. apply list_fmap_ext. intros _ f _. simpl.
    by rewrite basename_url.
  - rewrite (dict_urls_raises d Hd []) in Hload. discriminate Hload.
Qed.

Lemma url_saved_under_file_name_witness :
  load_url_quadrants (create_quadrant_dict [row "A" "ZN" "sub/A_ZN.zip"]) =
    Ok ["http://www.dsr.inpe.br/topodata/data/geotiff/sub/A_ZN.zip"] ∧
  length [Download.mkItem [] Download.Saved] =
    length ["http://www.dsr.inpe.br/topodata/data/geotiff/sub/A_ZN.zip"] ∧
  Forall (λ it, Download.ending it = Download.Saved) [Download.mkItem [] Download.Saved] ∧
  ∃ names,
    Forall2 (λ q f, q !! "file_name" = Some f)
      (all_items (create_quadrant_dict [row "A" "ZN" "sub/A_ZN.zip"])) names ∧
    ["http://www.dsr.inpe.br/topodata/data/geotiff/sub/A_ZN.zip"] =
      (λ f, BASE_URL_TOPODATA +:+ f) <$> names ∧
    last (Download.signals
            (Download.run_worker (λ url, url)
               ["http://www.dsr.inpe.br/topodata/data/geotiff/sub/A_ZN.zip"] "/dest"
               (Download.items_events 0 [Download.mkItem [] Download.Saved] ++
                  [Download.Turn])))
      = Some (Download.finished "/dest" ((λ f, Py.join "/dest" (Py.basename f)) <$> names)).
Proof.
  assert (Hsaved : Forall (λ it, Download.ending it = Download.Saved)
                     [Download.mkItem [] Download.Saved]) by (by repeat constructor).
  split; [reflexivity|]. split; [reflexivity|]. split; [exact Hsaved|].
  exact (url_saved_under_file_name (λ url, url)
           (create_quadrant_dict [row "A" "ZN" "sub/A_ZN.zip"])
           ["http://www.dsr.inpe.br/topodata/data/geotiff/sub/A_ZN.zip"] "/dest"
           [Download.mkItem [] Download.Saved] eq_refl eq_refl Hsaved).
Defined.

End CatalogFacts.

(** ** Layers: the missing field, the order of the features, containment *)

Module LayersFacts.
Import Spatial Layers.

Lemma sorted_set_ext (codes1 codes2 : list string) :
  (∀ c, c ∈ codes1 ↔ c ∈ codes2) → sorted_set codes1 = sorted_set codes2.
Proof.
  intros Hmem. unfold sorted_set. do 2 f_equal.
  apply set_eq. intros c. by rewrite !elem_of_list_to_set.
Qed.

Section Analyze.

Context {Geometry CRS : Type} `{EqDecision CRS}.
Variable isEmpty : Geometry → bool.
Variable within : Geometry → Geometry → bool.
Variable intersects : Geometry → Geometry → bool.
Variable reproject : CRS → CRS → Geometry → Geometry.

Local Abbreviation no_field := "Campo 'tile_code' não encontrado na camada da grade".

Lemma scan_grid_raises (poly_id : Z) (p : Geometry) (grid : list Feature) :
  Exists (lacks_tile_code isEmpty) grid →
  ∀ results, scan_grid isEmpty within intersects poly_id p grid results = Raised no_field.
Proof.
  induction grid as [|f grid IH]; intros Hbad results; [by apply Exists_nil in Hbad|].
  apply Exists_cons in Hbad as [[Hvis Hnone]|Hbad]; simpl.
  - unfold blank in Hvis. destruct (geometry f) as [g|]; [|done].
    by rewrite Hvis, Hnone.
  - destruct (geometry f) as [g|]; [|by apply IH].
    destruct (isEmpty g); [by apply IH|].
    destruct (attributes f !! "tile_code"); [|done].
    destruct (within p g); [by apply IH|].
    destruct (intersects p g); by apply IH.
Qed.

Lemma scan_polygons_blank (transform : option (Geometry → Geometry))
    (polys grid : list Feature) (results : list Row) :
  ¬ Exists (visible isEmpty) polys →
  scan_polygons isEmpty within intersects transform polys grid results = Ok results.
Proof.
  induction polys as [|pf polys IH]; intros Hno; [done|].
  apply not_Exists_Forall in Hno; [|apply _]. apply Forall_cons in Hno as [Hpf Hno].
  simpl. destruct (geometry pf) as [g|] eqn:Hg.
  - destruct (isEmpty g) eqn:He.
    + apply IH. by apply Forall_not_Exists.
    + destruct Hpf. unfold visible, blank. by rewrite Hg.
  - apply IH. by apply Forall_not_Exists.
Qed.

Lemma scan_polygons_raises (transform : option (Geometry → Geometry))
    (polys grid : list Feature) :
  Exists (visible isEmpty) polys →
  Exists (lacks_tile_code isEmpty) grid →
  ∀ results,
    scan_polygons isEmpty within intersects transform polys grid results = Raised no_field.
Proof.
  intros Hvis Hbad. induction polys as [|pf polys IH]; intros results;
    [by apply Exists_nil in Hvis|].
  simpl. destruct (geometry pf) as [g|] eqn:Hg.
  - destruct (isEmpty g) eqn:He.
    + apply IH. apply Exists_cons in Hvis as [Hpf|?]; [|done].
      unfold visible, blank in Hpf. rewrite Hg in Hpf. congruence.
    + by rewrite scan_grid_raises.
  - apply IH. apply Exists_cons in Hvis as [Hpf|?]; [|done].
    unfold visible, blank in Hpf. by rewrite Hg in Hpf.
Qed.

Lemma grid_has_tile_codes (grid : list Feature) :
  ¬ Exists (lacks_tile_code isEmpty) grid →
  ∀ f g, f ∈ grid → geometry f = Some g → isEmpty g = false →
    is_Some (attributes f !! "tile_code").
Proof.
  intros Hno f g Hin Hg He.
  destruct (attributes f !! "tile_code") eqn:Hcode; [by eexists|].
  destruct Hno. apply Exists_exists. exists f. split; [done|].
  split; [|done]. unfold blank. by rewrite Hg.
Qed.

Lemma scan_outcome (transform : option (Geometry → Geometry)) (polys grid : list Feature) :
  (Exists (visible isEmpty) polys ∧ Exists (lacks_tile_code isEmpty) grid ∧
   scan_polygons isEmpty within intersects transform polys grid [] = Raised no_field) ∨
  (¬ (Exists (visible isEmpty) polys ∧ Exists (lacks_tile_code isEmpty) grid) ∧
   ∃ rows, scan_polygons isEmpty within intersects transform polys grid [] = Ok rows ∧
     ∀ c, c ∈ tile_code <$> rows ↔
       ∃ pf g0 f, pf ∈ polys ∧ geometry pf = Some g0 ∧ isEmpty g0 = false ∧ f ∈ grid ∧
         hit isEmpty within intersects
           (match transform with Some t => t g0 | None => g0 end) f c).
Proof.
  destruct (decide (Exists (visible isEmpty) polys)) as [Hvis|Hvis].
  - destruct (decide (Exists (lacks_tile_code isEmpty) grid)) as [Hbad|Hbad].
    + left. split_and!; [done..|]. by apply scan_polygons_raises.
    + right. split; [by intros [_ ?]|].
      destruct (SpatialFacts.scan_polygons_spec isEmpty within intersects transform
                  polys grid (grid_has_tile_codes grid Hbad) []) as (rows & Hrun & Hrows).
      by exists rows.
  - right. split; [by intros [? _]|]. exists []. split; [by apply scan_polygons_blank|].
    intros c. split; [by intros ?%elem_of_nil|].
    intros (pf & g0 & f & Hpf & Hg & He & _). destruct Hvis.
    apply Exists_exists. exists pf. split; [done|]. unfold visible, blank. by rewrite Hg.
Qed.

(** X24. For valid layers [analyze_polygon_against_grid] raises the error
    of the missing field [tile_code] exactly when the polygon layer has a
    polygon whose geometry is neither null nor empty and the grid has a
    feature, with a geometry neither null nor empty, without the field;
    in every other case it returns a list. A grid without the field is
    no error for a polygon layer that has nothing to look at. *)
Theorem analyze_missing_field (open_layer : string → QgsVectorLayer)
    (polygon_path grid_path : string) :
  isValid (open_layer polygon_path) = true →
  isValid (open_layer grid_path) = true →
  (Exists (visible isEmpty) (getFeatures (open_layer polygon_path)) ∧
   Exists (lacks_tile_code isEmpty) (getFeatures (open_layer grid_path)) →
   analyze_polygon_against_grid isEmpty within intersects reproject
     open_layer polygon_path grid_path = Raised no_field) ∧
  (¬ (Exists (visible isEmpty) (getFeatures (open_layer polygon_path)) ∧
      Exists (lacks_tile_code isEmpty) (getFeatures (open_layer grid_path))) →
   ∃ codes, analyze_polygon_against_grid isEmpty within intersects reproject
     open_layer polygon_path grid_path = Ok codes).
Proof.
  intros Hpoly Hgrid. unfold analyze_polygon_against_grid.
  rewrite Hpoly, Hgrid. simpl.
  set (transform := if bool_decide (crs (open_layer polygon_path) ≠ crs (open_layer grid_path))
                    then Some (reproject (crs (open_layer polygon_path)) (crs (open_layer grid_path)))
                    else None).
  destruct (scan_outcome transform (getFeatures (open_layer polygon_path))
              (getFeatures (open_layer grid_path)))
    as [(Hvis & Hbad & ->)|(Hno & rows & -> & _)].
  - split; [done|]. intros []. done.
  - split; [done|]. intros _. by eexists.
Qed.

(** X25. The result of [analyze_polygon_against_grid], a list or an error,
    does not depend on the order in which the layers give their features:
    two providers whose layers agree in validity and reference system and
    have the same features in another order give the same result. *)
Theorem analyze_order_irrelevant (open1 open2 : string → QgsVectorLayer)
    (polygon_path grid_path : string) :
  (∀ path, isValid (open1 path) = isValid (open2 path)) →
  (∀ path, crs (open1 path) = crs (open2 path)) →
  (∀ path, getFeatures (open1 path) ≡ₚ getFeatures (open2 path)) →
  analyze_polygon_against_grid isEmpty within intersects reproject
    open1 polygon_path grid_path =
  analyze_polygon_against_grid isEmpty within intersects reproject
    open2 polygon_path grid_path.
Proof.
  intros Hvalid Hcrs Hfeats. unfold analyze_polygon_against_grid.
  rewrite <-!Hvalid, <-!Hcrs.
  destruct (isValid (open1 polygon_path)); [|done].
  destruct (isValid (open1 grid_path)); [|done]. simpl.
  set (transform := if bool_decide (crs (open1 polygon_path) ≠ crs (open1 grid_path))
                    then Some (reproject (crs (open1 polygon_path)) (crs (open1 grid_path)))
                    else None).
  pose proof (Hfeats polygon_path) as Hp. pose proof (Hfeats grid_path) as Hg.
  destruct (scan_outcome transform (getFeatures (open1 polygon_path))
              (getFeatures (open1 grid_path)))
    as [(Hvis1 & Hbad1 & ->)|(Hno1 & rows1 & -> & Hrows1)];
  destruct (scan_outcome transform (getFeatures (open2 polygon_path))
              (getFeatures (open2 grid_path)))
    as [(Hvis2 & Hbad2 & ->)|(Hno2 & rows2 & -> & Hrows2)].
  - done.
  - destruct Hno2. by rewrite <-Hp, <-Hg.
  - destruct Hno1. by rewrite Hp, Hg.
  - f_equal. apply sorted_set_ext. intros c. rewrite Hrows1, Hrows2.
    split; intros (pf & g0 & f & Hpf & ? & ? & Hf & ?); exists pf, g0, f.
    + rewrite <-Hp, <-Hg. done.
    + rewrite Hp, Hg. done.
Qed.

End Analyze.

Section Within.

Context {Geometry CRS : Type} `{EqDecision CRS}.
Variable within : Geometry → Geometry → bool.
Variable combine : Geometry → Geometry → option Geometry.
Variable reproject : CRS → CRS → Geometry → Geometry.
Variable target_crs : CRS.

Lemma combine_grid_null (transform : option (Geometry → Geometry))
    (feats : list Feature) (grid_geom : option Geometry) :
  Forall (λ f, geometry f = None) feats →
  combine_grid combine transform feats grid_geom = grid_geom.
Proof.
  induction 1 as [|f feats Hf _ IH]; simpl; [done|]. by rewrite Hf.
Qed.

Lemma all_within_spec (transform : option (Geometry → Geometry))
    (feats : list Feature) (G : Geometry) :
  all_within within transform feats G = true ↔
  ∀ f g, f ∈ feats → geometry f = Some g →
    within (match transform with Some t => t g | None => g end) G = true.
Proof.
  induction feats as [|f feats IH]; simpl.
  - split; [|done]. intros _ f g Hin. by apply elem_of_nil in Hin.
  - destruct (geometry f) as [g|] eqn:Hg.
    + destruct (within _ G) eqn:Hw; simpl.
      * rewrite IH. split.
        -- intros Hall f' g' [->|Hin]%elem_of_cons Hg'; [|by eapply Hall].
           assert (g' = g) as -> by congruence. done.
        -- intros Hall f' g' Hin. apply Hall. by right.
      * split; [done|]. intros Hall. rewrite <-Hw. apply (Hall f g); [left | done].
    + rewrite IH. split.
      * intros Hall f' g' [->|Hin]%elem_of_cons Hg'; [congruence | by eapply Hall].
      * intros Hall f' g' Hin. apply Hall. by right.
Qed.

(** X26. For valid layers [is_polygon_within_grid] returns [True] exactly
    when the geometries of the grid combine to a geometry that is not null
    and every polygon geometry that is not null, brought to the target
    reference system, is within it; features without geometry are passed
    over in both layers. *)
Theorem within_grid_spec (open_layer : string → QgsVectorLayer)
    (polygon_path grid_path : string) :
  isValid (open_layer polygon_path) = true →
  isValid (open_layer grid_path) = true →
  ∃ b, is_polygon_within_grid within combine reproject target_crs
      open_layer polygon_path grid_path = Returns b ∧
    (b = true ↔
     ∃ G, combine_grid combine (to_target reproject target_crs (crs (open_layer grid_path)))
            (getFeatures (open_layer grid_path)) None = Some G ∧
       ∀ f g, f ∈ getFeatures (open_layer polygon_path) → geometry f = Some g →
         within (in_target reproject target_crs (crs (open_layer polygon_path)) g) G = true).
Proof.
  intros Hpoly Hgrid. unfold is_polygon_within_grid. rewrite Hpoly, Hgrid. simpl.
  destruct (combine_grid _ _ _ None) as [G|].
  - eexists. split; [done|]. rewrite all_within_spec. unfold in_target. split.
    + intros Hall. by exists G.
    + by intros (G' & [= <-] & Hall).
  - exists false. split; [done|]. split; [done|]. by intros (G & ? & _).
Qed.

(** X27. A grid layer none of whose features has a geometry contains
    nothing: [is_polygon_within_grid] returns [False] for it, also for a
    polygon layer without features. *)
Theorem within_grid_without_geometry (open_layer : string → QgsVectorLayer)
    (polygon_path grid_path : string) :
  isValid (open_layer polygon_path) = true →
  isValid (open_layer grid_path) = true →
  Forall (λ f, geometry f = None) (getFeatures (open_layer grid_path)) →
  is_polygon_within_grid within combine reproject target_crs
    open_layer polygon_path grid_path = Returns false.
Proof.
  intros Hpoly Hgrid Hnull. unfold is_polygon_within_grid. rewrite Hpoly, Hgrid. simpl.
  by rewrite combine_grid_null.
Qed.

End Within.

(** *** On the small engine *)

Lemma analyze_missing_field_witness :
  toy_analyze [shape 1 []; shape 2 [2; 3]%nat] [tile 7 [0; 1]%nat "A"; shape 8 [3; 4]%nat] =
  Raised "Campo 'tile_code' não encontrado na camada da grade".
Proof.
  apply (analyze_missing_field toy_isEmpty toy_within toy_intersects toy_reproject
           (toy_layers [shape 1 []; shape 2 [2; 3]%nat]
              [tile 7 [0; 1]%nat "A"; shape 8 [3; 4]%nat]) "poly" "grid");
    [reflexivity | reflexivity |].
  split.
  - apply Exists_cons_tl, Exists_cons_hd. reflexivity.
  - apply Exists_cons_tl, Exists_cons_hd. split; reflexivity.
Defined.

Lemma analyze_order_irrelevant_witness :
  toy_analyze [shape 1 [2; 3]%nat; shape 2 [7]%nat]
    [tile 1 [0; 1; 2]%nat "B"; tile 2 [3; 4; 5]%nat "A"; tile 3 [6; 7]%nat "C"] =
  toy_analyze [shape 2 [7]%nat; shape 1 [2; 3]%nat]
    [tile 3 [6; 7]%nat "C"; tile 2 [3; 4; 5]%nat "A"; tile 1 [0; 1; 2]%nat "B"].
Proof.
  apply (analyze_order_irrelevant toy_isEmpty toy_within toy_intersects toy_reproject
           (toy_layers [shape 1 [2; 3]%nat; shape 2 [7]%nat]
              [tile 1 [0; 1; 2]%nat "B"; tile 2 [3; 4; 5]%nat "A"; tile 3 [6; 7]%nat "C"])
           (toy_layers [shape 2 [7]%nat; shape 1 [2; 3]%nat]
              [tile 3 [6; 7]%nat "C"; tile 2 [3; 4; 5]%nat "A"; tile 1 [0; 1; 2]%nat "B"])
           "poly" "grid").
  - intros path. unfold toy_layers. by case_bool_decide.
  - intros path. unfold toy_layers. by case_bool_decide.
  - intros path. unfold toy_layers. case_bool_decide; simpl.
    + apply perm_swap.
    + apply (reverse_Permutation
        [tile 3 [6; 7]%nat "C"; tile 2 [3; 4; 5]%nat "A"; tile 1 [0; 1; 2]%nat "B"]).
Defined.

Lemma within_grid_spec_witness :
  ∃ b, toy_within_grid [shape 1 [2; 3]%nat] [tile 1 [0; 1; 2]%nat "B"; tile 2 [3; 4; 5]%nat "A"] =
      Returns b ∧
    (b = true ↔
     ∃ G, combine_grid toy_combine (to_target toy_reproject tt tt)
            [tile 1 [0; 1; 2]%nat "B"; tile 2 [3; 4; 5]%nat "A"] None = Some G ∧
       ∀ f g, f ∈ [shape 1 [2; 3]%nat] → geometry f = Some g →
         toy_within (in_target toy_reproject tt tt g) G = true).
Proof.
  apply (within_grid_spec toy_within toy_combine toy_reproject tt
           (toy_layers [shape 1 [2; 3]%nat]
              [tile 1 [0; 1; 2]%nat "B"; tile 2 [3; 4; 5]%nat "A"]) "poly" "grid");
    reflexivity.
Defined.

Lemma within_grid_without_geometry_witness :
  toy_within_grid [] [mkFeature 1 None ∅; mkFeature 2 None ∅] = Returns false.
Proof.
  apply (within_grid_without_geometry toy_within toy_combine toy_reproject tt
           (toy_layers [] [mkFeature 1 None ∅; mkFeature 2 None ∅]) "poly" "grid");
    [reflexivity | reflexivity |].
  repeat constructor.
Defined.

End LayersFacts.
